(** * Lorc: a streaming JSON syntax validator (Go)

    A shallow embedding of [main.go] (the lexer and the recursive-descent
    grammar checker) and of the companion first/last-byte checker
    [validJSON], followed by the properties stated about them.

    Conventions of the embedding.
    - A Go [rune] is an integer code point ([Z]).
    - A Go [string] is a byte string ([String.string]); [string(r)] and
      [string([]rune)] are UTF-8 encoding ([utf8_rune], [string_of_runes]).
    - The [bufio.Reader] is the sequence of runes that [ReadRune] will still
      deliver, followed by the error it reports when they are used up and
      on every call after that: [io.EOF] at the end of a file, or the
      fault of a source that keeps failing.  A source that fails once and
      then delivers more runes is not modelled: the statements about a
      read fault below are about the token being scanned when the fault
      strikes, or about lexer states of any reader, never about what such
      a source delivers next.
    - Pointer receivers ([*Lexer], [*Parser]) become explicit state passing:
      every method returns the updated state next to its result.
    - [for] loops of the lexer recurse on a counter initialised from the
      number of runes still pending; the lemmas [skipWhitespace_unfold],
      [readString_loop_unfold], [readDigits_unfold] and
      [readIdentifier_loop_unfold] show that the counter never cuts a loop
      short.
    - The mutually recursive parser methods recurse on a fuel argument and
      answer [OutOfFuel] when it is used up; [ParseObject_total] shows that
      the fuel given by [Validate] always suffices. *)

From Stdlib Require Import ZArith List String Ascii Bool Lia.
From Stdlib Require Import DecimalString.
Import ListNotations.

Local Open Scope string_scope.
Local Open Scope list_scope.
Local Open Scope Z_scope.

(** ** Runes, strings and formatting *)

Definition rune := Z.

(** The rune of a printable ASCII character, as in a Go rune literal. *)
Definition rn (a : ascii) : rune := Z.of_N (N_of_ascii a).

(** The double quote (U+0022), which delimits a JSON string. *)
Definition quote : rune := 34.
Definition backslash : rune := 92.

Definition byte_of (z : Z) : ascii := ascii_of_N (Z.to_N z).

(** UTF-8 encoding of one rune, as Go's [string(r)] and [%c] produce it:
    surrogates and values outside the Unicode range are written as U+FFFD. *)
Definition utf8_rune (r : rune) : string :=
  if (r <? 0) || (0x10FFFF <? r) || ((0xD800 <=? r) && (r <=? 0xDFFF)) then
    String (byte_of 0xEF) (String (byte_of 0xBF) (String (byte_of 0xBD) ""))
  else if r <? 0x80 then
    String (byte_of r) ""
  else if r <? 0x800 then
    String (byte_of (Z.lor 0xC0 (Z.shiftr r 6)))
      (String (byte_of (Z.lor 0x80 (Z.land r 0x3F))) "")
  else if r <? 0x10000 then
    String (byte_of (Z.lor 0xE0 (Z.shiftr r 12)))
      (String (byte_of (Z.lor 0x80 (Z.land (Z.shiftr r 6) 0x3F)))
         (String (byte_of (Z.lor 0x80 (Z.land r 0x3F))) ""))
  else
    String (byte_of (Z.lor 0xF0 (Z.shiftr r 18)))
      (String (byte_of (Z.lor 0x80 (Z.land (Z.shiftr r 12) 0x3F)))
         (String (byte_of (Z.lor 0x80 (Z.land (Z.shiftr r 6) 0x3F)))
            (String (byte_of (Z.lor 0x80 (Z.land r 0x3F))) ""))).

(** [string(result)] for [result []rune]. *)
Fixpoint string_of_runes (rs : list rune) : string :=
  match rs with
  | [] => ""
  | r :: rs' => utf8_rune r ++ string_of_runes rs'
  end.

(** [%d] applied to an integer. *)
Definition fmt_d (z : Z) : string := NilZero.string_of_int (Z.to_int z).

(** The runes of an ASCII text.  A Rocq string literal written here cannot
    hold a double quote, so in [src_text] a backquote stands for one:
    [src_text "{`a`:1}"] is the seven-rune input [{"a":1}].  A backslash is
    an ordinary character of a Rocq string, so [\n] below is the two runes
    backslash and n, as in a JSON source text. *)
Fixpoint src_text (s : string) : list rune :=
  match s with
  | EmptyString => []
  | String a s' =>
      (if Ascii.eqb a "`"%char then quote else rn a) :: src_text s'
  end.

(** ** The [unicode] package

    [unicode.IsDigit] and [unicode.IsLetter] decide the Latin-1 range from a
    fixed property table and everything above it from the Unicode range
    tables.  The Latin-1 part is written out; the range tables are a
    parameter of the development. *)

Class UnicodeTables := {
  digitTable : rune -> bool;   (* category Nd above U+00FF *)
  letterTable : rune -> bool   (* category L above U+00FF *)
}.

Definition MaxLatin1 : rune := 0xFF.

Definition between (lo hi r : rune) : bool := (lo <=? r) && (r <=? hi).

Definition latin1_letter (r : rune) : bool :=
  between (rn "A") (rn "Z") r || between (rn "a") (rn "z") r
  || (r =? 0xAA) || (r =? 0xB5) || (r =? 0xBA)
  || between 0xC0 0xD6 r || between 0xD8 0xF6 r || between 0xF8 0xFF r.

Section Unicode.
Context {U : UnicodeTables}.

Definition unicode_IsDigit (r : rune) : bool :=
  if r <=? MaxLatin1 then between (rn "0") (rn "9") r else digitTable r.

Definition unicode_IsLetter (r : rune) : bool :=
  if (0 <=? r) && (r <=? MaxLatin1) then latin1_letter r
  else if r <? 0 then false else letterTable r.
End Unicode.

(** Tables with nothing above Latin-1, used to run the code on ASCII inputs. *)
Definition latin1_tables : UnicodeTables :=
  {| digitTable := fun _ => false; letterTable := fun _ => false |}.

(** ** Tokens *)

Inductive TokenType :=
| TokenError
| TokenLeftBrace
| TokenRightBrace
| TokenLeftBracket
| TokenRightBracket
| TokenString
| TokenNumber
| TokenBoolean
| TokenNull
| TokenColon
| TokenComma
| TokenEOF.

Definition TokenType_eqb (a b : TokenType) : bool :=
  match a, b with
  | TokenError, TokenError | TokenLeftBrace, TokenLeftBrace
  | TokenRightBrace, TokenRightBrace | TokenLeftBracket, TokenLeftBracket
  | TokenRightBracket, TokenRightBracket | TokenString, TokenString
  | TokenNumber, TokenNumber | TokenBoolean, TokenBoolean
  | TokenNull, TokenNull | TokenColon, TokenColon
  | TokenComma, TokenComma | TokenEOF, TokenEOF => true
  | _, _ => false
  end.

Record Token := mkToken { Typ : TokenType; Literal : string }.

(** ** The reader and the lexer state *)

Inductive ioerr := EOF | ReadFault.

Record Reader := mkReader { pending : list rune; ending : ioerr }.

(** [reader.ReadRune()]: the next rune, or the zero rune and the error.
    Once the runes are used up the error is reported on every call, as
    [bufio.Reader] does at the end of a file and on a source that keeps
    failing. *)
Definition ReadRune (r : Reader) : rune * option ioerr * Reader :=
  match pending r with
  | c :: rest => (c, None, mkReader rest (ending r))
  | [] => (0, Some (ending r), r)
  end.

Record Lexer := mkLexer { reader : Reader; char : rune; err : option ioerr }.

Definition is_nil (e : option ioerr) : bool :=
  match e with None => true | Some _ => false end.

Definition is_EOF (e : option ioerr) : bool :=
  match e with Some EOF => true | _ => false end.

Definition readChar (l : Lexer) : Lexer :=
  match ReadRune (reader l) with
  | (_, Some e, r') => mkLexer r' 0 (Some e)
  | (c, None, r') => mkLexer r' c (err l)
  end.

Definition NewLexer (input : Reader) : Lexer :=
  readChar (mkLexer input 0 None).

(** The number of iterations a scanning loop can still make. *)
Definition budget (l : Lexer) : nat := S (List.length (pending (reader l))).

Definition is_space (c : rune) : bool :=
  (c =? rn " ") || (c =? 9) || (c =? 10) || (c =? 13).

Fixpoint skipWhitespace_loop (n : nat) (l : Lexer) : Lexer :=
  match n with
  | O => l
  | S n' => if is_space (char l) then skipWhitespace_loop n' (readChar l) else l
  end.

Definition skipWhitespace (l : Lexer) : Lexer :=
  skipWhitespace_loop (budget l) l.

(** The [switch] of [readString]: the rune an escape letter stands for. *)
Definition escape (c : rune) : option rune :=
  if (c =? quote) || (c =? backslash) || (c =? rn "/") then Some c
  else if c =? rn "b" then Some 8
  else if c =? rn "f" then Some 12
  else if c =? rn "n" then Some 10
  else if c =? rn "r" then Some 13
  else if c =? rn "t" then Some 9
  else None.

(** A Go [(string, error)] result. *)
Inductive result := Ok (s : string) | Err (msg : string).

(** What [readString] does once its loop has ended. *)
Definition readString_end (acc : list rune) (l : Lexer) : result * Lexer :=
  if is_EOF (err l) then (Err "unterminated string", l)
  else (Ok (string_of_runes acc), readChar l).

Fixpoint readString_loop (n : nat) (acc : list rune) (l : Lexer)
  : result * Lexer :=
  match n with
  | O => readString_end acc l
  | S n' =>
      if negb (char l =? quote) && is_nil (err l) then
        if char l =? backslash then
          let l1 := readChar l in
          match escape (char l1) with
          | Some r => readString_loop n' (acc ++ [r]) (readChar l1)
          | None =>
              (Err ("invalid escape sequence: \" ++ utf8_rune (char l1)), l1)
          end
        else if char l <? 32 then
          (Err ("invalid control character in string: " ++ fmt_d (char l)), l)
        else readString_loop n' (acc ++ [char l]) (readChar l)
      else readString_end acc l
  end.

Definition readString (l : Lexer) : result * Lexer :=
  let l1 := readChar l in
  readString_loop (budget l1) [] l1.

Section Lexing.
Context {U : UnicodeTables}.

(** [for l.err == nil && unicode.IsDigit(l.char) { append; readChar }] *)
Fixpoint readDigits (n : nat) (acc : list rune) (l : Lexer)
  : list rune * Lexer :=
  match n with
  | O => (acc, l)
  | S n' =>
      if is_nil (err l) && unicode_IsDigit (char l)
      then readDigits n' (acc ++ [char l]) (readChar l)
      else (acc, l)
  end.

(** The four parts of [readNumber], in the order of the source. *)

(* Handle negative numbers *)
Definition number_sign (l : Lexer) : list rune * Lexer :=
  if char l =? rn "-" then ([char l], readChar l) else ([], l).

(* Read integer part *)
Definition number_integer (acc : list rune) (l : Lexer)
  : list rune * Lexer :=
  readDigits (budget l) acc l.

(* Handle decimal point, read fractional part *)
Definition number_fraction (acc : list rune) (l : Lexer)
  : list rune * Lexer :=
  if char l =? rn "." then
    let l1 := readChar l in
    readDigits (budget l1) (acc ++ [char l]) l1
  else (acc, l).

(* Handle exponent notation: exponent sign, exponent digits *)
Definition number_exponent (acc : list rune) (l : Lexer)
  : list rune * Lexer :=
  if (char l =? rn "e") || (char l =? rn "E") then
    let acc := acc ++ [char l] in
    let l := readChar l in
    let '(acc, l) :=
      if (char l =? rn "+") || (char l =? rn "-")
      then (acc ++ [char l], readChar l) else (acc, l) in
    readDigits (budget l) acc l
  else (acc, l).

Definition readNumber (l : Lexer) : string * Lexer :=
  let '(acc, l) := number_sign l in
  let '(acc, l) := number_integer acc l in
  let '(acc, l) := number_fraction acc l in
  let '(acc, l) := number_exponent acc l in
  (string_of_runes acc, l).

Fixpoint readIdentifier_loop (n : nat) (acc : list rune) (l : Lexer)
  : list rune * Lexer :=
  match n with
  | O => (acc, l)
  | S n' =>
      if is_nil (err l) && (unicode_IsLetter (char l) || (char l =? rn "_"))
      then readIdentifier_loop n' (acc ++ [char l]) (readChar l)
      else (acc, l)
  end.

Definition readIdentifier (l : Lexer) : string * Lexer :=
  let '(acc, l') := readIdentifier_loop (budget l) [] l in
  (string_of_runes acc, l').

(** The inner [switch identifier] of [NextToken]. *)
Definition keyword (identifier : string) : Token :=
  if String.eqb identifier "true" || String.eqb identifier "false"
  then mkToken TokenBoolean identifier
  else if String.eqb identifier "null"
  then mkToken TokenNull identifier
  else mkToken TokenError ("invalid identifier: " ++ identifier).

Definition NextToken (l : Lexer) : Token * Lexer :=
  let l := skipWhitespace l in
  if is_EOF (err l) then (mkToken TokenEOF "", l)
  else if char l =? rn "{" then
    (mkToken TokenLeftBrace (utf8_rune (char l)), readChar l)
  else if char l =? rn "}" then
    (mkToken TokenRightBrace (utf8_rune (char l)), readChar l)
  else if char l =? rn "[" then
    (mkToken TokenLeftBracket (utf8_rune (char l)), readChar l)
  else if char l =? rn "]" then
    (mkToken TokenRightBracket (utf8_rune (char l)), readChar l)
  else if char l =? rn ":" then
    (mkToken TokenColon (utf8_rune (char l)), readChar l)
  else if char l =? rn "," then
    (mkToken TokenComma (utf8_rune (char l)), readChar l)
  else if char l =? quote then
    match readString l with
    | (Err msg, l') => (mkToken TokenError msg, l')
    | (Ok str, l') => (mkToken TokenString str, l')
    end
  else if unicode_IsDigit (char l) || (char l =? rn "-") then
    let '(number, l') := readNumber l in
    (mkToken TokenNumber number, l')
  else if unicode_IsLetter (char l) then
    let '(identifier, l') := readIdentifier l in
    (keyword identifier, l')
  else (mkToken TokenError (utf8_rune (char l)), l).
End Lexing.

(** ** The parser *)

Record Parser := mkParser { lexer : Lexer; token : Token }.

(** A Go [error] result of a parser method, with the parser state it leaves
    behind; [OutOfFuel] is the embedding's own third answer. *)
Inductive Outcome :=
| OutOfFuel
| Done (e : option string) (p : Parser).

Section Parsing.
Context {U : UnicodeTables}.

Definition nextToken (p : Parser) : Parser :=
  let '(t, l) := NextToken (lexer p) in mkParser l t.

Definition NewParser (l : Lexer) : Parser :=
  nextToken (mkParser l (mkToken TokenError "")).

Definition tok_is (p : Parser) (t : TokenType) : bool :=
  TokenType_eqb (Typ (token p)) t.

Definition fail (msg : string) (p : Parser) : Outcome := Done (Some msg) p.

Fixpoint parseValue (fuel : nat) (p : Parser) : Outcome :=
  match fuel with
  | O => OutOfFuel
  | S fuel' =>
      match Typ (token p) with
      | TokenString | TokenNumber | TokenBoolean | TokenNull =>
          Done None (nextToken p)
      | TokenLeftBrace => ParseObject fuel' p
      | TokenLeftBracket => parseArray fuel' p
      | _ => fail ("expected value, got " ++ Literal (token p)) p
      end
  end

with parseArray (fuel : nat) (p : Parser) : Outcome :=
  match fuel with
  | O => OutOfFuel
  | S fuel' =>
      let p := nextToken p in
      if tok_is p TokenRightBracket then Done None (nextToken p)
      else parseArray_loop fuel' p
  end

(** The [for] of [parseArray], one iteration per call. *)
with parseArray_loop (fuel : nat) (p : Parser) : Outcome :=
  match fuel with
  | O => OutOfFuel
  | S fuel' =>
      match parseValue fuel' p with
      | OutOfFuel => OutOfFuel
      | Done (Some e) p => Done (Some e) p
      | Done None p =>
          if tok_is p TokenRightBracket then Done None (nextToken p)
          else if negb (tok_is p TokenComma) then
            fail ("expected ',' or ']', got '" ++ Literal (token p) ++ "'") p
          else parseArray_loop fuel' (nextToken p)
      end
  end

with ParseObject (fuel : nat) (p : Parser) : Outcome :=
  match fuel with
  | O => OutOfFuel
  | S fuel' =>
      if negb (tok_is p TokenLeftBrace) then
        fail ("expected '{', got '" ++ Literal (token p) ++ "'") p
      else
        let p := nextToken p in
        if tok_is p TokenRightBrace then
          let p := nextToken p in
          if tok_is p TokenEOF then Done None p else Done None p
        else ParseObject_loop fuel' p
  end

(** The [for] of [ParseObject], one iteration per call. *)
with ParseObject_loop (fuel : nat) (p : Parser) : Outcome :=
  match fuel with
  | O => OutOfFuel
  | S fuel' =>
      if negb (tok_is p TokenString) then
        fail ("expected string key, got " ++ Literal (token p)) p
      else
        let p := nextToken p in
        if negb (tok_is p TokenColon) then
          fail ("expected ':', got '" ++ Literal (token p) ++ "'") p
        else
          let p := nextToken p in
          match parseValue fuel' p with
          | OutOfFuel => OutOfFuel
          | Done (Some e) p => fail ("invalid value: " ++ e) p
          | Done None p =>
              if tok_is p TokenRightBrace then
                let p := nextToken p in
                if tok_is p TokenEOF then Done None p else Done None p
              else if negb (tok_is p TokenComma) then
                fail ("expected ',' or '}', got '"
                        ++ Literal (token p) ++ "'") p
              else ParseObject_loop fuel' (nextToken p)
          end
  end.

(** The verdict of [main]: [None] for "Valid JSON", [Some msg] for the
    error that [main] prints after "Invalid JSON: ". *)
Definition verdict (o : Outcome) : option (option string) :=
  match o with
  | OutOfFuel => None
  | Done e _ => Some e
  end.

Definition fuel_for (input : Reader) : nat :=
  3 * List.length (pending input) + 4.

(** [main] from the creation of the lexer to the result of
    [parser.ParseObject()]. *)
Definition Validate (input : Reader) : option (option string) :=
  verdict (ParseObject (fuel_for input) (NewParser (NewLexer input))).
End Parsing.

(** An input stream that delivers the given runes and then ends cleanly. *)
Definition stream (text : list rune) : Reader := mkReader text EOF.

Definition Valid : option (option string) := Some None.
Definition Invalid (msg : string) : option (option string) := Some (Some msg).

(** ** The companion checker [validJSON]

    The operating system as [validJSON] sees it: [os.Open] finds a file or
    reports an error; [Stat], [Seek] and [Read] on the file report the error
    the file carries for them, if any.  [Read] is only ever called with a
    buffer of one byte. *)

Record OSFile := mkOSFile {
  contents : string;
  stat_err : option string;
  seek_err : option string;
  read_err : option string
}.

Definition FileSystem := string -> OSFile + string.

Definition os_Open (fs : FileSystem) (filename : string) : OSFile + string :=
  fs filename.

Definition file_Size (f : OSFile) : Z + string :=
  match stat_err f with
  | Some e => inr e
  | None => inl (Z.of_nat (String.length (contents f)))
  end.

(** [file.Seek(offset, 0)]: the new position. *)
Definition file_Seek (f : OSFile) (offset : Z) : nat + string :=
  match seek_err f with
  | Some e => inr e
  | None =>
      if offset <? 0 then inr "invalid argument" else inl (Z.to_nat offset)
  end.

(** [file.Read(buf)] with [len(buf) = 1] at position [pos]. *)
Definition file_Read (f : OSFile) (pos : nat) : ascii + string :=
  match read_err f with
  | Some e => inr e
  | None =>
      match String.get pos (contents f) with
      | Some b => inl b
      | None => inr "EOF"
      end
  end.

Definition validJSON (fs : FileSystem) (filename : string)
  : bool * option string :=
  match os_Open fs filename with
  | inr e => (false, Some e)
  | inl file =>
      match file_Size file with
      | inr e => (false, Some e)
      | inl size =>
          if size =? 0 then (false, None)
          else
            match file_Read file 0 with
            | inr e => (false, Some e)
            | inl firstChar =>
                if negb (Ascii.eqb firstChar "{") then (false, None)
                else
                  match file_Seek file (size - 1) with
                  | inr e => (false, Some e)
                  | inl pos =>
                      match file_Read file pos with
                      | inr e => (false, Some e)
                      | inl lastChar =>
                          if negb (Ascii.eqb lastChar "}") then (false, None)
                          else (true, None)
                      end
                  end
            end
      end
  end.

(** * Definitions of the specification *)

(** ** Well-formed documents

    The grammar of the specification, on source texts: whitespace is
    space, tab, newline and carriage return; a string holds ordinary
    characters and escapes; a number is
    [-? digit+ (. digit+)? ([eE] [+-]? digit+)?]; objects, members, arrays
    and values follow the EBNF, with whitespace allowed around tokens.  The
    grammar is stated for any choice [ok] of the items a string may hold:
    [item_ok] is the choice of the specification, [json_item] that of
    JSON. *)

Definition ws_rune (c : rune) : bool :=
  existsb (Z.eqb c) [rn " "; 9; 10; 13].

Definition blank (ws : list rune) : Prop := forallb ws_rune ws = true.

(** One element of a string body: an ordinary character, a backslash
    followed by an escape letter, or a backslash, the letter u and four
    hexadecimal digits. *)
Inductive str_item :=
| Plain (c : rune)
| Escaped (x : rune)
| UnicodeEsc (h1 h2 h3 h4 : rune).

Definition escape_letters : list rune :=
  [quote; backslash; rn "/"; rn "b"; rn "f"; rn "n"; rn "r"; rn "t"].

Definition hex_digit (c : rune) : bool :=
  between (rn "0") (rn "9") c || between (rn "a") (rn "f") c
  || between (rn "A") (rn "F") c.

Definition hex_value (c : rune) : Z :=
  if between (rn "0") (rn "9") c then c - rn "0"
  else if between (rn "a") (rn "f") c then c - rn "a" + 10
  else c - rn "A" + 10.

(** The items of the specification: ordinary characters and the eight
    supported escapes. *)
Definition item_ok (i : str_item) : bool :=
  match i with
  | Plain c => (32 <=? c) && negb (c =? quote) && negb (c =? backslash)
  | Escaped x => existsb (Z.eqb x) escape_letters
  | UnicodeEsc _ _ _ _ => false
  end.

(** The items of a JSON string (RFC 8259), which has the unicode escape
    as well. *)
Definition json_item (i : str_item) : bool :=
  match i with
  | Plain c =>
      (32 <=? c) && (c <=? 0x10FFFF) && negb (c =? quote)
      && negb (c =? backslash)
  | Escaped x => existsb (Z.eqb x) escape_letters
  | UnicodeEsc h1 h2 h3 h4 =>
      hex_digit h1 && hex_digit h2 && hex_digit h3 && hex_digit h4
  end.

Definition item_src (i : str_item) : list rune :=
  match i with
  | Plain c => [c]
  | Escaped x => [backslash; x]
  | UnicodeEsc h1 h2 h3 h4 => [backslash; rn "u"; h1; h2; h3; h4]
  end.

(** The character an item stands for: backspace, form feed, newline,
    carriage return and tab for the letters b, f, n, r and t. *)
Definition item_char (i : str_item) : rune :=
  match i with
  | Plain c => c
  | Escaped x =>
      if x =? rn "b" then 8 else if x =? rn "f" then 12
      else if x =? rn "n" then 10 else if x =? rn "r" then 13
      else if x =? rn "t" then 9 else x
  | UnicodeEsc h1 h2 h3 h4 =>
      ((hex_value h1 * 16 + hex_value h2) * 16 + hex_value h3) * 16
      + hex_value h4
  end.

Definition string_src (body : list str_item) : list rune :=
  quote :: flat_map item_src body ++ [quote].

Definition ascii_digit (c : rune) : bool := between (rn "0") (rn "9") c.

Definition digits (ds : list rune) : bool :=
  match ds with
  | [] => false
  | _ => forallb ascii_digit ds
  end.

Record number_lit := mkNumber {
  num_minus : bool;
  num_int : list rune;
  num_frac : option (list rune);
  num_exp : option (rune * option rune * list rune)
}.

Definition number_ok (n : number_lit) : bool :=
  digits (num_int n)
  && match num_frac n with
     | None => true
     | Some f => digits f
     end
  && match num_exp n with
     | None => true
     | Some (ec, sg, ds) =>
         ((ec =? rn "e") || (ec =? rn "E"))
         && match sg with
            | None => true
            | Some s => (s =? rn "+") || (s =? rn "-")
            end
         && digits ds
     end.

Definition frac_src (f : option (list rune)) : list rune :=
  match f with
  | None => []
  | Some ds => rn "." :: ds
  end.

Definition exp_src (x : option (rune * option rune * list rune)) : list rune :=
  match x with
  | None => []
  | Some (ec, sg, ds) =>
      ec :: match sg with None => [] | Some s => [s] end ++ ds
  end.

Definition number_src (n : number_lit) : list rune :=
  (if num_minus n then [rn "-"] else [])
  ++ num_int n ++ frac_src (num_frac n) ++ exp_src (num_exp n).

Inductive wf_value (ok : str_item -> bool) : list rune -> Prop :=
| wf_string body :
    forallb ok body = true -> wf_value ok (string_src body)
| wf_number n : number_ok n = true -> wf_value ok (number_src n)
| wf_true : wf_value ok (src_text "true")
| wf_false : wf_value ok (src_text "false")
| wf_null : wf_value ok (src_text "null")
| wf_value_object t : wf_object ok t -> wf_value ok t
| wf_value_array t : wf_array ok t -> wf_value ok t

with wf_object (ok : str_item -> bool) : list rune -> Prop :=
| wf_object_empty ws : blank ws -> wf_object ok (rn "{" :: ws ++ [rn "}"])
| wf_object_members ms :
    wf_members ok ms -> wf_object ok (rn "{" :: ms ++ [rn "}"])

with wf_members (ok : str_item -> bool) : list rune -> Prop :=
| wf_members_one ws1 key ws2 ws3 v ws4 :
    blank ws1 -> forallb ok key = true -> blank ws2 -> blank ws3 ->
    wf_value ok v -> blank ws4 ->
    wf_members ok (ws1 ++ string_src key ++ ws2 ++ rn ":" :: ws3 ++ v ++ ws4)
| wf_members_more ws1 key ws2 ws3 v ws4 ms :
    blank ws1 -> forallb ok key = true -> blank ws2 -> blank ws3 ->
    wf_value ok v -> blank ws4 -> wf_members ok ms ->
    wf_members ok (ws1 ++ string_src key ++ ws2 ++ rn ":" :: ws3 ++ v ++ ws4
                     ++ rn "," :: ms)

with wf_array (ok : str_item -> bool) : list rune -> Prop :=
| wf_array_empty ws : blank ws -> wf_array ok (rn "[" :: ws ++ [rn "]"])
| wf_array_elements es :
    wf_elements ok es -> wf_array ok (rn "[" :: es ++ [rn "]"])

with wf_elements (ok : str_item -> bool) : list rune -> Prop :=
| wf_elements_one ws1 v ws2 :
    blank ws1 -> wf_value ok v -> blank ws2 -> wf_elements ok (ws1 ++ v ++ ws2)
| wf_elements_more ws1 v ws2 es :
    blank ws1 -> wf_value ok v -> blank ws2 -> wf_elements ok es ->
    wf_elements ok (ws1 ++ v ++ ws2 ++ rn "," :: es).

Scheme wf_value_mut := Minimality for wf_value Sort Prop
  with wf_object_mut := Minimality for wf_object Sort Prop
  with wf_members_mut := Minimality for wf_members Sort Prop
  with wf_array_mut := Minimality for wf_array Sort Prop
  with wf_elements_mut := Minimality for wf_elements Sort Prop.

Combined Scheme wf_mutual from
  wf_value_mut, wf_object_mut, wf_members_mut, wf_array_mut, wf_elements_mut.

(** A document is one object, with whitespace allowed around it. *)
Definition wf_document (ok : str_item -> bool) (t : list rune) : Prop :=
  exists ws1 o ws2,
    blank ws1 /\ wf_object ok o /\ blank ws2 /\ t = ws1 ++ o ++ ws2.

(** What may follow a value inside a document: nothing, whitespace, a
    comma or a closing bracket or brace. *)
Definition delim_rune (c : rune) : bool :=
  ws_rune c || existsb (Z.eqb c) [rn ","; rn "}"; rn "]"].

Definition delimited (t : list rune) : Prop :=
  match t with
  | [] => True
  | c :: _ => delim_rune c = true
  end.

(** ** The first-and-last-byte check and the end of input *)

(** A file on which no operation fails. *)
Definition healthy (bytes : string) : OSFile := mkOSFile bytes None None None.

(** The check in the words of the specification: the file is not empty,
    its first byte is an opening brace and its last byte a closing brace. *)
Definition byte_is (b : ascii) (o : option ascii) : bool :=
  match o with
  | Some a => Ascii.eqb a b
  | None => false
  end.

Definition first_and_last_brace (bytes : string) : bool :=
  negb (Nat.eqb (String.length bytes) 0)
  && byte_is "{" (String.get 0 bytes)
  && byte_is "}" (String.get (String.length bytes - 1) bytes).

Definition EOF_token : Token := mkToken TokenEOF "".

(** [n] successive calls of [NextToken]: the tokens and the final state. *)
Fixpoint NextToken_n `{UnicodeTables} (n : nat) (l : Lexer)
  : list Token * Lexer :=
  match n with
  | O => ([], l)
  | S n' =>
      let '(tok, l1) := NextToken l in
      let '(toks, l2) := NextToken_n n' l1 in
      (tok :: toks, l2)
  end.

Definition tab_char : ascii := byte_of 9.

Definition newline_char : ascii := byte_of 10.

(** The lexer over the text of an empty object, after two calls. *)
Definition after_empty_object : Lexer :=
  snd (@NextToken_n latin1_tables 2 (NewLexer (stream (src_text "{}")))).

(** * Definitions used by the proofs *)

(** ** Lexer states reached from a stream

    [lex_at t e] is the lexer whose current rune is the head of [t], whose
    reader still holds the tail, and which has met no error; at the end of
    the text it holds the zero rune and the reader's error [e]. *)

Definition lex_at (t : list rune) (e : ioerr) : Lexer :=
  match t with
  | [] => mkLexer (mkReader [] e) 0 (Some e)
  | c :: t' => mkLexer (mkReader t' e) c None
  end.

(** The runes the lexer has not consumed yet, the current one included. *)
Definition remaining (l : Lexer) : list rune :=
  if is_nil (err l) then char l :: pending (reader l) else [].

Fixpoint take_while (f : rune -> bool) (t : list rune) : list rune :=
  match t with
  | [] => []
  | c :: t' => if f c then c :: take_while f t' else []
  end.

Fixpoint drop_while (f : rune -> bool) (t : list rune) : list rune :=
  match t with
  | [] => []
  | c :: t' => if f c then drop_while f t' else t
  end.

(** A scanning function is local: started on a text it stops on a suffix
    of it, and as long as that suffix is not empty it does the same when
    more text follows. *)
Definition local {A : Type} (F : Lexer -> A * Lexer) : Prop :=
  forall t e, exists a t',
    F (lex_at t e) = (a, lex_at t' e) /\
    (List.length t' <= List.length t)%nat /\
    (t' <> [] ->
     forall r e', F (lex_at (t ++ r) e') = (a, lex_at (t' ++ r) e')).

Definition head_ok (P : rune -> bool) (t : list rune) : Prop :=
  match t with
  | [] => True
  | c :: _ => P c = true
  end.

Definition is_punct (ty : TokenType) : bool :=
  match ty with
  | TokenLeftBrace | TokenRightBrace | TokenLeftBracket | TokenRightBracket
  | TokenColon | TokenComma => true
  | _ => false
  end.

(** Every token but [TokenError] and [TokenEOF] stands for consumed text. *)
Definition is_real (ty : TokenType) : bool :=
  match ty with
  | TokenError | TokenEOF => false
  | _ => true
  end.

Definition weight (tok : Token) : nat :=
  if is_real (Typ tok) then 1%nat else 0%nat.

(** An outcome that is an answer, leaving at most [bound] runes of text. *)
Definition ends_within (o : Outcome) (e : ioerr) (bound : nat) : Prop :=
  exists res t' tok',
    o = Done res (mkParser (lex_at t' e) tok') /\
    (List.length t' + weight tok' <= bound)%nat.

Section ScanningClasses.
Context {U : UnicodeTables}.

Definition ident_rune (c : rune) : bool :=
  unicode_IsLetter c || (c =? rn "_").

(** What follows the sign and the integer part in [readNumber]. *)
Definition number_tail (acc : list rune) (l : Lexer) : string * Lexer :=
  let '(acc, l) := number_fraction acc l in
  let '(acc, l) := number_exponent acc l in
  (string_of_runes acc, l).

Definition not_digit (c : rune) : bool := negb (unicode_IsDigit c).

(** What may follow each part of a number. *)
Definition after_int (c : rune) : bool := not_digit c.

Definition after_frac (c : rune) : bool := not_digit c && negb (c =? rn ".").

Definition after_exp (c : rune) : bool :=
  not_digit c && negb (c =? rn ".")
  && negb ((c =? rn "e") || (c =? rn "E")).
End ScanningClasses.

(** ** Two runs, one on a text and one on the text followed by [more]

    [follows more e e' p1 p2] relates their parser states: unless the first
    run is starved, the second holds the same token and the same text
    followed by [more]. *)

(** The first run has used up its text and holds no punctuation. *)
Definition starved (e : ioerr) (p : Parser) : Prop :=
  lexer p = lex_at [] e /\ is_punct (Typ (token p)) = false.

Definition follows (more : list rune) (e e' : ioerr) (p1 p2 : Parser)
  : Prop :=
  exists t, lexer p1 = lex_at t e /\
    (starved e p1 \/ (token p2 = token p1 /\ lexer p2 = lex_at (t ++ more) e')).

(** With enough fuel, the method accepts the text up to [after]. *)
Definition accepts `{UnicodeTables} (X : nat -> Parser -> Outcome)
    (text after : list rune) (e : ioerr) : Prop :=
  exists k, forall n, (k <= n)%nat ->
    X n (NewParser (lex_at text e)) = Done None (NewParser (lex_at after e)).

(** * The rest of the code and further definitions *)

(** ** [main] of the grammar checker

    The process as [main] of [main.go] sees it: the arguments [os.Args]
    (the program name first), the standard input, and what [os.Open]
    answers for a path: a stream, or an error. *)

Record Process := mkProcess {
  os_Args : list string;
  os_Stdin : Reader;
  open_file : string -> Reader + string
}.

(** What a run leaves behind: the text written to the standard output and
    to the standard error, and the exit status. *)
Record Run := mkRun { stdout : string; stderr : string; status : Z }.

Definition newline : string := String (byte_of 10) "".

(** The stream [main] reads: the file named by the first argument when
    there is one ([len(os.Args) > 1]), the standard input otherwise. *)
Definition main_input (w : Process) : Reader + string :=
  match os_Args w with
  | _ :: path :: _ => open_file w path
  | _ => inl (os_Stdin w)
  end.

(** [main] of [main.go]; [None] only if the parser ran out of fuel. *)
Definition main `{UnicodeTables} (w : Process) : option Run :=
  match main_input w with
  | inr e => Some (mkRun "" ("Error opening file: " ++ e ++ newline) 1)
  | inl input =>
      match ParseObject (fuel_for input) (NewParser (NewLexer input)) with
      | OutOfFuel => None
      | Done (Some e) _ =>
          Some (mkRun "" ("Invalid JSON: " ++ e ++ newline) 1)
      | Done None _ => Some (mkRun ("Valid JSON" ++ newline) "" 0)
      end
  end.

(** ** [main] of the first-and-last-byte checker

    [main] first calls [flag.Parse], which belongs to the Go library and
    either ends the process itself (an undefined flag, a flag without its
    value, [-h]), or returns with the value of the [-file] flag.
    [main_validJSON] is [main] from there on: [filename] is the value of
    the [-file] flag once [flag.Parse] has returned; a [return] from
    [main] ends the process with status 0. *)
Definition main_validJSON (fs : FileSystem) (filename : string) : Run :=
  if String.eqb filename "" then
    mkRun ("Please provide a file with -file flag" ++ newline) "" 0
  else
    match validJSON fs filename with
    | (_, Some e) => mkRun ("Error processing file: " ++ e ++ newline) "" 0
    | (true, None) => mkRun "" "" 0
    | (false, None) => mkRun "" "" 1
    end.

(** What [flag.Parse] does with the command line: it ends the process,
    leaving the run [r], or it returns with the value of [-file]. *)
Inductive FlagOutcome :=
| flag_exit (r : Run)
| flag_file (filename : string).

(** The whole of [main]: [flag.Parse], then the code of the checker. *)
Definition checker_main (parsed : FlagOutcome) (fs : FileSystem) : Run :=
  match parsed with
  | flag_exit r => r
  | flag_file filename => main_validJSON fs filename
  end.

(** ** The grammar on tokens

    The EBNF of the parser read on token kinds. *)

Inductive tok_value : list TokenType -> Prop :=
| tok_string : tok_value [TokenString]
| tok_number : tok_value [TokenNumber]
| tok_boolean : tok_value [TokenBoolean]
| tok_null : tok_value [TokenNull]
| tok_value_object ts : tok_object ts -> tok_value ts
| tok_value_array ts : tok_array ts -> tok_value ts

with tok_object : list TokenType -> Prop :=
| tok_object_empty : tok_object [TokenLeftBrace; TokenRightBrace]
| tok_object_members ms :
    tok_members ms -> tok_object (TokenLeftBrace :: ms ++ [TokenRightBrace])

with tok_members : list TokenType -> Prop :=
| tok_members_one v :
    tok_value v -> tok_members (TokenString :: TokenColon :: v)
| tok_members_more v ms :
    tok_value v -> tok_members ms ->
    tok_members (TokenString :: TokenColon :: v ++ TokenComma :: ms)

with tok_array : list TokenType -> Prop :=
| tok_array_empty : tok_array [TokenLeftBracket; TokenRightBracket]
| tok_array_elements es :
    tok_elements es ->
    tok_array (TokenLeftBracket :: es ++ [TokenRightBracket])

with tok_elements : list TokenType -> Prop :=
| tok_elements_one v : tok_value v -> tok_elements v
| tok_elements_more v es :
    tok_value v -> tok_elements es -> tok_elements (v ++ TokenComma :: es).

(** The parser after [k] calls of [nextToken], and the kinds of the [k]
    tokens it has moved past. *)
Fixpoint advance `{UnicodeTables} (k : nat) (p : Parser) : Parser :=
  match k with
  | O => p
  | S k' => advance k' (nextToken p)
  end.

Fixpoint consumed `{UnicodeTables} (k : nat) (p : Parser) : list TokenType :=
  match k with
  | O => []
  | S k' => Typ (token p) :: consumed k' (nextToken p)
  end.

(** ** The error messages of [ParseObject] *)

Definition error_forms : list string :=
  ["expected '{', got '"; "expected string key, got "; "expected ':', got '";
   "invalid value: "; "expected ',' or '}', got '"].

Definition has_error_form (msg : string) : bool :=
  existsb (fun f => String.prefix f msg) error_forms.

(** ** Texts that a string literal can stand for *)

(** The characters a String token can hold: those from U+0020 on, and
    backspace, tab, newline, form feed and carriage return. *)
Definition representable (r : rune) : bool :=
  (32 <=? r) || existsb (Z.eqb r) [8; 9; 10; 12; 13].

(** The way to write a character inside a string literal. *)
Definition encode_rune (r : rune) : str_item :=
  if (r =? quote) || (r =? backslash) then Escaped r
  else if r =? 8 then Escaped (rn "b")
  else if r =? 12 then Escaped (rn "f")
  else if r =? 10 then Escaped (rn "n")
  else if r =? 13 then Escaped (rn "r")
  else if r =? 9 then Escaped (rn "t")
  else Plain r.

(** The token kinds that cannot start a value. *)
Definition starts_no_value (ty : TokenType) : bool :=
  match ty with
  | TokenString | TokenNumber | TokenBoolean | TokenNull
  | TokenLeftBrace | TokenLeftBracket => false
  | _ => true
  end.

(** ** Runes and numbers as the lexer sees them *)

(** The runes on which [NextToken] takes its [default] branch. *)
Definition unrecognized `{UnicodeTables} (c : rune) : bool :=
  negb (is_space c)
  && negb (existsb (Z.eqb c)
             [rn "{"; rn "}"; rn "["; rn "]"; rn ":"; rn ","; quote])
  && negb (unicode_IsDigit c || (c =? rn "-"))
  && negb (unicode_IsLetter c).

Definition all_digits `{UnicodeTables} (ds : list rune) : Prop :=
  forallb unicode_IsDigit ds = true.

(** The shape of every Number literal: an optional minus sign, digits, an
    optional point with digits, an optional exponent letter with an
    optional sign and digits; every run of digits may be empty. *)
Definition number_shape `{UnicodeTables} (pre : list rune) : Prop :=
  exists sign int frac exp,
    pre = sign ++ int ++ frac ++ exp /\
    (sign = [] \/ sign = [rn "-"]) /\
    all_digits int /\
    (frac = [] \/ exists fd, frac = rn "." :: fd /\ all_digits fd) /\
    (exp = [] \/
     exists ec sg xd,
       exp = ec :: sg ++ xd /\ (ec = rn "e" \/ ec = rn "E") /\
       (sg = [] \/ sg = [rn "+"] \/ sg = [rn "-"]) /\ all_digits xd).

(** Tables in which the Arabic-Indic digits (U+0660 to U+0669) are digits,
    as they are in Unicode. *)
Definition arabic_tables : UnicodeTables :=
  {| digitTable := between 0x660 0x669; letterTable := fun _ => false |}.

(** A file on which no operation fails. *)
Definition no_fault (f : OSFile) : Prop :=
  stat_err f = None /\ seek_err f = None /\ read_err f = None.

(** The token kinds that are a value on their own. *)
Definition scalar (ty : TokenType) : bool :=
  match ty with
  | TokenString | TokenNumber | TokenBoolean | TokenNull => true
  | _ => false
  end.

(** ** The parser along a token sequence *)

Scheme tok_value_mut := Minimality for tok_value Sort Prop
  with tok_object_mut := Minimality for tok_object Sort Prop
  with tok_members_mut := Minimality for tok_members Sort Prop
  with tok_array_mut := Minimality for tok_array Sort Prop
  with tok_elements_mut := Minimality for tok_elements Sort Prop.

Combined Scheme tok_mutual from
  tok_value_mut, tok_object_mut, tok_members_mut, tok_array_mut,
  tok_elements_mut.

(** [reads p ts q]: from [p] the parser moves past tokens of the kinds
    [ts], one call of [nextToken] each, and is then in [q]. *)
Fixpoint reads `{UnicodeTables} (p : Parser) (ts : list TokenType)
    (q : Parser) : Prop :=
  match ts with
  | [] => q = p
  | ty :: ts' => Typ (token p) = ty /\ reads (nextToken p) ts' q
  end.

(** [X] answers without error, in state [q], from some fuel on. *)
Definition succeeds (X : nat -> Parser -> Outcome) (p q : Parser) : Prop :=
  exists n0, forall n, (n0 <= n)%nat -> X n p = Done None q.

(** * Lemmas and theorems *)

(** Replace every rune literal by its code point. *)
Ltac rn_norm :=
  repeat match goal with
  | |- context [rn ?a] =>
      let v := eval vm_compute in (rn a) in change (rn a) with v
  | H : context [rn ?a] |- _ =>
      let v := eval vm_compute in (rn a) in change (rn a) with v in H
  end;
  change quote with 34 in *; change backslash with 92 in *;
  change MaxLatin1 with 255 in *.

(** Decide the comparisons of a rune with constants from linear facts. *)
Ltac eqb_lia :=
  repeat match goal with
  | |- context [?c =? ?k] =>
      first [ rewrite (proj2 (Z.eqb_neq c k)) by lia
            | rewrite (proj2 (Z.eqb_eq c k)) by lia ]
  | |- context [?c <? ?k] =>
      first [ rewrite (proj2 (Z.ltb_ge c k)) by lia
            | rewrite (proj2 (Z.ltb_lt c k)) by lia ]
  | |- context [?c <=? ?k] =>
      first [ rewrite (proj2 (Z.leb_gt c k)) by lia
            | rewrite (proj2 (Z.leb_le c k)) by lia ]
  end.

Ltac norm_app := repeat (rewrite <- app_assoc || rewrite <- app_comm_cons).

(** ** Lexer states on texts *)

Lemma NewLexer_lex_at t e : NewLexer (mkReader t e) = lex_at t e.
Proof. destruct t; reflexivity. Qed.

Lemma remaining_lex_at t e : remaining (lex_at t e) = t.
Proof. destruct t; reflexivity. Qed.

Lemma lex_at_inj t t' e : lex_at t e = lex_at t' e -> t = t'.
Proof.
  intros E. rewrite <- (remaining_lex_at t e), E. apply remaining_lex_at.
Qed.

Lemma readChar_cons c t e : readChar (lex_at (c :: t) e) = lex_at t e.
Proof. destruct t; reflexivity. Qed.

Lemma readChar_nil e : readChar (lex_at [] e) = lex_at [] e.
Proof. reflexivity. Qed.

Lemma budget_lex_at t e : (List.length t <= budget (lex_at t e))%nat.
Proof. destruct t; unfold budget; simpl; lia. Qed.

Lemma char_lex_at_cons c t e : char (lex_at (c :: t) e) = c.
Proof. reflexivity. Qed.

Lemma err_lex_at_cons c t e : err (lex_at (c :: t) e) = None.
Proof. reflexivity. Qed.

Lemma drop_while_length f t :
  (List.length (drop_while f t) <= List.length t)%nat.
Proof.
  induction t as [|c t IH]; simpl; [lia|].
  destruct (f c); simpl; lia.
Qed.

Lemma drop_while_app f t r :
  drop_while f t <> [] -> drop_while f (t ++ r) = drop_while f t ++ r.
Proof.
  induction t as [|c t IH]; simpl; [congruence|].
  destruct (f c); auto.
Qed.

Lemma take_while_app f t r :
  drop_while f t <> [] -> take_while f (t ++ r) = take_while f t.
Proof.
  induction t as [|c t IH]; simpl; [congruence|].
  destruct (f c); auto. intros H. f_equal. auto.
Qed.

Lemma take_drop_while f t : take_while f t ++ drop_while f t = t.
Proof.
  induction t as [|c t IH]; simpl; [reflexivity|].
  destruct (f c); simpl; congruence.
Qed.

(** *** The loops on texts *)

Lemma skipWhitespace_loop_at t : forall n e,
  (List.length t <= n)%nat ->
  skipWhitespace_loop n (lex_at t e) = lex_at (drop_while is_space t) e.
Proof.
  induction t as [|c t IH]; intros n e Hn.
  - destruct n; reflexivity.
  - destruct n as [|n]; [simpl in Hn; lia|].
    cbn [skipWhitespace_loop drop_while]. rewrite char_lex_at_cons.
    destruct (is_space c); [|reflexivity].
    rewrite readChar_cons. apply IH. simpl in Hn. lia.
Qed.

Lemma skipWhitespace_at t e :
  skipWhitespace (lex_at t e) = lex_at (drop_while is_space t) e.
Proof. apply skipWhitespace_loop_at, budget_lex_at. Qed.

Section LexerFacts.
Context {U : UnicodeTables}.

Lemma readDigits_at t : forall n acc e,
  (List.length t <= n)%nat ->
  readDigits n acc (lex_at t e) =
  (acc ++ take_while unicode_IsDigit t,
   lex_at (drop_while unicode_IsDigit t) e).
Proof.
  induction t as [|c t IH]; intros n acc e Hn.
  - destruct n; simpl; rewrite app_nil_r; reflexivity.
  - destruct n as [|n]; [simpl in Hn; lia|].
    cbn [readDigits take_while drop_while].
    rewrite char_lex_at_cons, err_lex_at_cons. cbn [is_nil andb].
    destruct (unicode_IsDigit c).
    + rewrite readChar_cons, IH by (simpl in Hn; lia).
      rewrite <- app_assoc. reflexivity.
    + rewrite app_nil_r. reflexivity.
Qed.

Lemma readIdentifier_loop_at t : forall n acc e,
  (List.length t <= n)%nat ->
  readIdentifier_loop n acc (lex_at t e) =
  (acc ++ take_while ident_rune t, lex_at (drop_while ident_rune t) e).
Proof.
  induction t as [|c t IH]; intros n acc e Hn.
  - destruct n; simpl; rewrite app_nil_r; reflexivity.
  - destruct n as [|n]; [simpl in Hn; lia|].
    cbn [readIdentifier_loop take_while drop_while].
    rewrite char_lex_at_cons, err_lex_at_cons. cbn [is_nil andb].
    fold (ident_rune c).
    destruct (ident_rune c).
    + rewrite readChar_cons, IH by (simpl in Hn; lia).
      rewrite <- app_assoc. reflexivity.
    + rewrite app_nil_r. reflexivity.
Qed.

Lemma readIdentifier_at t e :
  readIdentifier (lex_at t e) =
  (string_of_runes (take_while ident_rune t),
   lex_at (drop_while ident_rune t) e).
Proof.
  unfold readIdentifier.
  rewrite readIdentifier_loop_at by apply budget_lex_at. reflexivity.
Qed.
End LexerFacts.

(** *** Locality of the scanning functions *)

Lemma local_bind {A B : Type} (F : Lexer -> A * Lexer)
    (G : A -> Lexer -> B * Lexer) :
  local F -> (forall a, local (G a)) ->
  local (fun l => let '(a, l') := F l in G a l').
Proof.
  intros HF HG t e.
  destruct (HF t e) as (a & t1 & E1 & L1 & X1).
  destruct (HG a t1 e) as (b & t2 & E2 & L2 & X2).
  exists b, t2. rewrite E1, E2. split; [reflexivity|]. split; [lia|].
  intros Hne r e'.
  assert (t1 <> []) as Hne1.
  { destruct t1; [destruct t2; simpl in *; [congruence|lia]|congruence]. }
  rewrite X1 by assumption. apply X2. assumption.
Qed.

Section Locality.
Context {U : UnicodeTables}.

Lemma local_readDigits acc : local (fun l => readDigits (budget l) acc l).
Proof.
  intros t e. eexists _, _. split; [apply readDigits_at, budget_lex_at|].
  split; [apply drop_while_length|].
  intros Hne r e'. rewrite readDigits_at by apply budget_lex_at.
  rewrite take_while_app, drop_while_app by assumption. reflexivity.
Qed.

Lemma local_number_sign : local number_sign.
Proof.
  intros [|c t] e; unfold number_sign.
  - exists [], []. split; [reflexivity|]. split; [lia|]. congruence.
  - rewrite char_lex_at_cons. destruct (c =? rn "-") eqn:Hc.
    + exists [c], t. rewrite readChar_cons. split; [reflexivity|].
      split; [simpl; lia|]. intros _ r e'. simpl app.
      rewrite char_lex_at_cons, Hc, readChar_cons. reflexivity.
    + exists [], (c :: t). split; [reflexivity|]. split; [lia|].
      intros _ r e'. simpl app. rewrite char_lex_at_cons, Hc. reflexivity.
Qed.

Lemma local_number_integer acc : local (number_integer acc).
Proof. apply local_readDigits. Qed.

Lemma local_number_fraction acc : local (number_fraction acc).
Proof.
  intros [|c t] e; unfold number_fraction.
  - exists acc, []. split; [reflexivity|]. split; [lia|]. congruence.
  - rewrite char_lex_at_cons. destruct (c =? rn ".") eqn:Hc.
    + cbv zeta. rewrite readChar_cons.
      destruct (local_readDigits (acc ++ [c]) t e) as (a & t' & E & L & X).
      exists a, t'. split; [exact E|]. split; [simpl; lia|].
      intros Hne r e'. simpl app.
      rewrite char_lex_at_cons, Hc, readChar_cons. apply X, Hne.
    + exists acc, (c :: t). split; [reflexivity|]. split; [lia|].
      intros _ r e'. simpl app. rewrite char_lex_at_cons, Hc. reflexivity.
Qed.

Lemma local_number_exponent acc : local (number_exponent acc).
Proof.
  intros [|c t] e; unfold number_exponent.
  - exists acc, []. split; [reflexivity|]. split; [lia|]. congruence.
  - rewrite char_lex_at_cons.
    destruct ((c =? rn "e") || (c =? rn "E")) eqn:Hc.
    + cbv zeta. rewrite readChar_cons.
      destruct t as [|s t].
      * eexists _, []. split; [reflexivity|]. split; [simpl; lia|]. congruence.
      * rewrite char_lex_at_cons.
        destruct ((s =? rn "+") || (s =? rn "-")) eqn:Hs.
        -- rewrite readChar_cons.
           destruct (local_readDigits ((acc ++ [c]) ++ [s]) t e)
             as (a & t' & E & L & X).
           exists a, t'. split; [exact E|]. split; [simpl; lia|].
           intros Hne r e'. simpl app.
           rewrite char_lex_at_cons, Hc, readChar_cons.
           rewrite char_lex_at_cons, Hs, readChar_cons. apply X, Hne.
        -- destruct (local_readDigits (acc ++ [c]) (s :: t) e)
             as (a & t' & E & L & X).
           exists a, t'. split; [exact E|]. split; [simpl in *; lia|].
           intros Hne r e'. simpl app.
           rewrite char_lex_at_cons, Hc, readChar_cons.
           rewrite char_lex_at_cons, Hs. apply (X Hne r e').
    + exists acc, (c :: t). split; [reflexivity|]. split; [lia|].
      intros _ r e'. simpl app. rewrite char_lex_at_cons, Hc. reflexivity.
Qed.

Lemma local_number_tail acc : local (number_tail acc).
Proof.
  unfold number_tail.
  apply (local_bind (number_fraction acc)
           (fun a l => let '(acc, l) := number_exponent a l in
                       (string_of_runes acc, l))).
  - apply local_number_fraction.
  - intros a.
    apply (local_bind (number_exponent a)
             (fun a l => (string_of_runes a, l))).
    + apply local_number_exponent.
    + intros b t e. exists (string_of_runes b), t.
      split; [reflexivity|]. split; [lia|]. reflexivity.
Qed.

Lemma readNumber_tail l :
  readNumber l =
  let '(acc, l) := number_sign l in
  let '(acc, l) := number_integer acc l in
  number_tail acc l.
Proof. reflexivity. Qed.

Lemma local_readNumber : local readNumber.
Proof.
  apply (local_bind number_sign
           (fun a l => let '(acc, l) := number_integer a l in
                       number_tail acc l)).
  - apply local_number_sign.
  - intros a. apply (local_bind (number_integer a) number_tail).
    + apply local_number_integer.
    + apply local_number_tail.
Qed.
End Locality.

(** *** String scanning on texts *)

Lemma readString_loop_S n acc l :
  readString_loop (S n) acc l =
  if negb (char l =? quote) && is_nil (err l) then
    if char l =? backslash then
      match escape (char (readChar l)) with
      | Some r => readString_loop n (acc ++ [r]) (readChar (readChar l))
      | None =>
          (Err ("invalid escape sequence: \" ++ utf8_rune (char (readChar l))),
           readChar l)
      end
    else if char l <? 32 then
      (Err ("invalid control character in string: " ++ fmt_d (char l)), l)
    else readString_loop n (acc ++ [char l]) (readChar l)
  else readString_end acc l.
Proof. reflexivity. Qed.

Lemma readString_loop_nil n acc e :
  readString_loop n acc (lex_at [] e) = readString_end acc (lex_at [] e).
Proof. destruct n; reflexivity. Qed.

Lemma readString_end_nil acc e :
  exists res, readString_end acc (lex_at [] e) = (res, lex_at [] e).
Proof. destruct e; eexists; reflexivity. Qed.

Lemma readString_loop_local n : forall t acc e,
  (List.length t <= n)%nat ->
  exists res t',
    readString_loop n acc (lex_at t e) = (res, lex_at t' e) /\
    (List.length t' <= List.length t)%nat /\
    (t' <> [] -> forall r e' m, (List.length (t ++ r) <= m)%nat ->
       readString_loop m acc (lex_at (t ++ r) e') = (res, lex_at (t' ++ r) e')).
Proof.
  induction n as [|n IH]; intros t acc e Hn.
  - destruct t; [|simpl in Hn; lia].
    rewrite readString_loop_nil.
    destruct (readString_end_nil acc e) as (res & E).
    exists res, []. split; [exact E|]. split; [lia|]. congruence.
  - destruct t as [|c t1].
    + rewrite readString_loop_nil.
      destruct (readString_end_nil acc e) as (res & E).
      exists res, []. split; [exact E|]. split; [lia|]. congruence.
    + rewrite readString_loop_S, char_lex_at_cons, err_lex_at_cons.
      cbn [is_nil]. rewrite andb_true_r.
      destruct (c =? quote) eqn:Hq; cbn [negb].
      { exists (Ok (string_of_runes acc)), t1.
        unfold readString_end at 1. rewrite err_lex_at_cons, readChar_cons.
        split; [reflexivity|]. split; [simpl; lia|].
        intros _ r e' m Hm. destruct m as [|m]; [simpl in Hm; lia|].
        simpl app. rewrite readString_loop_S, char_lex_at_cons, Hq.
        cbn [negb andb]. unfold readString_end.
        rewrite err_lex_at_cons, readChar_cons. reflexivity. }
      destruct (c =? backslash) eqn:Hb.
      { rewrite readChar_cons. destruct t1 as [|x t2].
        { eexists _, []. split; [reflexivity|]. split; [simpl; lia|].
          congruence. }
        rewrite char_lex_at_cons, readChar_cons.
        destruct (escape x) as [r0|] eqn:Hx.
        - destruct (IH t2 (acc ++ [r0]) e) as (res & t' & E & L & X);
            [simpl in Hn; lia|].
          exists res, t'. split; [exact E|]. split; [simpl; lia|].
          intros Hne r e' m Hm. destruct m as [|m]; [simpl in Hm; lia|].
          simpl app.
          rewrite readString_loop_S, char_lex_at_cons, err_lex_at_cons, Hq, Hb.
          cbn [negb andb is_nil].
          rewrite readChar_cons, char_lex_at_cons, Hx, readChar_cons.
          apply X; [exact Hne|]. simpl in Hm. lia.
        - eexists _, (x :: t2). split; [reflexivity|]. split; [simpl; lia|].
          intros _ r e' m Hm. destruct m as [|m]; [simpl in Hm; lia|].
          simpl app.
          rewrite readString_loop_S, char_lex_at_cons, err_lex_at_cons, Hq, Hb.
          cbn [negb andb is_nil]. rewrite readChar_cons, char_lex_at_cons, Hx.
          reflexivity. }
      destruct (c <? 32) eqn:Hc.
      { eexists _, (c :: t1). split; [reflexivity|]. split; [lia|].
        intros _ r e' m Hm. destruct m as [|m]; [simpl in Hm; lia|].
        simpl app.
        rewrite readString_loop_S, char_lex_at_cons, err_lex_at_cons.
        rewrite Hq, Hb, Hc.
        reflexivity. }
      rewrite readChar_cons.
      destruct (IH t1 (acc ++ [c]) e) as (res & t' & E & L & X);
        [simpl in Hn; lia|].
      exists res, t'. split; [exact E|]. split; [simpl; lia|].
      intros Hne r e' m Hm. destruct m as [|m]; [simpl in Hm; lia|].
      simpl app.
      rewrite readString_loop_S, char_lex_at_cons, err_lex_at_cons, Hq, Hb, Hc.
      cbn [negb andb is_nil]. rewrite readChar_cons.
      apply X; [exact Hne|]. simpl in Hm. lia.
Qed.

(** [readString] is called on the opening quote, which it skips. *)
Lemma readString_local c t e :
  exists res t',
    readString (lex_at (c :: t) e) = (res, lex_at t' e) /\
    (List.length t' <= List.length t)%nat /\
    (t' <> [] -> forall r e',
       readString (lex_at (c :: t ++ r) e') = (res, lex_at (t' ++ r) e')).
Proof.
  unfold readString. rewrite readChar_cons.
  destruct (readString_loop_local (budget (lex_at t e)) t [] e)
    as (res & t' & E & L & X); [apply budget_lex_at|].
  exists res, t'. split; [exact E|]. split; [exact L|].
  intros Hne r e'. rewrite readChar_cons. apply X; [exact Hne|].
  apply budget_lex_at.
Qed.

(** ** The loops of the lexer

    Each scanning loop, started with the counter [budget l], satisfies the
    equation of the [for] loop it stands for, on every lexer state: the
    counter never cuts a loop short. *)

Lemma skipWhitespace_unfold l :
  skipWhitespace l =
  if is_space (char l) then skipWhitespace (readChar l) else l.
Proof.
  destruct l as [[p en] c er]. unfold skipWhitespace, budget.
  cbn [reader pending List.length skipWhitespace_loop char].
  destruct (is_space c); [|reflexivity].
  destruct p as [|d p]; reflexivity.
Qed.

Lemma readString_loop_err n acc l :
  is_nil (err l) = false -> readString_loop n acc l = readString_end acc l.
Proof.
  intros H. destruct n as [|n]; [reflexivity|].
  rewrite readString_loop_S, H, andb_false_r. reflexivity.
Qed.

Lemma readString_loop_fuel n : forall m acc l,
  (budget l <= n)%nat -> (budget l <= m)%nat ->
  readString_loop n acc l = readString_loop m acc l.
Proof.
  induction n as [|n IH]; intros m acc l Hn Hm;
    [unfold budget in Hn; lia|].
  destruct m as [|m]; [unfold budget in Hm; lia|].
  rewrite !readString_loop_S.
  destruct (negb (char l =? quote) && is_nil (err l)); [|reflexivity].
  destruct l as [[p en] c er]. unfold budget in Hn, Hm.
  cbn [reader pending char err] in *.
  destruct p as [|d p].
  - destruct (c =? backslash); [reflexivity|].
    destruct (c <? 32); [reflexivity|].
    rewrite !readString_loop_err by reflexivity. reflexivity.
  - destruct (c =? backslash).
    + change (readChar (mkLexer (mkReader (d :: p) en) c er))
        with (mkLexer (mkReader p en) d er). cbn [char].
      destruct (escape d); [|reflexivity].
      destruct p as [|d2 p].
      * rewrite !readString_loop_err by reflexivity. reflexivity.
      * apply IH; unfold budget; simpl in *; lia.
    + destruct (c <? 32); [reflexivity|].
      apply IH; unfold budget; simpl in *; lia.
Qed.

Lemma readString_loop_unfold acc l :
  readString_loop (budget l) acc l =
  if negb (char l =? quote) && is_nil (err l) then
    if char l =? backslash then
      match escape (char (readChar l)) with
      | Some r =>
          readString_loop (budget (readChar (readChar l))) (acc ++ [r])
            (readChar (readChar l))
      | None =>
          (Err ("invalid escape sequence: \" ++ utf8_rune (char (readChar l))),
           readChar l)
      end
    else if char l <? 32 then
      (Err ("invalid control character in string: " ++ fmt_d (char l)), l)
    else readString_loop (budget (readChar l)) (acc ++ [char l]) (readChar l)
  else readString_end acc l.
Proof.
  unfold budget at 1. rewrite readString_loop_S.
  destruct (negb (char l =? quote) && is_nil (err l)); [|reflexivity].
  destruct l as [[p en] c er]. cbn [reader pending char err].
  destruct p as [|d p].
  - destruct (c =? backslash); [reflexivity|].
    destruct (c <? 32); [reflexivity|].
    rewrite !readString_loop_err by reflexivity. reflexivity.
  - destruct (c =? backslash).
    + change (readChar (mkLexer (mkReader (d :: p) en) c er))
        with (mkLexer (mkReader p en) d er). cbn [char].
      destruct (escape d); [|reflexivity].
      destruct p as [|d2 p].
      * rewrite !readString_loop_err by reflexivity. reflexivity.
      * apply readString_loop_fuel; unfold budget; simpl; lia.
    + destruct (c <? 32); reflexivity.
Qed.

Section LoopEquations.
Context {U : UnicodeTables}.

Lemma readDigits_unfold acc l :
  readDigits (budget l) acc l =
  if is_nil (err l) && unicode_IsDigit (char l)
  then readDigits (budget (readChar l)) (acc ++ [char l]) (readChar l)
  else (acc, l).
Proof.
  destruct l as [[p en] c er]. unfold budget at 1.
  cbn [reader pending List.length readDigits char err].
  destruct (is_nil er && unicode_IsDigit c); [|reflexivity].
  destruct p as [|d p]; reflexivity.
Qed.

Lemma readIdentifier_loop_unfold acc l :
  readIdentifier_loop (budget l) acc l =
  if is_nil (err l) && (unicode_IsLetter (char l) || (char l =? rn "_"))
  then readIdentifier_loop (budget (readChar l)) (acc ++ [char l]) (readChar l)
  else (acc, l).
Proof.
  destruct l as [[p en] c er]. unfold budget at 1.
  cbn [reader pending List.length readIdentifier_loop char err].
  destruct (is_nil er && (unicode_IsLetter c || (c =? rn "_")));
    [|reflexivity].
  destruct p as [|d p]; reflexivity.
Qed.
End LoopEquations.

(** *** [NextToken] on texts *)

Lemma drop_while_idem f t : drop_while f (drop_while f t) = drop_while f t.
Proof.
  induction t as [|c t IH]; simpl; [reflexivity|].
  destruct (f c) eqn:Hc; [exact IH|]. simpl. rewrite Hc. reflexivity.
Qed.

Lemma drop_while_head f t c t' : drop_while f t = c :: t' -> f c = false.
Proof.
  induction t as [|d t IH]; simpl; [discriminate|].
  destruct (f d) eqn:Hd; [exact IH|]. intros E. congruence.
Qed.

Section NextTokenFacts.
Context {U : UnicodeTables}.

Lemma NextToken_skip t e :
  NextToken (lex_at t e) = NextToken (lex_at (drop_while is_space t) e).
Proof.
  unfold NextToken. rewrite !skipWhitespace_at, drop_while_idem. reflexivity.
Qed.

Lemma NextToken_nil e :
  NextToken (lex_at [] e) =
  (match e with
   | EOF => mkToken TokenEOF ""
   | ReadFault => mkToken TokenError (utf8_rune 0)
   end, lex_at [] e).
Proof. destruct e; reflexivity. Qed.

(** The [switch] of [NextToken], on a current rune that is no whitespace. *)
Lemma NextToken_cons c t e :
  is_space c = false ->
  NextToken (lex_at (c :: t) e) =
  if c =? rn "{" then (mkToken TokenLeftBrace (utf8_rune c), lex_at t e)
  else if c =? rn "}" then (mkToken TokenRightBrace (utf8_rune c), lex_at t e)
  else if c =? rn "[" then (mkToken TokenLeftBracket (utf8_rune c), lex_at t e)
  else if c =? rn "]" then (mkToken TokenRightBracket (utf8_rune c), lex_at t e)
  else if c =? rn ":" then (mkToken TokenColon (utf8_rune c), lex_at t e)
  else if c =? rn "," then (mkToken TokenComma (utf8_rune c), lex_at t e)
  else if c =? quote then
    match readString (lex_at (c :: t) e) with
    | (Err msg, l') => (mkToken TokenError msg, l')
    | (Ok str, l') => (mkToken TokenString str, l')
    end
  else if unicode_IsDigit c || (c =? rn "-") then
    let '(number, l') := readNumber (lex_at (c :: t) e) in
    (mkToken TokenNumber number, l')
  else if unicode_IsLetter c then
    let '(identifier, l') := readIdentifier (lex_at (c :: t) e) in
    (keyword identifier, l')
  else (mkToken TokenError (utf8_rune c), lex_at (c :: t) e).
Proof.
  intros Hsp. unfold NextToken. rewrite skipWhitespace_at.
  cbn [drop_while]. rewrite Hsp. cbv zeta.
  rewrite err_lex_at_cons, !char_lex_at_cons, !readChar_cons.
  reflexivity.
Qed.

Lemma keyword_not_punct s : is_punct (Typ (keyword s)) = false.
Proof.
  unfold keyword.
  destruct (String.eqb s "true" || String.eqb s "false"); [reflexivity|].
  destruct (String.eqb s "null"); reflexivity.
Qed.

(** A number starts on a digit or a minus sign, which [readNumber]
    consumes. *)
Lemma readNumber_local_cons c t e :
  unicode_IsDigit c || (c =? rn "-") = true ->
  exists a t',
    readNumber (lex_at (c :: t) e) = (a, lex_at t' e) /\
    (List.length t' <= List.length t)%nat /\
    (t' <> [] -> forall r e',
       readNumber (lex_at (c :: t ++ r) e') = (a, lex_at (t' ++ r) e')).
Proof.
  intros Hc.
  destruct (local_readNumber (c :: t) e) as (a & t' & E & _ & X).
  exists a, t'. split; [exact E|]. split; [|exact X].
  revert E. rewrite readNumber_tail. unfold number_sign.
  rewrite char_lex_at_cons.
  destruct (c =? rn "-") eqn:Hm.
  - rewrite readChar_cons.
    destruct (local_number_integer [c] t e) as (a2 & t2 & E2 & L2 & _).
    rewrite E2.
    destruct (local_number_tail a2 t2 e) as (a3 & t3 & E3 & L3 & _).
    rewrite E3. intros E. injection E as _ E. apply lex_at_inj in E.
    subst t3. lia.
  - rewrite orb_false_r in Hc. unfold number_integer.
    rewrite readDigits_at by apply budget_lex_at.
    cbn [drop_while take_while]. rewrite Hc.
    destruct (local_number_tail ([] ++ c :: take_while unicode_IsDigit t)
                (drop_while unicode_IsDigit t) e) as (a3 & t3 & E3 & L3 & _).
    rewrite E3. intros E. injection E as _ E. apply lex_at_inj in E.
    subst t3. pose proof (drop_while_length unicode_IsDigit t). lia.
Qed.

Lemma NextToken_local_head c t e :
  is_space c = false ->
  exists tok t',
    NextToken (lex_at (c :: t) e) = (tok, lex_at t' e) /\
    (List.length t' <= List.length (c :: t))%nat /\
    (is_real (Typ tok) = true -> (List.length t' <= List.length t)%nat) /\
    (t' <> [] \/ is_punct (Typ tok) = true -> forall r e',
       NextToken (lex_at (c :: t ++ r) e') = (tok, lex_at (t' ++ r) e')).
Proof.
  intros Hsp.
  assert (forall ty,
     exists tok t',
      (mkToken ty (utf8_rune c), lex_at t e) = (tok, lex_at t' e) /\
      (List.length t' <= List.length (c :: t))%nat /\
      (is_real (Typ tok) = true -> (List.length t' <= List.length t)%nat) /\
      (t' <> [] \/ is_punct (Typ tok) = true -> forall r e',
         (mkToken ty (utf8_rune c), lex_at (t ++ r) e') =
         (tok, lex_at (t' ++ r) e'))) as Hpunct.
  { intros ty. eexists _, t. split; [reflexivity|].
    split; [simpl; lia|]. split; [lia|]. reflexivity. }
  rewrite NextToken_cons by assumption.
  setoid_rewrite NextToken_cons; [|assumption..].
  destruct (c =? rn "{"); [apply Hpunct|].
  destruct (c =? rn "}"); [apply Hpunct|].
  destruct (c =? rn "["); [apply Hpunct|].
  destruct (c =? rn "]"); [apply Hpunct|].
  destruct (c =? rn ":"); [apply Hpunct|].
  destruct (c =? rn ","); [apply Hpunct|].
  clear Hpunct.
  destruct (c =? quote).
  { destruct (readString_local c t e) as (res & t' & E & L & X).
    rewrite E. destruct res as [str|msg].
    - exists (mkToken TokenString str), t'. split; [reflexivity|].
      split; [simpl; lia|]. split; [intros _; exact L|].
      intros [Hne|Hp]; [|discriminate]. intros r e'.
      rewrite X by assumption. reflexivity.
    - exists (mkToken TokenError msg), t'. split; [reflexivity|].
      split; [simpl; lia|]. split; [intros _; exact L|].
      intros [Hne|Hp]; [|discriminate]. intros r e'.
      rewrite X by assumption. reflexivity. }
  destruct (unicode_IsDigit c || (c =? rn "-")) eqn:Hnum.
  { destruct (readNumber_local_cons c t e Hnum) as (a & t' & E & L & X).
    rewrite E. exists (mkToken TokenNumber a), t'. split; [reflexivity|].
    split; [simpl; lia|]. split; [intros _; exact L|].
    intros [Hne|Hp]; [|discriminate]. intros r e'.
    rewrite X by assumption. reflexivity. }
  destruct (unicode_IsLetter c) eqn:Hlet.
  { rewrite readIdentifier_at. cbn [take_while drop_while].
    assert (ident_rune c = true) as Hid
      by (unfold ident_rune; rewrite Hlet; reflexivity).
    rewrite Hid. eexists _, _. split; [reflexivity|].
    pose proof (drop_while_length ident_rune t).
    split; [simpl; lia|]. split; [intros _; assumption|].
    intros [Hne|Hp]; [|rewrite keyword_not_punct in Hp; discriminate].
    intros r e'.
    change (c :: t ++ r) with ((c :: t) ++ r).
    rewrite readIdentifier_at.
    rewrite take_while_app, drop_while_app;
      cbn [take_while drop_while]; rewrite ?Hid; auto. }
  exists (mkToken TokenError (utf8_rune c)), (c :: t).
  split; [reflexivity|]. split; [lia|]. split; [discriminate|].
  intros _ r e'. reflexivity.
Qed.

Lemma NextToken_local t e :
  exists tok t',
    NextToken (lex_at t e) = (tok, lex_at t' e) /\
    (List.length t' <= List.length t)%nat /\
    (is_real (Typ tok) = true -> (List.length t' < List.length t)%nat) /\
    (t' <> [] \/ is_punct (Typ tok) = true -> forall r e',
       NextToken (lex_at (t ++ r) e') = (tok, lex_at (t' ++ r) e')).
Proof.
  rewrite NextToken_skip.
  pose proof (drop_while_length is_space t) as Hlen.
  destruct (drop_while is_space t) as [|c t1] eqn:Hd.
  - rewrite NextToken_nil. eexists _, []. split; [reflexivity|].
    split; [simpl; lia|].
    split; [destruct e; discriminate|].
    intros [Hne|Hp]; [congruence|destruct e; discriminate].
  - destruct (NextToken_local_head c t1 e (drop_while_head _ _ _ _ Hd))
      as (tok & t' & E & L & S & X).
    exists tok, t'. split; [exact E|]. simpl in *.
    split; [lia|]. split; [intros H; specialize (S H); lia|].
    intros H r e'. rewrite NextToken_skip, drop_while_app by congruence.
    rewrite Hd. apply X, H.
Qed.
End NextTokenFacts.

(** ** The parser: unfolding, fuel and termination *)

Section ParserFacts.
Context {U : UnicodeTables}.

Lemma nextToken_NewParser p : nextToken p = NewParser (lexer p).
Proof. reflexivity. Qed.

Lemma parseValue_S n p :
  parseValue (S n) p =
  match Typ (token p) with
  | TokenString | TokenNumber | TokenBoolean | TokenNull =>
      Done None (nextToken p)
  | TokenLeftBrace => ParseObject n p
  | TokenLeftBracket => parseArray n p
  | _ => fail ("expected value, got " ++ Literal (token p)) p
  end.
Proof. reflexivity. Qed.

Lemma parseArray_S n p :
  parseArray (S n) p =
  if tok_is (nextToken p) TokenRightBracket
  then Done None (nextToken (nextToken p))
  else parseArray_loop n (nextToken p).
Proof. reflexivity. Qed.

Lemma parseArray_loop_S n p :
  parseArray_loop (S n) p =
  match parseValue n p with
  | OutOfFuel => OutOfFuel
  | Done (Some e) p => Done (Some e) p
  | Done None p =>
      if tok_is p TokenRightBracket then Done None (nextToken p)
      else if negb (tok_is p TokenComma) then
        fail ("expected ',' or ']', got '" ++ Literal (token p) ++ "'") p
      else parseArray_loop n (nextToken p)
  end.
Proof. reflexivity. Qed.

Lemma ParseObject_S n p :
  ParseObject (S n) p =
  if negb (tok_is p TokenLeftBrace) then
    fail ("expected '{', got '" ++ Literal (token p) ++ "'") p
  else if tok_is (nextToken p) TokenRightBrace
  then Done None (nextToken (nextToken p))
  else ParseObject_loop n (nextToken p).
Proof.
  cbn [ParseObject]. destruct (negb (tok_is p TokenLeftBrace)); [reflexivity|].
  cbv zeta. destruct (tok_is (nextToken p) TokenRightBrace); [|reflexivity].
  destruct (tok_is (nextToken (nextToken p)) TokenEOF); reflexivity.
Qed.

Lemma ParseObject_loop_S n p :
  ParseObject_loop (S n) p =
  if negb (tok_is p TokenString) then
    fail ("expected string key, got " ++ Literal (token p)) p
  else if negb (tok_is (nextToken p) TokenColon) then
    fail ("expected ':', got '" ++ Literal (token (nextToken p)) ++ "'")
      (nextToken p)
  else
    match parseValue n (nextToken (nextToken p)) with
    | OutOfFuel => OutOfFuel
    | Done (Some e) p => fail ("invalid value: " ++ e) p
    | Done None p =>
        if tok_is p TokenRightBrace then Done None (nextToken p)
        else if negb (tok_is p TokenComma) then
          fail ("expected ',' or '}', got '" ++ Literal (token p) ++ "'") p
        else ParseObject_loop n (nextToken p)
    end.
Proof.
  cbn [ParseObject_loop].
  destruct (negb (tok_is p TokenString)); [reflexivity|].
  cbv zeta. destruct (negb (tok_is (nextToken p) TokenColon)); [reflexivity|].
  destruct (parseValue n (nextToken (nextToken p))) as [|[msg|] q];
    try reflexivity.
  destruct (tok_is q TokenRightBrace); [|reflexivity].
  destruct (tok_is (nextToken q) TokenEOF); reflexivity.
Qed.

(** More fuel never changes an answer. *)
Lemma fuel_S n :
  (forall p e q, parseValue n p = Done e q -> parseValue (S n) p = Done e q) /\
  (forall p e q, parseArray n p = Done e q -> parseArray (S n) p = Done e q) /\
  (forall p e q, parseArray_loop n p = Done e q ->
                 parseArray_loop (S n) p = Done e q) /\
  (forall p e q, ParseObject n p = Done e q ->
                 ParseObject (S n) p = Done e q) /\
  (forall p e q, ParseObject_loop n p = Done e q ->
                 ParseObject_loop (S n) p = Done e q).
Proof.
  induction n as [|n (IHv & IHa & IHal & IHo & IHol)].
  - repeat split; intros p e q H; discriminate H.
  - repeat split; intros p e q H.
    + rewrite parseValue_S in H |- *.
      destruct (Typ (token p)); auto.
    + rewrite parseArray_S in H |- *.
      destruct (tok_is (nextToken p) TokenRightBracket); auto.
    + rewrite parseArray_loop_S in H |- *.
      destruct (parseValue n p) as [|[msg|] p1] eqn:E; [discriminate| |];
        rewrite (IHv _ _ _ E); [exact H|].
      destruct (tok_is p1 TokenRightBracket); [exact H|].
      destruct (negb (tok_is p1 TokenComma)); auto.
    + rewrite ParseObject_S in H |- *.
      destruct (negb (tok_is p TokenLeftBrace)); [exact H|].
      destruct (tok_is (nextToken p) TokenRightBrace); auto.
    + rewrite ParseObject_loop_S in H |- *.
      destruct (negb (tok_is p TokenString)); [exact H|].
      destruct (negb (tok_is (nextToken p) TokenColon)); [exact H|].
      destruct (parseValue n (nextToken (nextToken p))) as [|[msg|] p1] eqn:E;
        [discriminate| |]; rewrite (IHv _ _ _ E); [exact H|].
      destruct (tok_is p1 TokenRightBrace); [exact H|].
      destruct (negb (tok_is p1 TokenComma)); auto.
Qed.

Lemma ParseObject_fuel_le n m p e q :
  (n <= m)%nat -> ParseObject n p = Done e q -> ParseObject m p = Done e q.
Proof.
  induction 1 as [|m _ IH]; [auto|].
  intros H. apply fuel_S, IH, H.
Qed.

Lemma parseValue_fuel_le n m p e q :
  (n <= m)%nat -> parseValue n p = Done e q -> parseValue m p = Done e q.
Proof.
  induction 1 as [|m _ IH]; [auto|].
  intros H. apply fuel_S, IH, H.
Qed.

Lemma parseArray_fuel_le n m p e q :
  (n <= m)%nat -> parseArray n p = Done e q -> parseArray m p = Done e q.
Proof.
  induction 1 as [|m _ IH]; [auto|].
  intros H. apply fuel_S, IH, H.
Qed.

Lemma parseArray_loop_fuel_le n m p e q :
  (n <= m)%nat -> parseArray_loop n p = Done e q ->
  parseArray_loop m p = Done e q.
Proof.
  induction 1 as [|m _ IH]; [auto|].
  intros H. apply fuel_S, IH, H.
Qed.

Lemma ParseObject_loop_fuel_le n m p e q :
  (n <= m)%nat -> ParseObject_loop n p = Done e q ->
  ParseObject_loop m p = Done e q.
Proof.
  induction 1 as [|m _ IH]; [auto|].
  intros H. apply fuel_S, IH, H.
Qed.

(** Loading the next token never gives text back, and a token that
    stands for text has consumed some. *)
Lemma nextToken_at t e tok :
  exists tok1 t1,
    nextToken (mkParser (lex_at t e) tok) = mkParser (lex_at t1 e) tok1 /\
    (List.length t1 + weight tok1 <= List.length t)%nat.
Proof.
  destruct (NextToken_local t e) as (tok1 & t1 & E & L & S & _).
  exists tok1, t1. unfold nextToken. cbn [lexer]. rewrite E.
  split; [reflexivity|]. unfold weight.
  destruct (is_real (Typ tok1)); [specialize (S eq_refl)|]; lia.
Qed.
End ParserFacts.

Lemma TokenType_eqb_eq a b : TokenType_eqb a b = true -> a = b.
Proof. destruct a, b; simpl; congruence. Qed.

Lemma ends_within_le o e b b' :
  (b <= b')%nat -> ends_within o e b -> ends_within o e b'.
Proof.
  intros Hb (res & t' & tok' & E & L). exists res, t', tok'.
  split; [exact E|lia].
Qed.

Lemma ends_within_Done res t e tok b :
  (List.length t + weight tok <= b)%nat ->
  ends_within (Done res (mkParser (lex_at t e) tok)) e b.
Proof. intros H. exists res, t, tok. split; [reflexivity|exact H]. Qed.

Section Termination.
Context {U : UnicodeTables}.

Lemma weight_tok_is l tok ty :
  tok_is (mkParser l tok) ty = true -> is_real ty = true -> weight tok = 1%nat.
Proof.
  unfold tok_is. cbn [token]. intros H Hr. apply TokenType_eqb_eq in H.
  unfold weight. rewrite H, Hr. reflexivity.
Qed.

Lemma terminates n :
  (forall t e tok,
     (3 * (List.length t + weight tok) + 8 <= n)%nat ->
     ends_within (parseValue n (mkParser (lex_at t e) tok)) e
       (List.length t + weight tok)) /\
  (forall t e tok,
     (3 * List.length t + 10 <= n)%nat ->
     ends_within (parseArray n (mkParser (lex_at t e) tok)) e
       (List.length t)) /\
  (forall t e tok,
     (3 * (List.length t + weight tok) + 9 <= n)%nat ->
     ends_within (parseArray_loop n (mkParser (lex_at t e) tok)) e
       (List.length t + weight tok)) /\
  (forall t e tok,
     (3 * (List.length t + weight tok) + 1 <= n)%nat ->
     ends_within (ParseObject n (mkParser (lex_at t e) tok)) e
       (List.length t + weight tok)) /\
  (forall t e tok,
     (3 * (List.length t + weight tok) + 3 <= n)%nat ->
     ends_within (ParseObject_loop n (mkParser (lex_at t e) tok)) e
       (List.length t + weight tok)).
Proof.
  induction n as [|n (IHv & IHa & IHal & IHo & IHol)].
  { repeat split; intros; lia. }
  repeat split; intros t e tok Hn.
  - (* parseValue *)
    rewrite parseValue_S. cbn [token].
    destruct (Typ tok) eqn:Ht;
      try (apply ends_within_Done; lia);
      try (destruct (nextToken_at t e tok) as (tok1 & t1 & E1 & L1);
           rewrite E1; apply ends_within_Done; lia).
    + apply IHo. lia.
    + apply ends_within_le with (b := List.length t); [lia|].
      apply IHa. unfold weight in Hn. rewrite Ht in Hn. simpl in Hn. lia.
  - (* parseArray *)
    rewrite parseArray_S.
    destruct (nextToken_at t e tok) as (tok1 & t1 & E1 & L1). rewrite E1.
    destruct (tok_is _ TokenRightBracket).
    + destruct (nextToken_at t1 e tok1) as (tok2 & t2 & E2 & L2).
      rewrite E2. apply ends_within_Done. lia.
    + apply ends_within_le with (b := (List.length t1 + weight tok1)%nat);
        [lia|].
      apply IHal. lia.
  - (* parseArray_loop *)
    rewrite parseArray_loop_S.
    destruct (IHv t e tok) as (res & t1 & tok1 & E1 & L1); [lia|].
    rewrite E1. destruct res as [msg|]; [apply ends_within_Done; lia|].
    destruct (tok_is _ TokenRightBracket).
    + destruct (nextToken_at t1 e tok1) as (tok2 & t2 & E2 & L2).
      rewrite E2. apply ends_within_Done. lia.
    + destruct (tok_is _ TokenComma) eqn:Hc; cbn [negb];
        [|apply ends_within_Done; lia].
      apply weight_tok_is in Hc; [|reflexivity].
      destruct (nextToken_at t1 e tok1) as (tok2 & t2 & E2 & L2).
      rewrite E2.
      apply ends_within_le with (b := (List.length t2 + weight tok2)%nat);
        [lia|].
      apply IHal. lia.
  - (* ParseObject *)
    rewrite ParseObject_S.
    destruct (tok_is _ TokenLeftBrace) eqn:Hb; cbn [negb];
      [|apply ends_within_Done; lia].
    apply weight_tok_is in Hb; [|reflexivity].
    destruct (nextToken_at t e tok) as (tok1 & t1 & E1 & L1). rewrite E1.
    destruct (tok_is _ TokenRightBrace).
    + destruct (nextToken_at t1 e tok1) as (tok2 & t2 & E2 & L2).
      rewrite E2. apply ends_within_Done. lia.
    + apply ends_within_le with (b := (List.length t1 + weight tok1)%nat);
        [lia|].
      apply IHol. lia.
  - (* ParseObject_loop *)
    rewrite ParseObject_loop_S.
    destruct (tok_is _ TokenString) eqn:Hs; cbn [negb];
      [|apply ends_within_Done; lia].
    apply weight_tok_is in Hs; [|reflexivity].
    destruct (nextToken_at t e tok) as (tok1 & t1 & E1 & L1). rewrite E1.
    destruct (tok_is _ TokenColon) eqn:Hc; cbn [negb];
      [|apply ends_within_Done; lia].
    apply weight_tok_is in Hc; [|reflexivity].
    destruct (nextToken_at t1 e tok1) as (tok2 & t2 & E2 & L2). rewrite E2.
    destruct (IHv t2 e tok2) as (res & t3 & tok3 & E3 & L3); [lia|].
    rewrite E3. destruct res as [msg|]; [apply ends_within_Done; lia|].
    destruct (tok_is _ TokenRightBrace).
    + destruct (nextToken_at t3 e tok3) as (tok4 & t4 & E4 & L4).
      rewrite E4. apply ends_within_Done. lia.
    + destruct (tok_is _ TokenComma) eqn:Hm; cbn [negb];
        [|apply ends_within_Done; lia].
      apply weight_tok_is in Hm; [|reflexivity].
      destruct (nextToken_at t3 e tok3) as (tok4 & t4 & E4 & L4).
      rewrite E4.
      apply ends_within_le with (b := (List.length t4 + weight tok4)%nat);
        [lia|].
      apply IHol. lia.
Qed.

Lemma NewParser_at t e :
  exists tok1 t1,
    NewParser (lex_at t e) = mkParser (lex_at t1 e) tok1 /\
    (List.length t1 + weight tok1 <= List.length t)%nat.
Proof. apply nextToken_at. Qed.

(** [ParseObject] answers on every input with the fuel [Validate] gives. *)
Lemma ParseObject_total input :
  exists e p,
    ParseObject (fuel_for input) (NewParser (NewLexer input)) = Done e p.
Proof.
  destruct input as [t e]. rewrite NewLexer_lex_at.
  destruct (NewParser_at t e) as (tok1 & t1 & E1 & L1). rewrite E1.
  destruct (proj1 (proj2 (proj2 (proj2 (terminates (fuel_for (mkReader t e))))))
              t1 e tok1) as (res & t2 & tok2 & E2 & _).
  - unfold fuel_for. cbn [pending]. lia.
  - eauto.
Qed.

Lemma Validate_total input : exists v, Validate input = Some v.
Proof.
  unfold Validate. destruct (ParseObject_total input) as (e & p & E).
  rewrite E. eexists. reflexivity.
Qed.
End Termination.

(** ** Text after the accepted object *)

Section Trailing.
Context {U : UnicodeTables}.
Variable more : list rune.
Variables e e' : ioerr.

Lemma nextToken_at_end p :
  lexer p = lex_at [] e -> starved e (nextToken p).
Proof.
  intros H. unfold nextToken. rewrite H, NextToken_nil.
  split; [reflexivity|]. destruct e; reflexivity.
Qed.

Lemma follows_nextToken p1 p2 :
  follows more e e' p1 p2 -> follows more e e' (nextToken p1) (nextToken p2).
Proof.
  intros (t & Hl & H).
  destruct (NextToken_local t e) as (tok1 & t1 & E & L & _ & X).
  assert (nextToken p1 = mkParser (lex_at t1 e) tok1) as N1
    by (unfold nextToken; rewrite Hl, E; reflexivity).
  exists t1. rewrite N1. split; [reflexivity|].
  destruct t as [|c t].
  { left. rewrite <- N1. apply nextToken_at_end. exact Hl. }
  destruct H as [[Hs _]|[Ht Hl2]].
  { rewrite Hl in Hs. discriminate Hs. }
  assert (t1 <> [] \/ is_punct (Typ tok1) = true ->
          nextToken p2 = mkParser (lex_at (t1 ++ more) e') tok1) as N2.
  { intros H. unfold nextToken. rewrite Hl2, (X H). reflexivity. }
  destruct t1 as [|c1 t1].
  - destruct (is_punct (Typ tok1)) eqn:Hp.
    + right. rewrite N2 by (right; reflexivity). split; reflexivity.
    + left. split; [reflexivity|exact Hp].
  - right. rewrite N2 by (left; discriminate). split; reflexivity.
Qed.

Lemma starved_tok_is p ty :
  starved e p -> is_punct ty = true -> tok_is p ty = false.
Proof.
  intros [_ Hp] Hty. unfold tok_is.
  destruct (TokenType_eqb (Typ (token p)) ty) eqn:E; [|reflexivity].
  apply TokenType_eqb_eq in E. congruence.
Qed.

Lemma follows_tok_is p1 p2 ty :
  follows more e e' p1 p2 -> tok_is p1 ty = true -> is_punct ty = true ->
  token p2 = token p1.
Proof.
  intros (t & _ & [Hs|[Ht _]]) H Hty; [|exact Ht].
  rewrite (starved_tok_is _ _ Hs Hty) in H. discriminate H.
Qed.

Lemma tok_is_token p1 p2 ty :
  token p2 = token p1 -> tok_is p2 ty = tok_is p1 ty.
Proof. unfold tok_is. intros ->. reflexivity. Qed.

(** A starved e run accepts nothing more. *)
Lemma starved_parseValue n p q :
  starved e p -> parseValue n p = Done None q -> starved e q.
Proof.
  intros [Hl Hp] H. destruct n as [|n]; [discriminate H|].
  rewrite parseValue_S in H.
  destruct (Typ (token p)); try discriminate;
    injection H as <-; apply nextToken_at_end, Hl.
Qed.

Lemma starved_parseArray_loop n p q :
  starved e p -> parseArray_loop n p <> Done None q.
Proof.
  intros Hs H. destruct n as [|n]; [discriminate H|].
  rewrite parseArray_loop_S in H.
  destruct (parseValue n p) as [|[msg|] p1] eqn:E; try discriminate.
  apply starved_parseValue in E; [|exact Hs].
  rewrite !(starved_tok_is _ _ E) in H by reflexivity. discriminate H.
Qed.

Lemma starved_ParseObject_loop n p q :
  starved e p -> ParseObject_loop n p <> Done None q.
Proof.
  intros [Hl Hp] H. destruct n as [|n]; [discriminate H|].
  rewrite ParseObject_loop_S in H.
  destruct (negb (tok_is p TokenString)); [discriminate|].
  rewrite (starved_tok_is (nextToken p) TokenColon) in H;
    [discriminate|apply nextToken_at_end, Hl|reflexivity].
Qed.

Lemma at_end_parseArray n p q :
  lexer p = lex_at [] e -> parseArray n p <> Done None q.
Proof.
  intros Hl H. destruct n as [|n]; [discriminate H|].
  rewrite parseArray_S in H.
  pose proof (nextToken_at_end p Hl) as Hs.
  rewrite (starved_tok_is _ _ Hs) in H by reflexivity.
  exact (starved_parseArray_loop _ _ _ Hs H).
Qed.

Lemma simulation n :
  (forall p1 p2 q1, follows more e e' p1 p2 -> parseValue n p1 = Done None q1 ->
     starved e q1 \/
     exists q2, parseValue n p2 = Done None q2 /\ follows more e e' q1 q2) /\
  (forall p1 p2 q1, follows more e e' p1 p2 -> parseArray n p1 = Done None q1 ->
     exists q2, parseArray n p2 = Done None q2 /\ follows more e e' q1 q2) /\
  (forall p1 p2 q1, follows more e e' p1 p2 ->
     parseArray_loop n p1 = Done None q1 ->
     exists q2, parseArray_loop n p2 = Done None q2 /\
                follows more e e' q1 q2) /\
  (forall p1 p2 q1, follows more e e' p1 p2 ->
     ParseObject n p1 = Done None q1 ->
     exists q2, ParseObject n p2 = Done None q2 /\ follows more e e' q1 q2) /\
  (forall p1 p2 q1, follows more e e' p1 p2 ->
     ParseObject_loop n p1 = Done None q1 ->
     exists q2, ParseObject_loop n p2 = Done None q2 /\
                follows more e e' q1 q2).
Proof.
  induction n as [|n (IHv & IHa & IHal & IHo & IHol)].
  { repeat split; intros p1 p2 q1 _ H; discriminate H. }
  repeat split; intros p1 p2 q1 F H.
  - (* parseValue *)
    destruct F as (t & Hl & [Hs|[Ht Hl2]]).
    { left. exact (starved_parseValue _ _ _ Hs H). }
    assert (follows more e e' p1 p2) as F by (exists t; auto).
    right. rewrite parseValue_S in H |- *. rewrite Ht.
    destruct (Typ (token p1)); try discriminate;
      try (injection H as <-; eexists; split;
           [reflexivity|apply follows_nextToken, F]).
    + apply (IHo _ _ _ F H).
    + apply (IHa _ _ _ F H).
  - (* parseArray *)
    rewrite parseArray_S in H |- *.
    pose proof (follows_nextToken _ _ F) as F1.
    destruct (tok_is (nextToken p1) TokenRightBracket) eqn:Hb.
    + rewrite (tok_is_token _ _ _ (follows_tok_is _ _ _ F1 Hb eq_refl)), Hb.
      injection H as <-. eexists. split; [reflexivity|].
      apply follows_nextToken, F1.
    + destruct F1 as (t1 & Hl1 & [Hs|[Ht1 Hl21]]).
      { destruct (starved_parseArray_loop _ _ _ Hs H). }
      rewrite (tok_is_token _ _ _ Ht1), Hb.
      apply (IHal _ _ _
               (ex_intro _ t1 (conj Hl1 (or_intror (conj Ht1 Hl21)))) H).
  - (* parseArray_loop *)
    rewrite parseArray_loop_S in H |- *.
    destruct (parseValue n p1) as [|[msg|] p1'] eqn:E; try discriminate.
    destruct (IHv _ _ _ F E) as [Hs|(p2' & E2 & F')].
    { rewrite !(starved_tok_is _ _ Hs) in H by reflexivity. discriminate H. }
    rewrite E2.
    destruct (tok_is p1' TokenRightBracket) eqn:Hb.
    + rewrite (tok_is_token _ _ _ (follows_tok_is _ _ _ F' Hb eq_refl)), Hb.
      injection H as <-. eexists. split; [reflexivity|].
      apply follows_nextToken, F'.
    + destruct (tok_is p1' TokenComma) eqn:Hc; [|discriminate H].
      pose proof (follows_tok_is _ _ _ F' Hc eq_refl) as Ht.
      rewrite !(tok_is_token _ _ _ Ht), Hb, Hc. cbn [negb] in H |- *.
      apply (IHal _ _ _ (follows_nextToken _ _ F') H).
  - (* ParseObject *)
    rewrite ParseObject_S in H |- *.
    destruct (tok_is p1 TokenLeftBrace) eqn:Hb; [|discriminate H].
    pose proof (follows_tok_is _ _ _ F Hb eq_refl) as Ht.
    rewrite (tok_is_token _ _ _ Ht), Hb. cbn [negb] in H |- *.
    pose proof (follows_nextToken _ _ F) as F1.
    destruct (tok_is (nextToken p1) TokenRightBrace) eqn:Hr.
    + rewrite (tok_is_token _ _ _ (follows_tok_is _ _ _ F1 Hr eq_refl)), Hr.
      injection H as <-. eexists. split; [reflexivity|].
      apply follows_nextToken, F1.
    + destruct F1 as (t1 & Hl1 & [Hs|[Ht1 Hl21]]).
      { destruct (starved_ParseObject_loop _ _ _ Hs H). }
      rewrite (tok_is_token _ _ _ Ht1), Hr.
      apply (IHol _ _ _
               (ex_intro _ t1 (conj Hl1 (or_intror (conj Ht1 Hl21)))) H).
  - (* ParseObject_loop *)
    destruct F as (t & Hl & [Hs|[Ht Hl2]]).
    { destruct (starved_ParseObject_loop _ _ _ Hs H). }
    assert (follows more e e' p1 p2) as F by (exists t; auto).
    rewrite ParseObject_loop_S in H |- *.
    rewrite (tok_is_token _ _ _ Ht).
    destruct (negb (tok_is p1 TokenString)); [discriminate H|].
    pose proof (follows_nextToken _ _ F) as F1.
    destruct (tok_is (nextToken p1) TokenColon) eqn:Hc; [|discriminate H].
    rewrite (tok_is_token _ _ _ (follows_tok_is _ _ _ F1 Hc eq_refl)), Hc.
    cbn [negb] in H |- *.
    pose proof (follows_nextToken _ _ F1) as F2.
    destruct (parseValue n (nextToken (nextToken p1))) as [|[msg|] p1'] eqn:E;
      try discriminate.
    destruct (IHv _ _ _ F2 E) as [Hs|(p2' & E2 & F')].
    { rewrite !(starved_tok_is _ _ Hs) in H by reflexivity. discriminate H. }
    rewrite E2.
    destruct (tok_is p1' TokenRightBrace) eqn:Hb.
    + rewrite (tok_is_token _ _ _ (follows_tok_is _ _ _ F' Hb eq_refl)), Hb.
      injection H as <-. eexists. split; [reflexivity|].
      apply follows_nextToken, F'.
    + destruct (tok_is p1' TokenComma) eqn:Hm; [|discriminate H].
      pose proof (follows_tok_is _ _ _ F' Hm eq_refl) as Ht'.
      rewrite !(tok_is_token _ _ _ Ht'), Hb, Hm. cbn [negb] in H |- *.
      apply (IHol _ _ _ (follows_nextToken _ _ F') H).
Qed.

Lemma follows_start s tok :
  follows more e e' (mkParser (lex_at s e) tok)
    (mkParser (lex_at (s ++ more) e') tok).
Proof. exists s. split; [reflexivity|]. right. split; reflexivity. Qed.
End Trailing.

(** ** Whitespace and delimiters *)

Lemma existsb_eqb_cases c l (P : rune -> Prop) :
  Forall P l -> existsb (Z.eqb c) l = true -> P c.
Proof.
  induction 1 as [|d l Hd _ IH]; simpl; [discriminate|].
  destruct (c =? d) eqn:E; [apply Z.eqb_eq in E; subst; auto|exact IH].
Qed.

Lemma ws_rune_is_space c : ws_rune c = is_space c.
Proof.
  unfold ws_rune, is_space. simpl. rewrite orb_false_r, !orb_assoc. reflexivity.
Qed.

Lemma drop_while_blank ws t :
  blank ws -> drop_while is_space (ws ++ t) = drop_while is_space t.
Proof.
  unfold blank. induction ws as [|c ws IH]; simpl; [reflexivity|].
  rewrite ws_rune_is_space. destruct (is_space c); [exact IH|discriminate].
Qed.

Lemma delimited_blank ws t : blank ws -> delimited t -> delimited (ws ++ t).
Proof.
  destruct ws as [|c ws]; [auto|]. unfold blank. simpl.
  intros H _. unfold delim_rune. apply andb_true_iff in H.
  destruct H as [-> _]. reflexivity.
Qed.

(** *** The tokens of a well-formed text *)

Section RuneClasses.
Context {U : UnicodeTables}.

Lemma IsDigit_range c :
  unicode_IsDigit c = true -> 48 <= c <= 57 \/ 255 < c.
Proof.
  unfold unicode_IsDigit, between. rn_norm.
  destruct (c <=? 255) eqn:E.
  - intros H. apply andb_true_iff in H. destruct H as [H1 H2].
    apply Z.leb_le in H1, H2. lia.
  - intros _. apply Z.leb_gt in E. lia.
Qed.

Lemma ascii_digit_range c : ascii_digit c = true -> 48 <= c <= 57.
Proof.
  unfold ascii_digit, between. rn_norm. intros H.
  apply andb_true_iff in H. destruct H as [H1 H2].
  apply Z.leb_le in H1, H2. lia.
Qed.

Lemma ascii_digit_IsDigit c : ascii_digit c = true -> unicode_IsDigit c = true.
Proof.
  intros H. pose proof (ascii_digit_range c H).
  unfold unicode_IsDigit, between. rn_norm. eqb_lia. reflexivity.
Qed.

Lemma IsLetter_range c :
  unicode_IsLetter c = true ->
  65 <= c <= 90 \/ 97 <= c <= 122 \/ 170 <= c.
Proof.
  unfold unicode_IsLetter, latin1_letter, between. rn_norm.
  destruct ((0 <=? c) && (c <=? 255)) eqn:E.
  - intros H.
    repeat (apply orb_true_iff in H; destruct H as [H|H]);
      try (apply andb_true_iff in H; destruct H as [H1 H2];
           apply Z.leb_le in H1, H2; lia);
      apply Z.eqb_eq in H; lia.
  - destruct (c <? 0) eqn:E0; [discriminate|]. intros _.
    apply Z.ltb_ge in E0. apply andb_false_iff in E.
    destruct E as [E|E]; [apply Z.leb_gt in E|apply Z.leb_gt in E]; lia.
Qed.

Lemma not_space c : c <> 32 -> (c < 9 \/ 13 < c) -> is_space c = false.
Proof. intros H1 H2. unfold is_space. rn_norm. eqb_lia. reflexivity. Qed.

(** A digit or a minus sign starts number scanning. *)
Lemma NextToken_number_start c t e :
  unicode_IsDigit c || (c =? rn "-") = true ->
  NextToken (lex_at (c :: t) e) =
  let '(number, l') := readNumber (lex_at (c :: t) e) in
  (mkToken TokenNumber number, l').
Proof.
  intros H.
  assert (48 <= c <= 57 \/ 255 < c \/ c = 45) as R.
  { apply orb_true_iff in H. destruct H as [H|H].
    - apply IsDigit_range in H. lia.
    - apply Z.eqb_eq in H. revert H. rn_norm. lia. }
  rewrite NextToken_cons by (apply not_space; lia).
  rewrite H. rn_norm. eqb_lia. reflexivity.
Qed.

(** A letter that is no digit starts identifier scanning. *)
Lemma NextToken_letter_start c t e :
  unicode_IsLetter c = true -> unicode_IsDigit c = false ->
  NextToken (lex_at (c :: t) e) =
  let '(identifier, l') := readIdentifier (lex_at (c :: t) e) in
  (keyword identifier, l').
Proof.
  intros H D. pose proof (IsLetter_range c H) as R.
  rewrite NextToken_cons by (apply not_space; lia).
  rewrite H, D. rn_norm. eqb_lia. reflexivity.
Qed.

Lemma delim_rune_cases c :
  delim_rune c = true ->
  c = 32 \/ c = 9 \/ c = 10 \/ c = 13 \/ c = 44 \/ c = 125 \/ c = 93.
Proof.
  unfold delim_rune, ws_rune. rewrite <- existsb_app. simpl. rn_norm.
  intros H.
  repeat (apply orb_true_iff in H; destruct H as [H|H]);
    try discriminate; apply Z.eqb_eq in H; lia.
Qed.

Lemma delim_not_digit c : delim_rune c = true -> unicode_IsDigit c = false.
Proof.
  intros H. apply delim_rune_cases in H.
  destruct (unicode_IsDigit c) eqn:E; [|reflexivity].
  apply IsDigit_range in E. lia.
Qed.

Lemma delim_not_ident c : delim_rune c = true -> ident_rune c = false.
Proof.
  intros H. apply delim_rune_cases in H. unfold ident_rune.
  destruct (unicode_IsLetter c) eqn:E.
  - apply IsLetter_range in E. lia.
  - rn_norm. eqb_lia. reflexivity.
Qed.
End RuneClasses.

Section TokensOfText.
Context {U : UnicodeTables}.

Lemma span_digits ds rest :
  forallb ascii_digit ds = true -> head_ok not_digit rest ->
  take_while unicode_IsDigit (ds ++ rest) = ds /\
  drop_while unicode_IsDigit (ds ++ rest) = rest.
Proof.
  intros Hds Hrest. induction ds as [|d ds IH]; simpl.
  - destruct rest as [|c rest]; [auto|]. simpl in *.
    unfold not_digit in Hrest. apply negb_true_iff in Hrest.
    rewrite Hrest. auto.
  - simpl in Hds. apply andb_true_iff in Hds. destruct Hds as [Hd Hds].
    rewrite (ascii_digit_IsDigit d Hd). destruct (IH Hds) as [-> ->]. auto.
Qed.

Lemma readDigits_src ds rest acc e :
  forallb ascii_digit ds = true -> head_ok not_digit rest ->
  readDigits (budget (lex_at (ds ++ rest) e)) acc (lex_at (ds ++ rest) e) =
  (acc ++ ds, lex_at rest e).
Proof.
  intros Hds Hrest. rewrite readDigits_at by apply budget_lex_at.
  destruct (span_digits ds rest Hds Hrest) as [-> ->]. reflexivity.
Qed.

Lemma digits_inv ds :
  digits ds = true ->
  forallb ascii_digit ds = true /\
  exists d ds', ds = d :: ds' /\ 48 <= d <= 57.
Proof.
  destruct ds as [|d ds']; [discriminate|]. unfold digits. intros H.
  split; [exact H|]. exists d, ds'. split; [reflexivity|].
  simpl in H. apply andb_true_iff in H. apply ascii_digit_range, H.
Qed.

Lemma delimited_after_exp t : delimited t -> head_ok after_exp t.
Proof.
  destruct t as [|c t]; [auto|]. simpl. intros H.
  unfold after_exp, not_digit. rewrite (delim_not_digit c H).
  apply delim_rune_cases in H. rn_norm. eqb_lia. reflexivity.
Qed.

Lemma number_integer_src ds rest acc e :
  digits ds = true -> head_ok after_int rest ->
  number_integer acc (lex_at (ds ++ rest) e) = (acc ++ ds, lex_at rest e).
Proof.
  intros Hds Hrest. apply readDigits_src; [apply digits_inv, Hds|exact Hrest].
Qed.

Lemma number_fraction_src f rest acc e :
  match f with None => true | Some ds => digits ds end = true ->
  head_ok after_frac rest ->
  number_fraction acc (lex_at (frac_src f ++ rest) e) =
  (acc ++ frac_src f, lex_at rest e).
Proof.
  intros Hf Hrest. unfold number_fraction. destruct f as [ds|]; simpl frac_src.
  - simpl app. rewrite char_lex_at_cons, Z.eqb_refl. cbv zeta.
    rewrite readChar_cons, readDigits_src.
    + rewrite <- app_assoc. reflexivity.
    + apply digits_inv, Hf.
    + destruct rest as [|c rest]; [exact I|]. simpl in *.
      unfold after_frac in Hrest. apply andb_true_iff in Hrest. apply Hrest.
  - simpl app. rewrite app_nil_r. destruct rest as [|c rest]; [reflexivity|].
    rewrite char_lex_at_cons. simpl in Hrest. unfold after_frac in Hrest.
    apply andb_true_iff in Hrest. destruct Hrest as [_ H].
    apply negb_true_iff in H. rewrite H. reflexivity.
Qed.

Lemma number_exponent_src x rest acc e :
  match x with
  | None => true
  | Some (ec, sg, ds) =>
      ((ec =? rn "e") || (ec =? rn "E"))
      && match sg with
         | None => true
         | Some s => (s =? rn "+") || (s =? rn "-")
         end
      && digits ds
  end = true ->
  head_ok after_exp rest ->
  number_exponent acc (lex_at (exp_src x ++ rest) e) =
  (acc ++ exp_src x, lex_at rest e).
Proof.
  intros Hx Hrest. unfold number_exponent.
  assert (head_ok not_digit rest) as Hnd.
  { destruct rest as [|c rest]; [exact I|]. simpl in *.
    unfold after_exp in Hrest. apply andb_true_iff in Hrest.
    destruct Hrest as [Hrest _]. apply andb_true_iff in Hrest. apply Hrest. }
  destruct x as [[[ec sg] ds]|]; simpl exp_src.
  - apply andb_true_iff in Hx. destruct Hx as [Hx Hds].
    apply andb_true_iff in Hx. destruct Hx as [Hec Hsg].
    simpl app. rewrite char_lex_at_cons, Hec. cbv zeta. rewrite readChar_cons.
    destruct (digits_inv ds Hds) as (Hall & d & ds' & E & Hd).
    destruct sg as [s|].
    + simpl app. rewrite char_lex_at_cons, Hsg, readChar_cons.
      rewrite readDigits_src by assumption.
      rewrite <- !app_assoc. reflexivity.
    + simpl app.
      assert ((char (lex_at (ds ++ rest) e) =? rn "+")
              || (char (lex_at (ds ++ rest) e) =? rn "-") = false) as Hc.
      { rewrite E. simpl app. rewrite char_lex_at_cons. rn_norm. eqb_lia.
        reflexivity. }
      rewrite Hc, readDigits_src by assumption.
      rewrite <- !app_assoc. reflexivity.
  - simpl app. rewrite app_nil_r. destruct rest as [|c rest]; [reflexivity|].
    rewrite char_lex_at_cons. simpl in Hrest. unfold after_exp in Hrest.
    apply andb_true_iff in Hrest. destruct Hrest as [_ H].
    apply negb_true_iff in H. rewrite H. reflexivity.
Qed.

Lemma head_ok_exp_src x rest :
  match x with
  | None => true
  | Some (ec, sg, ds) =>
      ((ec =? rn "e") || (ec =? rn "E"))
      && match sg with
         | None => true
         | Some s => (s =? rn "+") || (s =? rn "-")
         end
      && digits ds
  end = true ->
  head_ok after_exp rest -> head_ok after_frac (exp_src x ++ rest).
Proof.
  intros Hx Hrest. destruct x as [[[ec sg] ds]|]; simpl.
  - apply andb_true_iff in Hx. destruct Hx as [Hx _].
    apply andb_true_iff in Hx. destruct Hx as [Hec _].
    unfold after_frac, not_digit.
    assert (ec = 101 \/ ec = 69) as R.
    { apply orb_true_iff in Hec. revert Hec. rn_norm.
      intros [H|H]; apply Z.eqb_eq in H; lia. }
    destruct (unicode_IsDigit ec) eqn:E;
      [apply IsDigit_range in E; lia|].
    rn_norm. eqb_lia. reflexivity.
  - destruct rest as [|c rest]; [exact I|]. simpl in *.
    unfold after_exp in Hrest. apply andb_true_iff in Hrest. apply Hrest.
Qed.

Lemma head_ok_frac_src f rest :
  head_ok after_frac rest -> head_ok after_int (frac_src f ++ rest).
Proof.
  intros Hrest. destruct f as [ds|]; simpl.
  - unfold after_int, not_digit.
    destruct (unicode_IsDigit (rn ".")) eqn:E; [|reflexivity].
    apply IsDigit_range in E. revert E. rn_norm. lia.
  - destruct rest as [|c rest]; [exact I|]. simpl in *.
    unfold after_frac in Hrest. apply andb_true_iff in Hrest. apply Hrest.
Qed.

(** Scanning a number of the grammar returns its text. *)
Lemma readNumber_src n t e :
  number_ok n = true -> delimited t ->
  readNumber (lex_at (number_src n ++ t) e) =
  (string_of_runes (number_src n), lex_at t e).
Proof.
  intros Hn Ht. destruct n as [m int f x]. unfold number_ok in Hn.
  cbn [num_minus num_int num_frac num_exp] in Hn.
  apply andb_true_iff in Hn. destruct Hn as [Hn Hx].
  apply andb_true_iff in Hn. destruct Hn as [Hint Hf].
  pose proof (delimited_after_exp t Ht) as H3.
  pose proof (head_ok_exp_src x t Hx H3) as H2.
  pose proof (head_ok_frac_src f _ H2) as H1.
  unfold number_src. cbn [num_minus num_int num_frac num_exp].
  rewrite readNumber_tail. unfold number_tail.
  assert (forall acc,
    (let '(acc0, l) := number_integer acc
                         (lex_at (int ++ frac_src f ++ exp_src x ++ t) e) in
     let '(acc1, l0) := number_fraction acc0 l in
     let '(acc2, l1) := number_exponent acc1 l0 in
     (string_of_runes acc2, l1)) =
    (string_of_runes (acc ++ int ++ frac_src f ++ exp_src x), lex_at t e))
    as Hrest.
  { intros acc. rewrite number_integer_src by assumption.
    rewrite number_fraction_src by assumption.
    rewrite number_exponent_src by assumption.
    rewrite <- !app_assoc. reflexivity. }
  destruct m.
  - simpl app. unfold number_sign. rewrite char_lex_at_cons, Z.eqb_refl.
    rewrite readChar_cons, <- !app_assoc. apply (Hrest [rn "-"]).
  - simpl app. rewrite <- !app_assoc.
    destruct (digits_inv int Hint) as (_ & d & ds' & E & Hd).
    unfold number_sign.
    assert ((char (lex_at (int ++ frac_src f ++ exp_src x ++ t) e) =? rn "-")
            = false) as Hc.
    { rewrite E. simpl app. rewrite char_lex_at_cons. rn_norm. eqb_lia.
      reflexivity. }
    rewrite Hc. apply (Hrest []).
Qed.

Lemma number_src_head n :
  number_ok n = true ->
  exists c t, number_src n = c :: t /\
              unicode_IsDigit c || (c =? rn "-") = true.
Proof.
  intros Hn. destruct n as [m int f x]. unfold number_ok in Hn.
  cbn [num_minus num_int num_frac num_exp] in Hn.
  apply andb_true_iff in Hn. destruct Hn as [Hn _].
  apply andb_true_iff in Hn. destruct Hn as [Hint _].
  unfold number_src. cbn [num_minus num_int num_frac num_exp].
  destruct m.
  - eexists _, _. split; [reflexivity|]. apply orb_true_r.
  - destruct (digits_inv int Hint) as (Hall & d & ds' & -> & Hd).
    eexists _, _. split; [reflexivity|].
    simpl in Hall. apply andb_true_iff in Hall. destruct Hall as [Hd' _].
    rewrite (ascii_digit_IsDigit d Hd'). reflexivity.
Qed.

Lemma NextToken_number n t e :
  number_ok n = true -> delimited t ->
  NextToken (lex_at (number_src n ++ t) e) =
  (mkToken TokenNumber (string_of_runes (number_src n)), lex_at t e).
Proof.
  intros Hn Ht. pose proof (readNumber_src n t e Hn Ht) as R.
  destruct (number_src_head n Hn) as (c & t0 & E & Hc).
  rewrite E in R |- *. simpl app in R |- *.
  rewrite NextToken_number_start by assumption. rewrite R. reflexivity.
Qed.
End TokensOfText.

(** *** Strings and keywords *)

Lemma escape_letter x :
  existsb (Z.eqb x) escape_letters = true ->
  escape x = Some (item_char (Escaped x)).
Proof.
  apply (existsb_eqb_cases x escape_letters
           (fun x => escape x = Some (item_char (Escaped x)))).
  repeat constructor.
Qed.

(** The loop of [readString] on a well-formed body and its closing quote. *)
Lemma readString_loop_src body : forall n acc t e,
  forallb item_ok body = true ->
  (List.length (flat_map item_src body ++ quote :: t) <= n)%nat ->
  readString_loop n acc (lex_at (flat_map item_src body ++ quote :: t) e) =
  (Ok (string_of_runes (acc ++ map item_char body)), lex_at t e).
Proof.
  induction body as [|i body IH]; intros n acc t e Hok Hn.
  - cbn [flat_map app map] in *. destruct n as [|n]; [simpl in Hn; lia|].
    rewrite readString_loop_S, char_lex_at_cons, Z.eqb_refl. cbn [negb andb].
    unfold readString_end. rewrite err_lex_at_cons, readChar_cons, app_nil_r.
    reflexivity.
  - simpl in Hok. apply andb_true_iff in Hok. destruct Hok as [Hi Hok].
    destruct n as [|n]; [destruct i; simpl in Hn; lia|].
    destruct i as [c|x|h1 h2 h3 h4]; [| |discriminate Hi];
      cbn [flat_map item_src map] in *.
    + simpl app in *. simpl in Hi.
      apply andb_true_iff in Hi. destruct Hi as [Hi Hb].
      apply andb_true_iff in Hi. destruct Hi as [Hc Hq].
      apply negb_true_iff in Hb, Hq. apply Z.leb_le in Hc.
      rewrite readString_loop_S, char_lex_at_cons, err_lex_at_cons, Hq, Hb.
      cbn [negb andb is_nil]. rewrite (proj2 (Z.ltb_ge c 32)) by lia.
      rewrite readChar_cons, IH by (auto; simpl in Hn; lia).
      rewrite <- app_assoc. reflexivity.
    + simpl app in *.
      rewrite readString_loop_S, char_lex_at_cons, err_lex_at_cons.
      change (backslash =? quote) with false. rewrite Z.eqb_refl.
      cbn [negb andb is_nil].
      rewrite readChar_cons, char_lex_at_cons, (escape_letter x Hi),
        readChar_cons.
      rewrite IH by (auto; simpl in Hn; lia).
      rewrite <- app_assoc. reflexivity.
Qed.

Section StringTokens.
Context {U : UnicodeTables}.

Lemma NextToken_string body t e :
  forallb item_ok body = true ->
  NextToken (lex_at (string_src body ++ t) e) =
  (mkToken TokenString (string_of_runes (map item_char body)), lex_at t e).
Proof.
  intros Hok. unfold string_src. simpl app. rewrite <- app_assoc. simpl app.
  rewrite NextToken_cons by reflexivity. change (quote =? quote) with true.
  cbv iota beta. rn_norm. cbn [Z.eqb Pos.eqb].
  unfold readString. rewrite readChar_cons.
  rewrite readString_loop_src by (auto; apply budget_lex_at).
  reflexivity.
Qed.

Lemma NextToken_ident c s t e :
  unicode_IsLetter c = true -> unicode_IsDigit c = false ->
  forallb ident_rune s = true -> delimited t ->
  NextToken (lex_at (c :: s ++ t) e) =
  (keyword (string_of_runes (c :: s)), lex_at t e).
Proof.
  intros Hc Hd Hs Ht.
  assert (head_ok (fun c => negb (ident_rune c)) t) as Hh.
  { destruct t as [|d t]; [exact I|]. simpl in *.
    rewrite (delim_not_ident d Ht). reflexivity. }
  assert (take_while ident_rune (s ++ t) = s /\
          drop_while ident_rune (s ++ t) = t) as [Htake Hdrop].
  { induction s as [|d s IH]; cbn [app take_while drop_while forallb] in *.
    - destruct t as [|d t]; [auto|]. cbn [head_ok] in Hh.
      apply negb_true_iff in Hh. cbn [take_while drop_while].
      rewrite Hh. auto.
    - apply andb_true_iff in Hs. destruct Hs as [-> Hs].
      destruct (IH Hs) as [-> ->]. auto. }
  rewrite NextToken_letter_start, readIdentifier_at by assumption.
  cbn [take_while drop_while]. unfold ident_rune at 1 3. rewrite Hc.
  cbn [orb]. rewrite Htake, Hdrop. reflexivity.
Qed.

Lemma NextToken_keyword kw t e :
  In kw ["true"; "false"; "null"] -> delimited t ->
  NextToken (lex_at (src_text kw ++ t) e) = (keyword kw, lex_at t e).
Proof.
  intros Hkw Ht. simpl in Hkw.
  destruct Hkw as [<-|[<-|[<-|[]]]].
  - exact (NextToken_ident 116 [114; 117; 101] t e eq_refl eq_refl eq_refl Ht).
  - exact (NextToken_ident 102 [97; 108; 115; 101] t e
             eq_refl eq_refl eq_refl Ht).
  - exact (NextToken_ident 110 [117; 108; 108] t e eq_refl eq_refl eq_refl Ht).
Qed.
End StringTokens.

(** ** Well-formed objects are accepted *)

Section Completeness.
Context {U : UnicodeTables}.

Lemma NewParser_NextToken t e tok t' :
  NextToken (lex_at t e) = (tok, lex_at t' e) ->
  NewParser (lex_at t e) = mkParser (lex_at t' e) tok.
Proof.
  intros H. unfold NewParser, nextToken. cbn [lexer]. rewrite H. reflexivity.
Qed.

Lemma NewParser_blank ws t e :
  blank ws -> NewParser (lex_at (ws ++ t) e) = NewParser (lex_at t e).
Proof.
  intros H. unfold NewParser, nextToken. cbn [lexer].
  rewrite NextToken_skip, (drop_while_blank ws t H), <- NextToken_skip.
  reflexivity.
Qed.

Lemma NewParser_lbrace t e :
  NewParser (lex_at (rn "{" :: t) e) =
  mkParser (lex_at t e) (mkToken TokenLeftBrace "{").
Proof. apply NewParser_NextToken. rewrite NextToken_cons; reflexivity. Qed.

Lemma NewParser_rbrace t e :
  NewParser (lex_at (rn "}" :: t) e) =
  mkParser (lex_at t e) (mkToken TokenRightBrace "}").
Proof. apply NewParser_NextToken. rewrite NextToken_cons; reflexivity. Qed.

Lemma NewParser_lbracket t e :
  NewParser (lex_at (rn "[" :: t) e) =
  mkParser (lex_at t e) (mkToken TokenLeftBracket "[").
Proof. apply NewParser_NextToken. rewrite NextToken_cons; reflexivity. Qed.

Lemma NewParser_rbracket t e :
  NewParser (lex_at (rn "]" :: t) e) =
  mkParser (lex_at t e) (mkToken TokenRightBracket "]").
Proof. apply NewParser_NextToken. rewrite NextToken_cons; reflexivity. Qed.

Lemma NewParser_colon t e :
  NewParser (lex_at (rn ":" :: t) e) =
  mkParser (lex_at t e) (mkToken TokenColon ":").
Proof. apply NewParser_NextToken. rewrite NextToken_cons; reflexivity. Qed.

Lemma NewParser_comma t e :
  NewParser (lex_at (rn "," :: t) e) =
  mkParser (lex_at t e) (mkToken TokenComma ",").
Proof. apply NewParser_NextToken. rewrite NextToken_cons; reflexivity. Qed.

Lemma NewParser_string body t e :
  forallb item_ok body = true ->
  NewParser (lex_at (string_src body ++ t) e) =
  mkParser (lex_at t e)
    (mkToken TokenString (string_of_runes (map item_char body))).
Proof. intros H. apply NewParser_NextToken, NextToken_string, H. Qed.

(** A scalar token is accepted as a value. *)
Lemma accepts_scalar text after e tok :
  NextToken (lex_at text e) = (tok, lex_at after e) ->
  In (Typ tok) [TokenString; TokenNumber; TokenBoolean; TokenNull] ->
  accepts parseValue text after e.
Proof.
  intros H Hty. exists 1%nat. intros n Hn. destruct n as [|n]; [lia|].
  rewrite (NewParser_NextToken _ _ _ _ H), parseValue_S. cbn [token].
  simpl in Hty.
  destruct Hty as [<-|[<-|[<-|[<-|[]]]]]; reflexivity.
Qed.

Lemma ParseObject_loop_Done_key n q q' :
  ParseObject_loop n q = Done None q' -> tok_is q TokenRightBrace = false.
Proof.
  destruct n as [|n]; [discriminate|]. rewrite ParseObject_loop_S.
  unfold tok_is. destruct (Typ (token q)); cbn; try discriminate; reflexivity.
Qed.

Lemma parseArray_loop_Done_value n q q' :
  parseArray_loop n q = Done None q' -> tok_is q TokenRightBracket = false.
Proof.
  destruct n as [|n]; [discriminate|]. rewrite parseArray_loop_S.
  destruct n as [|n]; [discriminate|]. rewrite parseValue_S.
  unfold tok_is. destruct (Typ (token q)); cbn; try discriminate; reflexivity.
Qed.

Lemma wf_object_head t : wf_object item_ok t -> exists t', t = rn "{" :: t'.
Proof. destruct 1; eexists; reflexivity. Qed.

Lemma wf_array_head t : wf_array item_ok t -> exists t', t = rn "[" :: t'.
Proof. destruct 1; eexists; reflexivity. Qed.

Lemma delimited_close ws c rest :
  blank ws -> In c [rn ","; rn "}"; rn "]"] -> delimited (ws ++ c :: rest).
Proof.
  intros Hws Hc. apply delimited_blank; [exact Hws|].
  simpl in Hc. destruct Hc as [<-|[<-|[<-|[]]]]; reflexivity.
Qed.

Lemma wf_accepted :
  (forall v, wf_value item_ok v ->
     forall rest e, delimited rest -> accepts parseValue (v ++ rest) rest e) /\
  (forall o, wf_object item_ok o ->
     forall rest e, accepts ParseObject (o ++ rest) rest e) /\
  (forall ms, wf_members item_ok ms ->
     forall rest e,
       accepts ParseObject_loop (ms ++ rn "}" :: rest) rest e) /\
  (forall a, wf_array item_ok a ->
     forall rest e, accepts parseArray (a ++ rest) rest e) /\
  (forall es, wf_elements item_ok es ->
     forall rest e,
       accepts parseArray_loop (es ++ rn "]" :: rest) rest e).
Proof.
  apply (wf_mutual item_ok).
  - (* string *)
    intros body Hok rest e _.
    apply (accepts_scalar _ _ _ _ (NextToken_string body rest e Hok)).
    simpl. auto.
  - (* number *)
    intros n Hn rest e Hd.
    apply (accepts_scalar _ _ _ _ (NextToken_number n rest e Hn Hd)).
    simpl. auto.
  - intros rest e Hd.
    apply (accepts_scalar _ _ _ _
             (NextToken_keyword "true" rest e (or_introl eq_refl) Hd)).
    simpl. auto.
  - intros rest e Hd.
    apply (accepts_scalar _ _ _ _
             (NextToken_keyword "false" rest e
                (or_intror (or_introl eq_refl)) Hd)).
    simpl. auto.
  - intros rest e Hd.
    apply (accepts_scalar _ _ _ _
             (NextToken_keyword "null" rest e
                (or_intror (or_intror (or_introl eq_refl))) Hd)).
    simpl. auto.
  - (* a value that is an object *)
    intros t Ht IH rest e _. destruct (IH rest e) as (k & Hk).
    destruct (wf_object_head t Ht) as (t' & ->).
    exists (S k). intros n Hn. destruct n as [|n]; [lia|].
    rewrite parseValue_S. simpl app in *.
    replace (Typ (token (NewParser (lex_at (rn "{" :: t' ++ rest) e))))
      with TokenLeftBrace by (rewrite NewParser_lbrace; reflexivity).
    apply Hk. lia.
  - (* a value that is an array *)
    intros t Ht IH rest e _. destruct (IH rest e) as (k & Hk).
    destruct (wf_array_head t Ht) as (t' & ->).
    exists (S k). intros n Hn. destruct n as [|n]; [lia|].
    rewrite parseValue_S. simpl app in *.
    replace (Typ (token (NewParser (lex_at (rn "[" :: t' ++ rest) e))))
      with TokenLeftBracket by (rewrite NewParser_lbracket; reflexivity).
    apply Hk. lia.
  - (* empty object *)
    intros ws Hws rest e. exists 1%nat. intros n Hn.
    destruct n as [|n]; [lia|]. norm_app. simpl app.
    rewrite ParseObject_S, NewParser_lbrace.
    change (tok_is _ TokenLeftBrace) with true. cbn [negb].
    rewrite !nextToken_NewParser. cbn [lexer].
    rewrite NewParser_blank, NewParser_rbrace by assumption.
    reflexivity.
  - (* object with members *)
    intros ms Hms IH rest e. destruct (IH rest e) as (k & Hk).
    exists (S k). intros n Hn. destruct n as [|n]; [lia|].
    norm_app. simpl app.
    rewrite ParseObject_S, NewParser_lbrace.
    change (tok_is _ TokenLeftBrace) with true. cbn [negb].
    rewrite !nextToken_NewParser. cbn [lexer].
    rewrite (ParseObject_loop_Done_key _ _ _ (Hk k (le_n k))).
    apply Hk. lia.
  - (* last member *)
    intros ws1 key ws2 ws3 v ws4 H1 Hkey H2 H3 Hv IHv H4 rest e.
    destruct (IHv (ws4 ++ rn "}" :: rest) e) as (k & Hk).
    { apply delimited_close; simpl; auto. }
    exists (S k). intros n Hn. destruct n as [|n]; [lia|].
    norm_app. rewrite ParseObject_loop_S.
    rewrite NewParser_blank, NewParser_string by assumption.
    change (tok_is _ TokenString) with true. cbn [negb].
    rewrite !nextToken_NewParser. cbn [lexer].
    rewrite NewParser_blank, NewParser_colon by assumption.
    change (tok_is _ TokenColon) with true. cbn [negb lexer].
    rewrite NewParser_blank by assumption.
    rewrite Hk by lia.
    rewrite NewParser_blank, NewParser_rbrace by assumption.
    reflexivity.
  - (* a member followed by more *)
    intros ws1 key ws2 ws3 v ws4 ms H1 Hkey H2 H3 Hv IHv H4 Hms IHms rest e.
    destruct (IHv (ws4 ++ rn "," :: ms ++ rn "}" :: rest) e) as (k & Hk).
    { apply delimited_close; simpl; auto. }
    destruct (IHms rest e) as (k' & Hk').
    exists (S (Nat.max k k')). intros n Hn. destruct n as [|n]; [lia|].
    norm_app. rewrite ParseObject_loop_S.
    rewrite NewParser_blank, NewParser_string by assumption.
    change (tok_is _ TokenString) with true. cbn [negb].
    rewrite !nextToken_NewParser. cbn [lexer].
    rewrite NewParser_blank, NewParser_colon by assumption.
    change (tok_is _ TokenColon) with true. cbn [negb lexer].
    rewrite NewParser_blank by assumption.
    rewrite Hk by lia.
    rewrite NewParser_blank, NewParser_comma by assumption.
    change (tok_is _ TokenRightBrace) with false.
    change (tok_is _ TokenComma) with true. cbn [negb].
    rewrite nextToken_NewParser. cbn [lexer]. apply Hk'. lia.
  - (* empty array *)
    intros ws Hws rest e. exists 1%nat. intros n Hn.
    destruct n as [|n]; [lia|]. norm_app. simpl app.
    rewrite parseArray_S, NewParser_lbracket.
    rewrite !nextToken_NewParser. cbn [lexer].
    rewrite NewParser_blank, NewParser_rbracket by assumption.
    reflexivity.
  - (* array with elements *)
    intros es Hes IH rest e. destruct (IH rest e) as (k & Hk).
    exists (S k). intros n Hn. destruct n as [|n]; [lia|].
    norm_app. simpl app.
    rewrite parseArray_S, NewParser_lbracket.
    rewrite !nextToken_NewParser. cbn [lexer].
    rewrite (parseArray_loop_Done_value _ _ _ (Hk k (le_n k))).
    apply Hk. lia.
  - (* last element *)
    intros ws1 v ws2 H1 Hv IHv H2 rest e.
    destruct (IHv (ws2 ++ rn "]" :: rest) e) as (k & Hk).
    { apply delimited_close; simpl; auto. }
    exists (S k). intros n Hn. destruct n as [|n]; [lia|].
    norm_app. rewrite parseArray_loop_S.
    rewrite NewParser_blank by assumption.
    rewrite Hk by lia.
    rewrite NewParser_blank, NewParser_rbracket by assumption.
    reflexivity.
  - (* an element followed by more *)
    intros ws1 v ws2 es H1 Hv IHv H2 Hes IHes rest e.
    destruct (IHv (ws2 ++ rn "," :: es ++ rn "]" :: rest) e) as (k & Hk).
    { apply delimited_close; simpl; auto. }
    destruct (IHes rest e) as (k' & Hk').
    exists (S (Nat.max k k')). intros n Hn. destruct n as [|n]; [lia|].
    norm_app. rewrite parseArray_loop_S.
    rewrite NewParser_blank by assumption.
    rewrite Hk by lia.
    rewrite NewParser_blank, NewParser_comma by assumption.
    change (tok_is _ TokenRightBracket) with false.
    change (tok_is _ TokenComma) with true. cbn [negb].
    rewrite nextToken_NewParser. cbn [lexer]. apply Hk'. lia.
Qed.
End Completeness.

(** ** Properties of validation *)

Section Claims.
Context {U : UnicodeTables}.

Lemma Validate_accepts t o rest e :
  accepts ParseObject o rest e ->
  NewParser (lex_at t e) = NewParser (lex_at o e) ->
  Validate (mkReader t e) = Valid.
Proof.
  intros (k & Hk) Ht. unfold Validate. rewrite NewLexer_lex_at, Ht.
  set (n := fuel_for (mkReader t e)).
  destruct (ParseObject_total (mkReader t e)) as (r & p & E).
  rewrite NewLexer_lex_at, Ht in E. fold n in E. rewrite E.
  pose proof (Hk (Nat.max k n) (Nat.le_max_l _ _)) as H1.
  pose proof (ParseObject_fuel_le n (Nat.max k n) _ _ _
                (Nat.le_max_r _ _) E) as H2.
  rewrite H1 in H2. injection H2 as <- _. reflexivity.
Qed.

Lemma wf_document_valid t e :
  wf_document item_ok t -> Validate (mkReader t e) = Valid.
Proof.
  intros (ws1 & o & ws2 & H1 & Ho & H2 & ->).
  apply (Validate_accepts _ (o ++ ws2) ws2).
  - apply (proj1 (proj2 wf_accepted) o Ho).
  - apply NewParser_blank, H1.
Qed.

Lemma Validate_more s more e e' :
  Validate (mkReader s e) = Valid ->
  Validate (mkReader (s ++ more) e') = Valid.
Proof.
  unfold Validate. rewrite !NewLexer_lex_at. intros H.
  destruct (ParseObject (fuel_for (mkReader s e)) (NewParser (lex_at s e)))
    as [|r q1] eqn:E; [discriminate H|].
  injection H as ->.
  destruct (proj1 (proj2 (proj2 (proj2 (simulation more e e' _))))
              _ (NewParser (lex_at (s ++ more) e')) _
              (follows_nextToken more e e' _ _ (follows_start more e e' s _)) E)
    as (q2 & E2 & _).
  assert (fuel_for (mkReader s e) <= fuel_for (mkReader (s ++ more) e'))%nat
    as Hle by (unfold fuel_for; cbn [pending]; rewrite length_app; lia).
  rewrite (ParseObject_fuel_le _ _ _ _ _ Hle E2). reflexivity.
Qed.
End Claims.

(** ** The companion checker on a healthy file *)

Lemma get_in_range s : forall n,
  (n < String.length s)%nat -> exists b, String.get n s = Some b.
Proof.
  induction s as [|a s IH]; intros n Hn; [simpl in Hn; lia|].
  destruct n as [|n]; simpl; [eauto|]. apply IH. simpl in Hn. lia.
Qed.

Lemma validJSON_healthy fs filename bytes :
  fs filename = inl (healthy bytes) ->
  validJSON fs filename = (first_and_last_brace bytes, None).
Proof.
  intros Hopen. unfold validJSON, os_Open. rewrite Hopen.
  unfold file_Size, file_Seek, file_Read, first_and_last_brace.
  cbn [healthy stat_err seek_err read_err contents].
  destruct bytes as [|a s]; [reflexivity|].
  set (full := String a s).
  assert (String.length full = S (String.length s)) as Hlen by reflexivity.
  replace (Z.of_nat (String.length full) =? 0) with false
    by (symmetry; apply Z.eqb_neq; lia).
  replace (Z.of_nat (String.length full) - 1 <? 0) with false
    by (symmetry; apply Z.ltb_ge; lia).
  replace (Z.to_nat (Z.of_nat (String.length full) - 1))
    with (String.length full - 1)%nat by lia.
  replace (Nat.eqb (String.length full) 0) with false by reflexivity.
  change (String.get 0 full) with (Some a). cbn [negb andb byte_is].
  destruct (Ascii.eqb a "{"); cbn [negb]; [|reflexivity].
  destruct (get_in_range full (String.length full - 1)) as (b & ->);
    [lia|].
  cbn [byte_is]. destruct (Ascii.eqb b "}"); reflexivity.
Qed.

(** ** The claims *)

(** C1 (as amended).  Every object document that is well formed under the
    grammar of the specification (whitespace; strings made of characters
    from U+0020 on other than the quote and the backslash and of the eight
    two-character escapes; numbers of the form
    -? digit+ (. digit+)? ([eE] [+-]? digit+)?; true, false and null;
    nested objects and arrays) is accepted: ParseObject on a parser
    freshly created over a lexer for that input returns success. *)
Theorem wellformed_object_accepted `{UnicodeTables} (t : list rune) :
  wf_document item_ok t -> Validate (stream t) = Valid.
Proof. apply wf_document_valid. Qed.

(** The four inputs named by C1 are well-formed documents, hence accepted. *)
Lemma wellformed_examples_accepted :
  @Validate latin1_tables (stream (src_text "{}")) = Valid /\
  @Validate latin1_tables (stream (src_text "{`a`:1}")) = Valid /\
  @Validate latin1_tables (stream (src_text "{`a`:[1,2,3]}")) = Valid /\
  @Validate latin1_tables (stream (src_text "{`a`:{`b`:null}}")) = Valid.
Proof.
  split; [|split; [|split]]; apply (@wellformed_object_accepted latin1_tables).
  - exists [], (src_text "{}"), []. repeat split.
    exact (wf_object_empty item_ok [] eq_refl).
  - exists [], (src_text "{`a`:1}"), []. repeat split.
    exact (wf_object_members item_ok _
             (wf_members_one item_ok [] [Plain 97] [] [] _ []
                eq_refl eq_refl eq_refl eq_refl
                (wf_number item_ok (mkNumber false [49] None None) eq_refl)
                eq_refl)).
  - exists [], (src_text "{`a`:[1,2,3]}"), []. repeat split.
    exact (wf_object_members item_ok _
             (wf_members_one item_ok [] [Plain 97] [] [] _ []
                eq_refl eq_refl eq_refl eq_refl
                (wf_value_array item_ok _
                   (wf_array_elements item_ok _
                      (wf_elements_more item_ok [] _ [] _ eq_refl
                         (wf_number item_ok (mkNumber false [49] None None)
                            eq_refl) eq_refl
                         (wf_elements_more item_ok [] _ [] _ eq_refl
                            (wf_number item_ok (mkNumber false [50] None None)
                               eq_refl) eq_refl
                            (wf_elements_one item_ok [] _ [] eq_refl
                               (wf_number item_ok
                                  (mkNumber false [51] None None) eq_refl)
                               eq_refl)))))
                eq_refl)).
  - exists [], (src_text "{`a`:{`b`:null}}"), []. repeat split.
    exact (wf_object_members item_ok _
             (wf_members_one item_ok [] [Plain 97] [] [] _ []
                eq_refl eq_refl eq_refl eq_refl
                (wf_value_object item_ok _
                   (wf_object_members item_ok _
                      (wf_members_one item_ok [] [Plain 98] [] [] _ []
                         eq_refl eq_refl eq_refl eq_refl
                         (wf_null item_ok) eq_refl)))
                eq_refl)).
Defined.

(** Against C1 as stated: a well-formed JSON object whose string uses the
    unicode escape of JSON is rejected, since [readString] knows only the
    eight two-character escapes. *)
Lemma unicode_escape_rejected :
  wf_document json_item (src_text "{`a`:`\u0041`}") /\
  @Validate latin1_tables (stream (src_text "{`a`:`\u0041`}")) =
  Invalid "invalid value: expected value, got invalid escape sequence: \u".
Proof.
  split.
  - exists [], (src_text "{`a`:`\u0041`}"), []. repeat split.
    exact (wf_object_members json_item _
             (wf_members_one json_item [] [Plain 97] [] [] _ []
                eq_refl eq_refl eq_refl eq_refl
                (wf_string json_item [UnicodeEsc 48 48 52 49] eq_refl)
                eq_refl)).
  - vm_compute. reflexivity.
Qed.

(** C2.  Whenever the first token of the input is not a left brace,
    ParseObject fails, and its error is the message
    expected '{', got '...' with the literal of that first token, whatever
    follows -- also for an input that is a JSON array, string or number. *)
Theorem top_level_not_object_rejected `{UnicodeTables} (input : Reader) :
  TokenType_eqb (Typ (fst (NextToken (NewLexer input)))) TokenLeftBrace
  = false ->
  Validate input =
  Invalid ("expected '{', got '"
             ++ Literal (fst (NextToken (NewLexer input))) ++ "'").
Proof.
  intros H0. unfold Validate, fuel_for.
  replace (3 * List.length (pending input) + 4)%nat
    with (S (3 * List.length (pending input) + 3)) by lia.
  rewrite ParseObject_S. unfold tok_is, NewParser, nextToken. cbn [lexer].
  destruct (NextToken (NewLexer input)) as [tok l]. cbn [token fst] in *.
  rewrite H0. reflexivity.
Qed.

Lemma top_level_not_object_examples :
  @Validate latin1_tables (stream (src_text "[1,2]")) =
    Invalid "expected '{', got '['" /\
  @Validate latin1_tables (stream (src_text "`abc`")) =
    Invalid "expected '{', got 'abc'" /\
  @Validate latin1_tables (stream (src_text "42")) =
    Invalid "expected '{', got '42'".
Proof.
  split; [|split].
  - apply (@top_level_not_object_rejected latin1_tables
             (stream (src_text "[1,2]"))). reflexivity.
  - apply (@top_level_not_object_rejected latin1_tables
             (stream (src_text "`abc`"))). reflexivity.
  - apply (@top_level_not_object_rejected latin1_tables
             (stream (src_text "42"))). reflexivity.
Defined.



(** What is left after the root object: the token that follows its closing
    brace has been loaded as lookahead, unexamined, and the text after that
    token is unread. *)
Lemma trailing_text_lookahead :
  @ParseObject latin1_tables (fuel_for (stream (src_text "{} x y")))
    (@NewParser latin1_tables (NewLexer (stream (src_text "{} x y")))) =
  Done None
    (mkParser (lex_at (src_text " y") EOF)
       (mkToken TokenError "invalid identifier: x")).
Proof. vm_compute. reflexivity. Qed.

(** C4.  On the input with a trailing comma before the closing brace,
    ParseObject fails with the error expected string key, got }: the comma
    has been consumed, and the token rejected as a key is the closing
    brace. *)
Theorem trailing_comma_rejected `{UnicodeTables} :
  ParseObject (fuel_for (stream (src_text "{`a`:1,}")))
    (NewParser (NewLexer (stream (src_text "{`a`:1,}")))) =
  Done (Some "expected string key, got }")
    (mkParser (lex_at [] EOF) (mkToken TokenRightBrace "}")) /\
  Validate (stream (src_text "{`a`:1,}")) =
  Invalid "expected string key, got }".
Proof. split; vm_compute; reflexivity. Qed.

(** C5.  Tokenizing a string literal made of ordinary characters and
    supported escapes yields a String token whose literal is the decoded
    text, each escape replaced by the character it stands for (a tab for
    backslash t, a newline for backslash n); and an object whose member
    value is such a string validates. *)
Theorem string_escapes_decoded `{UnicodeTables}
    (body : list str_item) (t : list rune) (e : ioerr) :
  forallb item_ok body = true ->
  NextToken (lex_at (string_src body ++ t) e) =
    (mkToken TokenString (string_of_runes (map item_char body)), lex_at t e) /\
  Validate (stream (src_text "{`a`: " ++ string_src body ++ src_text "}")) =
    Valid.
Proof.
  intros Hok. split; [apply NextToken_string, Hok|].
  apply wf_document_valid.
  exists [], (src_text "{`a`: " ++ string_src body ++ src_text "}"), [].
  split; [reflexivity|]. split; [|split; [reflexivity|]].
  - apply (wf_object_members item_ok
             (src_text "`a`: " ++ string_src body)).
    replace (src_text "`a`: " ++ string_src body)
      with ([] ++ string_src [Plain 97] ++ [] ++ rn ":" :: [32]
               ++ string_src body ++ [])
      by (rewrite app_nil_r; reflexivity).
    apply wf_members_one; try reflexivity. apply wf_string, Hok.
  - rewrite app_nil_r. reflexivity.
Qed.

Lemma string_escapes_examples :
  @NextToken latin1_tables (NewLexer (stream (src_text "`a\tb`"))) =
    (mkToken TokenString (String "a" (String tab_char (String "b" ""))),
     lex_at [] EOF) /\
  @NextToken latin1_tables (NewLexer (stream (src_text "`line\nbreak`"))) =
    (mkToken TokenString ("line" ++ String newline_char "break"),
     lex_at [] EOF) /\
  @Validate latin1_tables (stream (src_text "{`a`: `line\nbreak`}")) = Valid.
Proof.
  split; [|split].
  - apply (@string_escapes_decoded latin1_tables
             [Plain 97; Escaped 116; Plain 98] [] EOF). reflexivity.
  - apply (@string_escapes_decoded latin1_tables
             (map Plain (src_text "line") ++ Escaped 110
                :: map Plain (src_text "break")) [] EOF). reflexivity.
  - apply (@string_escapes_decoded latin1_tables
             (map Plain (src_text "line") ++ Escaped 110
                :: map Plain (src_text "break")) [] EOF). reflexivity.
Defined.

(** *** Invalid escapes *)

Lemma escape_other c :
  existsb (Z.eqb c) escape_letters = false -> escape c = None.
Proof.
  unfold escape_letters, escape. cbn [existsb]. intros H.
  repeat (apply orb_false_iff in H; destruct H as [?E H]).
  rewrite E, E0, E1, E2, E3, E4, E5, E6. reflexivity.
Qed.

Lemma readString_loop_bad_escape prefix c rest e : forall n acc,
  forallb item_ok prefix = true ->
  existsb (Z.eqb c) escape_letters = false ->
  (List.length (flat_map item_src prefix ++ backslash :: c :: rest) <= n)%nat ->
  readString_loop n acc
    (lex_at (flat_map item_src prefix ++ backslash :: c :: rest) e) =
  (Err ("invalid escape sequence: \" ++ utf8_rune c), lex_at (c :: rest) e).
Proof.
  induction prefix as [|i prefix IH]; intros n acc Hok Hc Hn.
  - cbn [flat_map app] in *. destruct n as [|n]; [simpl in Hn; lia|].
    rewrite readString_loop_S, char_lex_at_cons, err_lex_at_cons.
    change (backslash =? quote) with false. rewrite Z.eqb_refl.
    cbn [negb andb is_nil].
    rewrite readChar_cons, char_lex_at_cons, (escape_other c Hc). reflexivity.
  - simpl in Hok. apply andb_true_iff in Hok. destruct Hok as [Hi Hok].
    destruct n as [|n]; [destruct i; simpl in Hn; lia|].
    destruct i as [d|x|h1 h2 h3 h4]; [| |discriminate Hi];
      cbn [flat_map item_src] in *.
    + simpl app in *. simpl in Hi.
      apply andb_true_iff in Hi. destruct Hi as [Hi Hb].
      apply andb_true_iff in Hi. destruct Hi as [Hd Hq].
      apply negb_true_iff in Hb, Hq. apply Z.leb_le in Hd.
      rewrite readString_loop_S, char_lex_at_cons, err_lex_at_cons, Hq, Hb.
      cbn [negb andb is_nil]. rewrite (proj2 (Z.ltb_ge d 32)) by lia.
      rewrite readChar_cons. apply IH; auto. simpl in Hn. lia.
    + simpl app in *.
      rewrite readString_loop_S, char_lex_at_cons, err_lex_at_cons.
      change (backslash =? quote) with false. rewrite Z.eqb_refl.
      cbn [negb andb is_nil].
      rewrite readChar_cons, char_lex_at_cons, (escape_letter x Hi),
        readChar_cons.
      apply IH; auto. simpl in Hn. lia.
Qed.

(** *** Identifiers, end of input, numbers *)

Lemma take_while_all f t : forallb f (take_while f t) = true.
Proof.
  induction t as [|c t IH]; simpl; [reflexivity|].
  destruct (f c) eqn:E; simpl; [rewrite E; exact IH|reflexivity].
Qed.

Lemma drop_while_stops f t : head_ok (fun c => negb (f c)) (drop_while f t).
Proof.
  induction t as [|c t IH]; simpl; [exact I|].
  destruct (f c) eqn:E; [exact IH|]. simpl. rewrite E. reflexivity.
Qed.

(** C7.  On a letter, identifier scanning reads the longest run of letters
    and underscores and then classifies it: exactly true and false give a
    Boolean token, exactly null gives a Null token, and every other
    identifier gives a TokenError token whose literal carries the text;
    so the input with the member value tru fails validation. *)
Theorem identifier_classified `{UnicodeTables}
    (c : rune) (t : list rune) (e : ioerr) :
  unicode_IsLetter c = true -> unicode_IsDigit c = false ->
  let run := take_while ident_rune (c :: t) in
  let rest := drop_while ident_rune (c :: t) in
  let text := string_of_runes run in
  let tok := fst (NextToken (lex_at (c :: t) e)) in
  (run ++ rest = c :: t /\ forallb ident_rune run = true /\
   head_ok (fun d => negb (ident_rune d)) rest) /\
  snd (NextToken (lex_at (c :: t) e)) = lex_at rest e /\
  (text = "true" \/ text = "false" -> tok = mkToken TokenBoolean text) /\
  (text = "null" -> tok = mkToken TokenNull text) /\
  (text <> "true" -> text <> "false" -> text <> "null" ->
   tok = mkToken TokenError ("invalid identifier: " ++ text)) /\
  Validate (stream (src_text "{`a`: tru}")) =
    Invalid "invalid value: expected value, got invalid identifier: tru".
Proof.
  intros Hc Hd run rest text tok.
  split; [|split; [|split; [|split; [|split]]]].
  - split; [apply take_drop_while|].
    split; [apply take_while_all|apply drop_while_stops].
  - rewrite NextToken_letter_start, readIdentifier_at by assumption.
    reflexivity.
  - unfold tok.
    rewrite NextToken_letter_start, readIdentifier_at by assumption.
    cbn [fst]. fold run text. unfold keyword.
    intros [E|E]; rewrite E; reflexivity.
  - unfold tok.
    rewrite NextToken_letter_start, readIdentifier_at by assumption.
    cbn [fst]. fold run text. unfold keyword. intros E; rewrite E; reflexivity.
  - unfold tok.
    rewrite NextToken_letter_start, readIdentifier_at by assumption.
    cbn [fst]. fold run text. unfold keyword. intros E1 E2 E3.
    apply String.eqb_neq in E1, E2, E3. rewrite E1, E2, E3. reflexivity.
  - vm_compute. reflexivity.
Qed.

Lemma identifier_example :
  fst (@NextToken latin1_tables (lex_at (src_text "tru}") EOF)) =
    mkToken TokenError "invalid identifier: tru" /\
  snd (@NextToken latin1_tables (lex_at (src_text "tru}") EOF)) =
    lex_at (src_text "}") EOF /\
  fst (@NextToken latin1_tables (lex_at (src_text "true}") EOF)) =
    mkToken TokenBoolean "true" /\
  fst (@NextToken latin1_tables (lex_at (src_text "null,") EOF)) =
    mkToken TokenNull "null".
Proof.
  split; [|split; [|split]].
  - apply (@identifier_classified latin1_tables (rn "t") (src_text "ru}") EOF
             eq_refl eq_refl); discriminate.
  - apply (@identifier_classified latin1_tables (rn "t") (src_text "ru}") EOF
             eq_refl eq_refl).
  - apply (@identifier_classified latin1_tables (rn "t") (src_text "rue}") EOF
             eq_refl eq_refl). left. reflexivity.
  - apply (@identifier_classified latin1_tables (rn "n") (src_text "ull,") EOF
             eq_refl eq_refl). reflexivity.
Defined.

Lemma NextToken_n_at `{UnicodeTables} k : forall t e,
  exists t', snd (NextToken_n k (lex_at t e)) = lex_at t' e.
Proof.
  induction k as [|k IH]; intros t e.
  - exists t. reflexivity.
  - destruct (NextToken_local t e) as (tok & t1 & E & _).
    destruct (IH t1 e) as (t' & E'). exists t'.
    cbn [NextToken_n]. rewrite E.
    destruct (NextToken_n k (lex_at t1 e)) as [toks l2]. exact E'.
Qed.

Lemma NextToken_n_end `{UnicodeTables} n :
  NextToken_n n (lex_at [] EOF) = (repeat EOF_token n, lex_at [] EOF).
Proof.
  induction n as [|n IH]; [reflexivity|].
  cbn [NextToken_n repeat]. rewrite NextToken_nil, IH. reflexivity.
Qed.

(** C8.  Once the lexer has met the clean end of its stream, after any
    number of calls on any input, every further call of NextToken returns
    the EndOfInput token and leaves the lexer state unchanged. *)
Theorem end_of_input_idempotent `{UnicodeTables}
    (input : Reader) (k n : nat) :
  let l := snd (NextToken_n k (NewLexer input)) in
  err l = Some EOF ->
  NextToken l = (EOF_token, l) /\
  NextToken_n n l = (repeat EOF_token n, l).
Proof.
  intros l Hl. destruct input as [t e].
  destruct (NextToken_n_at k t e) as (t' & E).
  unfold l in *. rewrite NewLexer_lex_at in *. rewrite E in *.
  destruct t' as [|c t']; [|discriminate Hl].
  injection Hl as ->. split; [apply NextToken_nil|apply NextToken_n_end].
Qed.

Lemma end_of_input_example :
  err after_empty_object = Some EOF /\
  @NextToken latin1_tables after_empty_object =
    (EOF_token, after_empty_object) /\
  @NextToken_n latin1_tables 3 after_empty_object =
    ([EOF_token; EOF_token; EOF_token], after_empty_object).
Proof.
  split; [reflexivity|].
  apply (@end_of_input_idempotent latin1_tables (stream (src_text "{}")) 2 3).
  reflexivity.
Defined.

(** *** The first-and-last-byte checker *)

Lemma get_last s : forall b,
  String.get (String.length s) (s ++ String b "") = Some b.
Proof. induction s as [|a s IH]; intros b; simpl; [reflexivity|apply IH]. Qed.

Lemma length_append_one s b :
  String.length (s ++ String b "") = S (String.length s).
Proof.
  induction s as [|a s IH]; simpl; [reflexivity|rewrite IH; reflexivity].
Qed.

Lemma first_and_last_brace_spec bytes :
  first_and_last_brace bytes = true <->
  bytes <> "" /\ String.get 0 bytes = Some "{"%char /\
  String.get (String.length bytes - 1) bytes = Some "}"%char.
Proof.
  unfold first_and_last_brace. split.
  - intros H. apply andb_true_iff in H. destruct H as [H H3].
    apply andb_true_iff in H. destruct H as [H1 H2].
    split; [intros ->; simpl in H1; discriminate H1|].
    split.
    + destruct (String.get 0 bytes) as [a|]; [|discriminate H2].
      apply Ascii.eqb_eq in H2. congruence.
    + destruct (String.get (String.length bytes - 1) bytes) as [a|];
        [|discriminate H3].
      apply Ascii.eqb_eq in H3. congruence.
  - intros (H1 & H2 & H3). rewrite H2, H3. cbn [byte_is].
    rewrite !Ascii.eqb_refl. destruct bytes; [congruence|reflexivity].
Qed.

Lemma first_and_last_brace_interior interior :
  first_and_last_brace (String "{" (interior ++ "}")) = true.
Proof.
  apply first_and_last_brace_spec. split; [discriminate|].
  split; [reflexivity|].
  change (String "{" (interior ++ "}"))
    with ((String "{" interior) ++ String "}" "")%string.
  rewrite length_append_one. cbn [Nat.sub]. rewrite Nat.sub_0_r.
  apply get_last.
Qed.

(** C9.  When no file operation fails, validJSON returns true exactly when
    the file is not empty, its first byte is an opening brace and its
    last byte is a closing brace; the bytes in between play no part, so
    any file of that shape is reported valid, whatever its interior. *)
Theorem validJSON_first_and_last_byte
    (fs : FileSystem) (filename bytes : string) :
  fs filename = inl (healthy bytes) ->
  validJSON fs filename = (first_and_last_brace bytes, None) /\
  (first_and_last_brace bytes = true <->
   bytes <> "" /\ String.get 0 bytes = Some "{"%char /\
   String.get (String.length bytes - 1) bytes = Some "}"%char) /\
  (forall interior, bytes = String "{" (interior ++ "}") ->
   validJSON fs filename = (true, None)).
Proof.
  intros Hopen. split; [apply validJSON_healthy, Hopen|].
  split; [apply first_and_last_brace_spec|].
  intros interior ->. rewrite (validJSON_healthy _ _ _ Hopen).
  rewrite first_and_last_brace_interior. reflexivity.
Qed.

(** A file of the right shape whose interior is no JSON: reported valid by
    [validJSON], rejected by the grammar checker. *)
Lemma validJSON_malformed_interior :
  validJSON (fun _ => inl (healthy "{ not json }")) "data.json" =
    (true, None) /\
  @Validate latin1_tables (stream (src_text "{ not json }")) =
    Invalid "expected string key, got invalid identifier: not".
Proof.
  split.
  - apply (proj2 (proj2 (validJSON_first_and_last_byte
                           (fun _ => inl (healthy "{ not json }")) "data.json"
                           "{ not json }" eq_refl)) " not json " eq_refl).
  - reflexivity.
Defined.

(** C10.  Number scanning never produces a lexical error: on a digit or a
    minus sign NextToken returns a Number token whose literal is whatever
    readNumber has gathered, a valid number or not.  A lone minus sign
    before a closing brace gives the Number token with literal -, and the
    objects whose member value is -, 1. or 3e validate. *)
Theorem number_scanning_never_fails `{UnicodeTables}
    (c : rune) (t : list rune) (e : ioerr) :
  unicode_IsDigit c || (c =? rn "-") = true ->
  NextToken (lex_at (c :: t) e) =
    (mkToken TokenNumber (fst (readNumber (lex_at (c :: t) e))),
     snd (readNumber (lex_at (c :: t) e))) /\
  NextToken (lex_at (src_text "-}") e) =
    (mkToken TokenNumber "-", lex_at (src_text "}") e) /\
  Validate (stream (src_text "{`a`:-}")) = Valid /\
  Validate (stream (src_text "{`a`:1.}")) = Valid /\
  Validate (stream (src_text "{`a`:3e}")) = Valid.
Proof.
  intros Hc. split.
  - rewrite NextToken_number_start by assumption.
    destruct (readNumber (lex_at (c :: t) e)). reflexivity.
  - split; [reflexivity|]. repeat split; vm_compute; reflexivity.
Qed.

Lemma number_scanning_examples :
  @NextToken latin1_tables (lex_at (src_text "1.}") EOF) =
    (mkToken TokenNumber "1.", lex_at (src_text "}") EOF) /\
  @NextToken latin1_tables (lex_at (src_text "3e}") EOF) =
    (mkToken TokenNumber "3e", lex_at (src_text "}") EOF) /\
  @NextToken latin1_tables (lex_at (src_text "-}") EOF) =
    (mkToken TokenNumber "-", lex_at (src_text "}") EOF) /\
  @Validate latin1_tables (stream (src_text "{`a`:-}")) = Valid.
Proof.
  split; [|split; [|split]].
  - apply (@number_scanning_never_fails latin1_tables
             (rn "1") (src_text ".}") EOF eq_refl).
  - apply (@number_scanning_never_fails latin1_tables
             (rn "3") (src_text "e}") EOF eq_refl).
  - apply (@number_scanning_never_fails latin1_tables
             (rn "-") (src_text "}") EOF eq_refl).
  - apply (@number_scanning_never_fails latin1_tables
             (rn "-") (src_text "}") EOF eq_refl).
Defined.

(** * Further properties of the code *)

(** ** Termination and the verdict *)


(** ** What is accepted is an object *)

Section TokenSoundness.
Context {U : UnicodeTables}.

Lemma advance_add a : forall b p,
  advance (a + b) p = advance b (advance a p).
Proof. induction a as [|a IH]; intros b p; [reflexivity|apply IH]. Qed.

Lemma consumed_add a : forall b p,
  consumed (a + b) p = consumed a p ++ consumed b (advance a p).
Proof.
  induction a as [|a IH]; intros b p; [reflexivity|].
  cbn [Nat.add consumed advance app]. rewrite IH. reflexivity.
Qed.

Lemma advance_S k p : advance (S k) p = advance k (nextToken p).
Proof. reflexivity. Qed.

Lemma advance_end k p : advance (k + 1) p = nextToken (advance k p).
Proof. rewrite advance_add. reflexivity. Qed.

Lemma consumed_end k p :
  consumed (k + 1) p = consumed k p ++ [Typ (token (advance k p))].
Proof. rewrite consumed_add. reflexivity. Qed.

Lemma tok_is_Typ p ty : tok_is p ty = true -> Typ (token p) = ty.
Proof. apply TokenType_eqb_eq. Qed.

(** Each parser method that succeeds has moved past a token sequence of
    its production. *)
Lemma parsed_tokens n :
  (forall p q, parseValue n p = Done None q ->
     exists k, q = advance k p /\ tok_value (consumed k p)) /\
  (forall p q, parseArray n p = Done None q ->
     exists k ts, q = advance k p /\
       consumed k p = Typ (token p) :: ts /\
       (ts = [TokenRightBracket] \/
        exists es, tok_elements es /\ ts = es ++ [TokenRightBracket])) /\
  (forall p q, parseArray_loop n p = Done None q ->
     exists k es, q = advance k p /\ tok_elements es /\
       consumed k p = es ++ [TokenRightBracket]) /\
  (forall p q, ParseObject n p = Done None q ->
     exists k, q = advance k p /\ tok_object (consumed k p)) /\
  (forall p q, ParseObject_loop n p = Done None q ->
     exists k ms, q = advance k p /\ tok_members ms /\
       consumed k p = ms ++ [TokenRightBrace]).
Proof.
  induction n as [|n (IHv & IHa & IHal & IHo & IHol)].
  { repeat split; intros p q H; discriminate H. }
  repeat split; intros p q H.
  - (* parseValue *)
    rewrite parseValue_S in H.
    destruct (Typ (token p)) eqn:Ht; try discriminate H.
    + destruct (IHo _ _ H) as (k & -> & Hk). exists k.
      split; [reflexivity|]. apply tok_value_object, Hk.
    + destruct (IHa _ _ H) as (k & ts & -> & Hc & Hts). exists k.
      split; [reflexivity|]. rewrite Hc, Ht. apply tok_value_array.
      destruct Hts as [->|(es & Hes & ->)]; constructor. exact Hes.
    + injection H as <-. exists 1%nat. split; [reflexivity|].
      cbn [consumed]. rewrite Ht. constructor.
    + injection H as <-. exists 1%nat. split; [reflexivity|].
      cbn [consumed]. rewrite Ht. constructor.
    + injection H as <-. exists 1%nat. split; [reflexivity|].
      cbn [consumed]. rewrite Ht. constructor.
    + injection H as <-. exists 1%nat. split; [reflexivity|].
      cbn [consumed]. rewrite Ht. constructor.
  - (* parseArray *)
    rewrite parseArray_S in H.
    destruct (tok_is (nextToken p) TokenRightBracket) eqn:Hb.
    + injection H as <-. exists 2%nat, [TokenRightBracket].
      split; [reflexivity|]. cbn [consumed].
      rewrite (tok_is_Typ _ _ Hb). auto.
    + destruct (IHal _ _ H) as (k & es & -> & Hes & Hc).
      exists (S k), (es ++ [TokenRightBracket]).
      split; [reflexivity|]. cbn [consumed]. rewrite Hc. eauto.
  - (* parseArray_loop *)
    rewrite parseArray_loop_S in H.
    destruct (parseValue n p) as [|[msg|] p1] eqn:E; try discriminate H.
    destruct (IHv _ _ E) as (kv & -> & Hv).
    destruct (tok_is (advance kv p) TokenRightBracket) eqn:Hb.
    + injection H as <-. exists (kv + 1)%nat, (consumed kv p).
      split; [symmetry; apply advance_end|].
      split; [apply tok_elements_one, Hv|].
      rewrite consumed_end, (tok_is_Typ _ _ Hb). reflexivity.
    + destruct (tok_is (advance kv p) TokenComma) eqn:Hc; [|discriminate H].
      cbn [negb] in H.
      destruct (IHal _ _ H) as (k & es & -> & Hes & Hk).
      exists (kv + S k)%nat, (consumed kv p ++ TokenComma :: es).
      split; [rewrite advance_add; reflexivity|].
      split; [apply tok_elements_more; assumption|].
      rewrite consumed_add. cbn [consumed].
      rewrite (tok_is_Typ _ _ Hc), Hk, <- app_assoc. reflexivity.
  - (* ParseObject *)
    rewrite ParseObject_S in H.
    destruct (tok_is p TokenLeftBrace) eqn:Hl; [|discriminate H].
    cbn [negb] in H.
    destruct (tok_is (nextToken p) TokenRightBrace) eqn:Hb.
    + injection H as <-. exists 2%nat. split; [reflexivity|].
      cbn [consumed].
      rewrite (tok_is_Typ _ _ Hl), (tok_is_Typ _ _ Hb). constructor.
    + destruct (IHol _ _ H) as (k & ms & -> & Hms & Hc).
      exists (S k). split; [reflexivity|]. cbn [consumed].
      rewrite (tok_is_Typ _ _ Hl), Hc. constructor. exact Hms.
  - (* ParseObject_loop *)
    rewrite ParseObject_loop_S in H.
    destruct (tok_is p TokenString) eqn:Hs; [|discriminate H].
    destruct (tok_is (nextToken p) TokenColon) eqn:Hc; [|discriminate H].
    cbn [negb] in H.
    destruct (parseValue n (nextToken (nextToken p))) as [|[msg|] p1] eqn:E;
      try discriminate H.
    destruct (IHv _ _ E) as (kv & -> & Hv).
    change (nextToken (nextToken p)) with (advance 2 p) in *.
    rewrite <- advance_add in H.
    assert (consumed (2 + kv) p =
            TokenString :: TokenColon :: consumed kv (advance 2 p)) as Hpre.
    { cbn [Nat.add consumed advance].
      rewrite (tok_is_Typ _ _ Hs), (tok_is_Typ _ _ Hc). reflexivity. }
    destruct (tok_is (advance (2 + kv) p) TokenRightBrace) eqn:Hb.
    + injection H as <-.
      exists (2 + kv + 1)%nat,
             (TokenString :: TokenColon :: consumed kv (advance 2 p)).
      split; [exact (eq_sym (advance_end (2 + kv) p))|].
      split; [apply tok_members_one, Hv|].
      rewrite (consumed_end (2 + kv)), Hpre, (tok_is_Typ _ _ Hb). reflexivity.
    + destruct (tok_is (advance (2 + kv) p) TokenComma) eqn:Hm;
        [|discriminate H].
      cbn [negb] in H.
      destruct (IHol _ _ H) as (k & ms & -> & Hms & Hk).
      exists ((2 + kv) + S k)%nat,
             (TokenString :: TokenColon
                :: consumed kv (advance 2 p) ++ TokenComma :: ms).
      split; [rewrite (advance_add (2 + kv)), advance_add; reflexivity|].
      split; [apply tok_members_more; assumption|].
      rewrite (consumed_add (2 + kv)), Hpre. cbn [consumed].
      rewrite (tok_is_Typ _ _ Hm), Hk. cbn [app].
      rewrite <- app_assoc. reflexivity.
Qed.

Lemma consumed_NextToken_n k : forall l,
  consumed k (NewParser l) = map Typ (fst (NextToken_n k l)).
Proof.
  induction k as [|k IH]; intros l; [reflexivity|].
  cbn [consumed NextToken_n]. rewrite nextToken_NewParser, IH.
  unfold NewParser, nextToken. cbn [lexer].
  destruct (NextToken l) as [tok l1]. cbn [token lexer].
  destruct (NextToken_n k l1) as [toks l2]. reflexivity.
Qed.
End TokenSoundness.

(** X2.  Whatever ParseObject accepts begins with an object: the kinds of
    the first tokens of an accepted input form a token sequence of the
    object production of the grammar. *)
Theorem accepted_is_object `{UnicodeTables} (input : Reader) :
  Validate input = Valid ->
  exists k, tok_object (map Typ (fst (NextToken_n k (NewLexer input)))).
Proof.
  unfold Validate. intros Hv.
  destruct (ParseObject (fuel_for input) (NewParser (NewLexer input)))
    as [|[msg|] q] eqn:E; try discriminate Hv.
  destruct (proj1 (proj2 (proj2 (proj2 (parsed_tokens _)))) _ _ E)
    as (k & _ & Hk).
  exists k. rewrite <- consumed_NextToken_n. exact Hk.
Qed.

Lemma accepted_is_object_example :
  exists k,
    tok_object
      (map Typ (fst (@NextToken_n latin1_tables k
                       (NewLexer (stream (src_text "{`a`:[1]} x")))))).
Proof.
  apply (@accepted_is_object latin1_tables
           (stream (src_text "{`a`:[1]} x"))).
  reflexivity.
Defined.

(** X3.  A read fault is never reported as such.  Whether the stream ends
    cleanly or breaks with a read error, the same texts are accepted: the
    verdict Valid does not depend on how the stream ends. *)
Theorem accepted_whatever_the_ending `{UnicodeTables} (s : list rune) :
  Validate (mkReader s EOF) = Valid <-> Validate (mkReader s ReadFault) = Valid.
Proof.
  split; intros Hv.
  - rewrite <- (app_nil_r s). exact (Validate_more s [] EOF ReadFault Hv).
  - rewrite <- (app_nil_r s). exact (Validate_more s [] ReadFault EOF Hv).
Qed.

(** X4.  Whitespace before the document is insignificant: the verdict on
    a text preceded by spaces, tabs, newlines and carriage returns is the
    verdict on the text, error message included. *)
Theorem leading_whitespace_ignored `{UnicodeTables}
    (ws t : list rune) (e : ioerr) :
  blank ws -> Validate (mkReader (ws ++ t) e) = Validate (mkReader t e).
Proof.
  intros Hws. unfold Validate. rewrite !NewLexer_lex_at.
  rewrite (NewParser_blank ws t e Hws).
  destruct (ParseObject_total (mkReader t e)) as (r & p & E).
  rewrite NewLexer_lex_at in E. rewrite E.
  rewrite (ParseObject_fuel_le (fuel_for (mkReader t e))
             (fuel_for (mkReader (ws ++ t) e)) _ _ _ ltac:(
               unfold fuel_for; cbn [pending]; rewrite length_app; lia) E).
  reflexivity.
Qed.

Lemma leading_whitespace_example :
  @Validate latin1_tables (stream ([32; 10; 9; 13] ++ src_text "{`a`:1 2}")) =
  Invalid "expected ',' or '}', got '2'".
Proof.
  exact (eq_trans
           (@leading_whitespace_ignored latin1_tables
              [32; 10; 9; 13] (src_text "{`a`:1 2}") EOF eq_refl)
           eq_refl).
Defined.

(** ** Errors of the object parser *)

Lemma prefix_append s t : String.prefix s (s ++ t) = true.
Proof.
  induction s as [|a s IH]; simpl; [destruct t; reflexivity|].
  destruct (ascii_dec a a); [exact IH|congruence].
Qed.

Lemma fail_message m p msg q : fail m p = Done (Some msg) q -> msg = m.
Proof. unfold fail. intros E. injection E as E _. auto. Qed.

Section ObjectErrors.
Context {U : UnicodeTables}.

Lemma ParseObject_error_form n :
  (forall p msg q, ParseObject n p = Done (Some msg) q ->
     has_error_form msg = true) /\
  (forall p msg q, ParseObject_loop n p = Done (Some msg) q ->
     has_error_form msg = true).
Proof.
  induction n as [|n (IHo & IHol)].
  { split; intros p msg q H; discriminate H. }
  split; intros p msg q H.
  - rewrite ParseObject_S in H.
    destruct (negb (tok_is p TokenLeftBrace)).
    + apply fail_message in H. subst msg.
      unfold has_error_form, error_forms.
      cbn [existsb]. rewrite prefix_append. reflexivity.
    + destruct (tok_is (nextToken p) TokenRightBrace); [discriminate H|].
      exact (IHol _ _ _ H).
  - rewrite ParseObject_loop_S in H.
    unfold has_error_form, error_forms. cbn [existsb].
    destruct (negb (tok_is p TokenString)).
    { apply fail_message in H. subst msg.
      rewrite prefix_append, !orb_true_r. reflexivity. }
    destruct (negb (tok_is (nextToken p) TokenColon)).
    { apply fail_message in H. subst msg.
      rewrite prefix_append, !orb_true_r. reflexivity. }
    destruct (parseValue n (nextToken (nextToken p))) as [|[m|] p1];
      [discriminate H| |].
    { apply fail_message in H. subst msg.
      rewrite prefix_append, !orb_true_r. reflexivity. }
    destruct (tok_is p1 TokenRightBrace); [discriminate H|].
    destruct (negb (tok_is p1 TokenComma)).
    { apply fail_message in H. subst msg.
      rewrite prefix_append, !orb_true_r. reflexivity. }
    exact (IHol _ _ _ H).
Qed.
End ObjectErrors.

(** X5.  Every rejection carries one of five messages: the error of
    ParseObject on any input begins with expected '{', expected string key,
    expected ':', invalid value: or expected ',' or '}'; the errors of
    values and arrays reach the caller only wrapped in invalid value:. *)
Theorem rejection_messages `{UnicodeTables} (input : Reader) (msg : string) :
  Validate input = Invalid msg -> has_error_form msg = true.
Proof.
  unfold Validate. intros Hv.
  destruct (ParseObject (fuel_for input) (NewParser (NewLexer input)))
    as [|[m|] q] eqn:E; try discriminate Hv.
  injection Hv as <-. exact (proj1 (ParseObject_error_form _) _ _ _ E).
Qed.

Lemma rejection_messages_example :
  has_error_form
    "invalid value: expected ',' or ']', got 'invalid identifier: x'" = true.
Proof.
  apply (@rejection_messages latin1_tables (stream (src_text "{`a`:[1 x]}"))).
  reflexivity.
Defined.

Lemma NewParser_fst `{UnicodeTables} l :
  NewParser l = mkParser (snd (NextToken l)) (fst (NextToken l)).
Proof.
  unfold NewParser, nextToken. cbn [lexer].
  destruct (NextToken l); reflexivity.
Qed.

(** X6.  A key must be a string: when the token after the opening brace
    is neither a string nor the closing brace (a number, a bare word, a
    comma, the end of the input, ...), ParseObject fails with
    expected string key, got and the literal of that token. *)
Theorem key_must_be_string `{UnicodeTables} (t : list rune) (e : ioerr) :
  negb (TokenType_eqb (Typ (fst (NextToken (lex_at t e)))) TokenString)
  && negb (TokenType_eqb (Typ (fst (NextToken (lex_at t e)))) TokenRightBrace)
  = true ->
  Validate (mkReader (rn "{" :: t) e) =
  Invalid ("expected string key, got " ++ Literal (fst (NextToken (lex_at t e)))).
Proof.
  intros Hk. apply andb_true_iff in Hk. destruct Hk as [Hs Hb].
  apply negb_true_iff in Hs, Hb.
  unfold Validate, fuel_for. rewrite NewLexer_lex_at. cbn [pending].
  set (doc := rn "{" :: t).
  replace (3 * List.length doc + 4)%nat
    with (S (S (3 * List.length doc + 2))) by lia.
  unfold doc. rewrite ParseObject_S, NewParser_lbrace.
  change (tok_is _ TokenLeftBrace) with true. cbn [negb].
  rewrite !nextToken_NewParser. cbn [lexer]. rewrite NewParser_fst.
  unfold tok_is at 1. cbn [token]. rewrite Hb.
  rewrite ParseObject_loop_S. unfold tok_is at 1. cbn [token]. rewrite Hs.
  reflexivity.
Qed.

Lemma key_must_be_string_examples :
  @Validate latin1_tables (stream (src_text "{1:2}")) =
    Invalid "expected string key, got 1" /\
  @Validate latin1_tables (stream (src_text "{a:1}")) =
    Invalid "expected string key, got invalid identifier: a" /\
  @Validate latin1_tables (stream (src_text "{")) =
    Invalid "expected string key, got ".
Proof.
  split; [|split].
  - apply (@key_must_be_string latin1_tables (src_text "1:2}") EOF).
    reflexivity.
  - apply (@key_must_be_string latin1_tables (src_text "a:1}") EOF).
    reflexivity.
  - apply (@key_must_be_string latin1_tables [] EOF). reflexivity.
Defined.

(** X7.  A key must be followed by a colon: when the token after a string
    key is anything else, ParseObject fails with expected ':', got and the
    quoted literal of that token. *)
Theorem key_needs_colon `{UnicodeTables}
    (key : list str_item) (t : list rune) (e : ioerr) :
  forallb item_ok key = true ->
  TokenType_eqb (Typ (fst (NextToken (lex_at t e)))) TokenColon = false ->
  Validate (mkReader (rn "{" :: string_src key ++ t) e) =
  Invalid ("expected ':', got '"
             ++ Literal (fst (NextToken (lex_at t e))) ++ "'").
Proof.
  intros Hkey Hc.
  unfold Validate, fuel_for. rewrite NewLexer_lex_at. cbn [pending].
  set (doc := rn "{" :: string_src key ++ t).
  replace (3 * List.length doc + 4)%nat
    with (S (S (3 * List.length doc + 2))) by lia.
  unfold doc. rewrite ParseObject_S, NewParser_lbrace.
  change (tok_is _ TokenLeftBrace) with true. cbn [negb].
  rewrite !nextToken_NewParser. cbn [lexer].
  rewrite NewParser_string by assumption.
  change (tok_is _ TokenRightBrace) with false. cbv iota.
  rewrite ParseObject_loop_S.
  change (tok_is _ TokenString) with true. cbn [negb].
  rewrite !nextToken_NewParser. cbn [lexer]. rewrite NewParser_fst.
  unfold tok_is at 1. cbn [token]. rewrite Hc. reflexivity.
Qed.

Lemma key_needs_colon_examples :
  @Validate latin1_tables (stream (src_text "{`a` 1}")) =
    Invalid "expected ':', got '1'" /\
  @Validate latin1_tables (stream (src_text "{`a`}")) =
    Invalid "expected ':', got '}'".
Proof.
  split.
  - apply (@key_needs_colon latin1_tables [Plain 97] (src_text " 1}") EOF);
      reflexivity.
  - apply (@key_needs_colon latin1_tables [Plain 97] (src_text "}") EOF);
      reflexivity.
Defined.

(** X8.  A member needs a value: when the token after the colon cannot
    start a value (a closing brace or bracket, a comma, a colon, the end
    of the input, a lexical error), ParseObject fails with
    invalid value: expected value, got and the literal of that token. *)
Theorem member_needs_value `{UnicodeTables}
    (key : list str_item) (t : list rune) (e : ioerr) :
  forallb item_ok key = true ->
  starts_no_value (Typ (fst (NextToken (lex_at t e)))) = true ->
  Validate (mkReader (rn "{" :: string_src key ++ rn ":" :: t) e) =
  Invalid ("invalid value: expected value, got "
             ++ Literal (fst (NextToken (lex_at t e)))).
Proof.
  intros Hkey Hv.
  unfold Validate, fuel_for. rewrite NewLexer_lex_at. cbn [pending].
  set (doc := rn "{" :: string_src key ++ rn ":" :: t).
  replace (3 * List.length doc + 4)%nat
    with (S (S (S (3 * List.length doc + 1)))) by lia.
  unfold doc. rewrite ParseObject_S, NewParser_lbrace.
  change (tok_is _ TokenLeftBrace) with true. cbn [negb].
  rewrite !nextToken_NewParser. cbn [lexer].
  rewrite NewParser_string by assumption.
  change (tok_is _ TokenRightBrace) with false. cbv iota.
  rewrite ParseObject_loop_S.
  change (tok_is _ TokenString) with true. cbn [negb].
  rewrite !nextToken_NewParser. cbn [lexer]. rewrite NewParser_colon.
  change (tok_is _ TokenColon) with true. cbn [negb lexer].
  rewrite NewParser_fst, parseValue_S. cbn [token].
  destruct (Typ (fst (NextToken (lex_at t e)))); try discriminate Hv;
    reflexivity.
Qed.

Lemma member_needs_value_examples :
  @Validate latin1_tables (stream (src_text "{`a`:}")) =
    Invalid "invalid value: expected value, got }" /\
  @Validate latin1_tables (stream (src_text "{`a`:")) =
    Invalid "invalid value: expected value, got " /\
  @Validate latin1_tables (stream (src_text "{`a`: `abc")) =
    Invalid "invalid value: expected value, got unterminated string".
Proof.
  split; [|split].
  - apply (@member_needs_value latin1_tables [Plain 97] (src_text "}") EOF);
      reflexivity.
  - apply (@member_needs_value latin1_tables [Plain 97] [] EOF); reflexivity.
  - apply (@member_needs_value latin1_tables [Plain 97] (src_text " `abc") EOF);
      reflexivity.
Defined.

(** ** Strings *)

(** Scanning the well-formed start of a string body. *)
Lemma readString_loop_prefix body : forall n acc t e,
  forallb item_ok body = true ->
  (List.length (flat_map item_src body ++ t) <= n)%nat ->
  readString_loop n acc (lex_at (flat_map item_src body ++ t) e) =
  readString_loop (budget (lex_at t e)) (acc ++ map item_char body)
    (lex_at t e).
Proof.
  induction body as [|i body IH]; intros n acc t e Hok Hn.
  - cbn [flat_map app map] in *. rewrite app_nil_r.
    destruct t as [|c t]; [rewrite !readString_loop_nil; reflexivity|].
    apply readString_loop_fuel; [|apply Nat.le_refl].
    unfold budget. simpl in *. lia.
  - simpl in Hok. apply andb_true_iff in Hok. destruct Hok as [Hi Hok].
    destruct n as [|n]; [destruct i; simpl in Hn; lia|].
    destruct i as [c|x|h1 h2 h3 h4]; [| |discriminate Hi];
      cbn [flat_map item_src map] in *.
    + simpl app in *. simpl in Hi.
      apply andb_true_iff in Hi. destruct Hi as [Hi Hb].
      apply andb_true_iff in Hi. destruct Hi as [Hc Hq].
      apply negb_true_iff in Hb, Hq. apply Z.leb_le in Hc.
      rewrite readString_loop_S, char_lex_at_cons, err_lex_at_cons, Hq, Hb.
      cbn [negb andb is_nil]. rewrite (proj2 (Z.ltb_ge c 32)) by lia.
      rewrite readChar_cons, IH by (auto; simpl in Hn; lia).
      rewrite <- app_assoc. reflexivity.
    + simpl app in *.
      rewrite readString_loop_S, char_lex_at_cons, err_lex_at_cons.
      change (backslash =? quote) with false. rewrite Z.eqb_refl.
      cbn [negb andb is_nil].
      rewrite readChar_cons, char_lex_at_cons, (escape_letter x Hi).
      rewrite readChar_cons, IH by (auto; simpl in Hn; lia).
      rewrite <- app_assoc. reflexivity.
Qed.

Lemma NextToken_quote `{UnicodeTables} t e :
  NextToken (lex_at (quote :: t) e) =
  match readString_loop (budget (lex_at t e)) [] (lex_at t e) with
  | (Err msg, l') => (mkToken TokenError msg, l')
  | (Ok str, l') => (mkToken TokenString str, l')
  end.
Proof.
  rewrite NextToken_cons by reflexivity. change (quote =? quote) with true.
  cbv iota beta. rn_norm. cbn [Z.eqb Pos.eqb].
  unfold readString. rewrite readChar_cons. reflexivity.
Qed.

(** X9.  A string that the input ends inside, the characters and escapes
    scanned so far being complete.  At a clean end of the stream the token
    is the error unterminated string.  When a read fault stops the stream
    instead, NextToken returns a String token holding the text scanned so
    far, as if the string had been closed.  When the input stops right
    after a backslash, the token is the error invalid escape sequence
    naming the zero rune, for either ending. *)
Theorem string_cut_short `{UnicodeTables} (body : list str_item) :
  forallb item_ok body = true ->
  NextToken (lex_at (quote :: flat_map item_src body) EOF) =
    (mkToken TokenError "unterminated string", lex_at [] EOF) /\
  fst (NextToken (lex_at (quote :: flat_map item_src body) ReadFault)) =
    mkToken TokenString (string_of_runes (map item_char body)) /\
  (forall e,
     fst (NextToken
            (lex_at (quote :: flat_map item_src body ++ [backslash]) e)) =
     mkToken TokenError ("invalid escape sequence: \" ++ utf8_rune 0)).
Proof.
  intros Hok. split; [|split].
  - rewrite NextToken_quote.
    rewrite <- (app_nil_r (flat_map item_src body)).
    rewrite readString_loop_prefix by (auto; apply budget_lex_at).
    reflexivity.
  - rewrite NextToken_quote.
    rewrite <- (app_nil_r (flat_map item_src body)).
    rewrite readString_loop_prefix by (auto; apply budget_lex_at).
    reflexivity.
  - intros e. rewrite NextToken_quote.
    rewrite readString_loop_prefix by (auto; apply budget_lex_at).
    destruct e; reflexivity.
Qed.

Lemma string_cut_short_example :
  @NextToken latin1_tables (lex_at (src_text "`ab\n") EOF) =
    (mkToken TokenError "unterminated string", lex_at [] EOF) /\
  fst (@NextToken latin1_tables (lex_at (src_text "`ab\n") ReadFault)) =
    mkToken TokenString (String "a" (String "b" (String newline_char ""))) /\
  (forall e,
     fst (@NextToken latin1_tables (lex_at (src_text "`ab\n\") e)) =
     mkToken TokenError ("invalid escape sequence: \" ++ utf8_rune 0)).
Proof.
  apply (@string_cut_short latin1_tables [Plain 97; Plain 98; Escaped 110]).
  reflexivity.
Defined.

(** X10.  A raw control character inside a string (any rune below 32, a
    line break for one) ends scanning with the error
    invalid control character in string: and its code in decimal; the
    lexer stays on that character. *)
Theorem control_character_rejected `{UnicodeTables}
    (body : list str_item) (c : rune) (rest : list rune) (e : ioerr) :
  forallb item_ok body = true -> c < 32 ->
  NextToken (lex_at (quote :: flat_map item_src body ++ c :: rest) e) =
  (mkToken TokenError ("invalid control character in string: " ++ fmt_d c),
   lex_at (c :: rest) e).
Proof.
  intros Hok Hc. rewrite NextToken_quote.
  rewrite readString_loop_prefix by (auto; apply budget_lex_at).
  unfold budget. cbn [lex_at reader pending].
  rewrite readString_loop_S. cbn [char err is_nil].
  rewrite (proj2 (Z.eqb_neq c quote)) by (unfold quote; lia).
  rewrite (proj2 (Z.eqb_neq c backslash)) by (unfold backslash; lia).
  rewrite (proj2 (Z.ltb_lt c 32)) by lia. reflexivity.
Qed.

Lemma control_character_example :
  @NextToken latin1_tables (lex_at (src_text "`ab" ++ 10 :: src_text "cd`") EOF)
  = (mkToken TokenError "invalid control character in string: 10",
     lex_at (10 :: src_text "cd`") EOF).
Proof.
  apply (@control_character_rejected latin1_tables
           [Plain 97; Plain 98] 10 (src_text "cd`") EOF); [reflexivity|lia].
Defined.

Lemma escape_representable c r : escape c = Some r -> representable r = true.
Proof.
  unfold escape.
  destruct ((c =? quote) || (c =? backslash) || (c =? rn "/")) eqn:E.
  - intros H. injection H as <-. unfold representable.
    assert (c = 34 \/ c = 92 \/ c = 47) as R.
    { revert E. rn_norm. intros E.
      repeat (apply orb_true_iff in E; destruct E as [E|E]);
        apply Z.eqb_eq in E; lia. }
    rewrite (proj2 (Z.leb_le 32 c)) by lia. reflexivity.
  - repeat match goal with
           | |- (if ?b then _ else _) = _ -> _ =>
               destruct b; [intros H; injection H as <-; reflexivity|]
           end.
    discriminate.
Qed.

(** What [readString] returns holds representable characters only. *)
Lemma readString_loop_representable n : forall acc l s l',
  forallb representable acc = true ->
  readString_loop n acc l = (Ok s, l') ->
  exists rs, s = string_of_runes rs /\ forallb representable rs = true.
Proof.
  assert (forall acc l s l', forallb representable acc = true ->
            readString_end acc l = (Ok s, l') ->
            exists rs, s = string_of_runes rs /\
                       forallb representable rs = true) as Hend.
  { intros acc l s l' Hacc. unfold readString_end.
    destruct (is_EOF (err l)); [discriminate|].
    intros E. injection E as <- _. eauto. }
  induction n as [|n IH]; intros acc l s l' Hacc; [apply Hend, Hacc|].
  rewrite readString_loop_S.
  destruct (negb (char l =? quote) && is_nil (err l)); [|apply Hend, Hacc].
  destruct (char l =? backslash).
  - destruct (escape (char (readChar l))) as [r|] eqn:Er; [|discriminate].
    apply IH. rewrite forallb_app, Hacc. cbn [forallb andb].
    rewrite (escape_representable _ _ Er). reflexivity.
  - destruct (char l <? 32) eqn:Hc; [discriminate|].
    apply IH. rewrite forallb_app, Hacc. cbn [forallb andb].
    unfold representable. apply Z.ltb_ge in Hc.
    rewrite (proj2 (Z.leb_le 32 (char l))) by lia. reflexivity.
Qed.

(** X11.  Whatever the input and the lexer state, the literal of a String
    token holds no control character other than backspace, tab, newline,
    form feed and carriage return (which only escapes can put there). *)
Theorem string_literal_characters `{UnicodeTables} (l : Lexer) :
  Typ (fst (NextToken l)) = TokenString ->
  exists rs, Literal (fst (NextToken l)) = string_of_runes rs /\
             forallb representable rs = true.
Proof.
  unfold NextToken. set (l1 := skipWhitespace l). cbv zeta.
  destruct (is_EOF (err l1)); [discriminate|].
  repeat match goal with
         | |- Typ (fst (if ?b then (mkToken _ _, _) else _)) = _ -> _ =>
             destruct b; [discriminate|]
         end.
  destruct (char l1 =? quote).
  - unfold readString.
    destruct (readString_loop _ [] (readChar l1)) as [[s|msg] l2] eqn:E;
      [|discriminate].
    intros _. cbn [fst Literal].
    exact (readString_loop_representable _ [] _ _ _ eq_refl E).
  - destruct (unicode_IsDigit (char l1) || (char l1 =? rn "-")).
    { destruct (readNumber l1). discriminate. }
    destruct (unicode_IsLetter (char l1)); [|discriminate].
    destruct (readIdentifier l1) as [identifier l2]. cbn [fst].
    unfold keyword.
    destruct (String.eqb identifier "true" || String.eqb identifier "false");
      [discriminate|].
    destruct (String.eqb identifier "null"); discriminate.
Qed.

Lemma string_literal_characters_example :
  exists rs,
    Literal (fst (@NextToken latin1_tables (lex_at (src_text " `a\tb` ") EOF)))
    = string_of_runes rs /\ forallb representable rs = true.
Proof.
  apply (@string_literal_characters latin1_tables
           (lex_at (src_text " `a\tb` ") EOF)).
  reflexivity.
Defined.

Lemma encode_rune_ok r :
  representable r = true ->
  item_ok (encode_rune r) = true /\ item_char (encode_rune r) = r.
Proof.
  unfold representable, encode_rune. cbn [existsb]. intros Hr.
  destruct ((r =? quote) || (r =? backslash)) eqn:Eq.
  { assert (r = 34 \/ r = 92) as R.
    { revert Eq. rn_norm. intros Eq. apply orb_true_iff in Eq.
      destruct Eq as [E|E]; apply Z.eqb_eq in E; lia. }
    split.
    - cbn [item_ok escape_letters existsb]. rn_norm.
      destruct R; subst r; reflexivity.
    - cbn [item_char]. rn_norm. destruct R; subst r; reflexivity. }
  apply orb_false_iff in Eq. destruct Eq as [Hq Hb].
  destruct (r =? 8) eqn:E8; [apply Z.eqb_eq in E8; subst r; split; reflexivity|].
  destruct (r =? 12) eqn:E12;
    [apply Z.eqb_eq in E12; subst r; split; reflexivity|].
  destruct (r =? 10) eqn:E10;
    [apply Z.eqb_eq in E10; subst r; split; reflexivity|].
  destruct (r =? 13) eqn:E13;
    [apply Z.eqb_eq in E13; subst r; split; reflexivity|].
  destruct (r =? 9) eqn:E9; [apply Z.eqb_eq in E9; subst r; split; reflexivity|].
  split; [|reflexivity]. cbn [item_ok]. rewrite Hq, Hb.
  rewrite !orb_false_r in Hr. rewrite Hr. reflexivity.
Qed.

(** X12.  Escaping and scanning are inverse: every text of representable
    characters, written with the escapes for the quote, the backslash and
    the five control characters, is scanned back to that very text. *)
Theorem string_round_trip `{UnicodeTables}
    (rs t : list rune) (e : ioerr) :
  forallb representable rs = true ->
  NextToken (lex_at (string_src (map encode_rune rs) ++ t) e) =
  (mkToken TokenString (string_of_runes rs), lex_at t e).
Proof.
  intros Hrs.
  assert (forallb item_ok (map encode_rune rs) = true /\
          map item_char (map encode_rune rs) = rs) as [Hok Hdec].
  { induction rs as [|r rs IH]; [auto|].
    cbn [forallb map] in *. apply andb_true_iff in Hrs.
    destruct Hrs as [Hr Hrs]. destruct (encode_rune_ok r Hr) as [-> ->].
    destruct (IH Hrs) as [-> ->]. auto. }
  rewrite NextToken_string by assumption. rewrite Hdec. reflexivity.
Qed.

Lemma string_round_trip_example :
  @NextToken latin1_tables
    (lex_at (src_text "`say \`hi\`\n\\`,") EOF) =
  (mkToken TokenString
     (string_of_runes (src_text "say `hi`" ++ [10; backslash])),
   lex_at (src_text ",") EOF).
Proof.
  apply (@string_round_trip latin1_tables
           (src_text "say `hi`" ++ [10; backslash]) (src_text ",") EOF).
  reflexivity.
Defined.

(** ** Characters the lexer does not know *)

(** X13.  The lexer does not move past a character it does not know: on a
    rune that is no whitespace, punctuation, quote, digit, minus sign or
    letter, NextToken returns an error token holding that rune and leaves
    the state as it is, so every further call returns the same token and
    the end of the input is never reached. *)
Theorem unknown_character_blocks `{UnicodeTables}
    (c : rune) (t : list rune) (e : ioerr) (n : nat) :
  unrecognized c = true ->
  NextToken_n n (lex_at (c :: t) e) =
  (repeat (mkToken TokenError (utf8_rune c)) n, lex_at (c :: t) e).
Proof.
  intros Hc. unfold unrecognized in Hc.
  apply andb_true_iff in Hc. destruct Hc as [Hc Hlet].
  apply andb_true_iff in Hc. destruct Hc as [Hc Hnum].
  apply andb_true_iff in Hc. destruct Hc as [Hsp Hp].
  apply negb_true_iff in Hsp, Hp, Hnum, Hlet.
  cbn [existsb] in Hp.
  repeat (apply orb_false_iff in Hp; destruct Hp as [?E Hp]).
  assert (NextToken (lex_at (c :: t) e) =
          (mkToken TokenError (utf8_rune c), lex_at (c :: t) e)) as Hstep.
  { rewrite NextToken_cons by assumption.
    rewrite E, E0, E1, E2, E3, E4, E5, Hnum, Hlet. reflexivity. }
  induction n as [|n IH]; [reflexivity|].
  cbn [NextToken_n repeat]. rewrite Hstep, IH. reflexivity.
Qed.

Lemma unknown_character_example :
  @NextToken_n latin1_tables 3 (lex_at (src_text "_id") EOF) =
  ([mkToken TokenError "_"; mkToken TokenError "_"; mkToken TokenError "_"],
   lex_at (src_text "_id") EOF).
Proof.
  apply (@unknown_character_blocks latin1_tables (rn "_") (src_text "id") EOF 3).
  reflexivity.
Defined.

(** X14.  A read fault met where a token should start blocks the lexer,
    whatever the reader holds: in a state where readChar has set the
    current rune to zero and recorded an error other than io.EOF,
    NextToken returns an error token holding the zero rune, reads nothing
    and leaves the state as it is, so every further call returns the same
    token and the end of the input is not reported. *)
Theorem read_fault_blocks `{UnicodeTables} (l : Lexer) (n : nat) :
  char l = 0 -> err l = Some ReadFault ->
  NextToken_n n l = (repeat (mkToken TokenError (utf8_rune 0)) n, l).
Proof.
  destruct l as [r c er]. cbn [char err]. intros -> ->.
  assert (NextToken (mkLexer r 0 (Some ReadFault)) =
          (mkToken TokenError (utf8_rune 0), mkLexer r 0 (Some ReadFault)))
    as Hstep by reflexivity.
  induction n as [|n IH]; [reflexivity|].
  cbn [NextToken_n repeat]. rewrite Hstep, IH. reflexivity.
Qed.

Lemma read_fault_blocks_example :
  @NextToken_n latin1_tables 2
    (mkLexer (mkReader (src_text "}") EOF) 0 (Some ReadFault)) =
  ([mkToken TokenError (utf8_rune 0); mkToken TokenError (utf8_rune 0)],
   mkLexer (mkReader (src_text "}") EOF) 0 (Some ReadFault)).
Proof.
  apply (@read_fault_blocks latin1_tables
           (mkLexer (mkReader (src_text "}") EOF) 0 (Some ReadFault)) 2);
    reflexivity.
Defined.

(** ** Numbers *)

Section NumberPieces.
Context {U : UnicodeTables}.

Lemma number_sign_pieces t e :
  exists sign rest,
    t = sign ++ rest /\
    number_sign (lex_at t e) = (sign, lex_at rest e) /\
    (sign = [] \/ sign = [rn "-"]).
Proof.
  destruct t as [|c t]; unfold number_sign.
  - exists [], []. repeat split. left. reflexivity.
  - rewrite char_lex_at_cons. destruct (c =? rn "-") eqn:Hc.
    + apply Z.eqb_eq in Hc. rewrite readChar_cons. exists [c], t.
      repeat split. right. rewrite Hc. reflexivity.
    + exists [], (c :: t). repeat split. left. reflexivity.
Qed.

Lemma number_fraction_pieces acc t e :
  exists frac rest,
    t = frac ++ rest /\
    number_fraction acc (lex_at t e) = (acc ++ frac, lex_at rest e) /\
    (frac = [] \/ exists fd, frac = rn "." :: fd /\ all_digits fd).
Proof.
  destruct t as [|c t]; unfold number_fraction.
  - exists [], []. split; [reflexivity|].
    split; [rewrite app_nil_r; reflexivity|]. left. reflexivity.
  - rewrite char_lex_at_cons. destruct (c =? rn ".") eqn:Hc.
    + apply Z.eqb_eq in Hc. cbv zeta.
      rewrite readChar_cons, readDigits_at by apply budget_lex_at.
      exists (c :: take_while unicode_IsDigit t),
             (drop_while unicode_IsDigit t).
      split; [cbn [app]; rewrite take_drop_while; reflexivity|].
      split; [rewrite <- app_assoc; reflexivity|].
      right. exists (take_while unicode_IsDigit t).
      split; [rewrite Hc; reflexivity|apply take_while_all].
    + exists [], (c :: t). split; [reflexivity|].
      split; [rewrite app_nil_r; reflexivity|]. left. reflexivity.
Qed.

Lemma number_exponent_pieces acc t e :
  exists exp rest,
    t = exp ++ rest /\
    number_exponent acc (lex_at t e) = (acc ++ exp, lex_at rest e) /\
    (exp = [] \/
     exists ec sg xd,
       exp = ec :: sg ++ xd /\ (ec = rn "e" \/ ec = rn "E") /\
       (sg = [] \/ sg = [rn "+"] \/ sg = [rn "-"]) /\ all_digits xd).
Proof.
  destruct t as [|c t]; unfold number_exponent.
  - exists [], []. split; [reflexivity|].
    split; [rewrite app_nil_r; reflexivity|]. left. reflexivity.
  - rewrite char_lex_at_cons.
    destruct ((c =? rn "e") || (c =? rn "E")) eqn:Hc.
    + assert (c = rn "e" \/ c = rn "E") as Hc'
        by (apply orb_true_iff in Hc; destruct Hc as [Hc|Hc];
            apply Z.eqb_eq in Hc; auto).
      cbv zeta. rewrite readChar_cons. destruct t as [|s t].
      * exists [c], []. split; [reflexivity|]. split; [reflexivity|].
        right. exists c, [], []. repeat split; auto.
      * rewrite char_lex_at_cons.
        destruct ((s =? rn "+") || (s =? rn "-")) eqn:Hs.
        -- assert (s = rn "+" \/ s = rn "-") as Hs'
             by (apply orb_true_iff in Hs; destruct Hs as [Hs|Hs];
                 apply Z.eqb_eq in Hs; auto).
           rewrite readChar_cons, readDigits_at by apply budget_lex_at.
           exists (c :: s :: take_while unicode_IsDigit t),
                  (drop_while unicode_IsDigit t).
           split; [cbn [app]; rewrite take_drop_while; reflexivity|].
           split; [rewrite <- !app_assoc; reflexivity|].
           right. exists c, [s], (take_while unicode_IsDigit t).
           split; [reflexivity|]. split; [exact Hc'|].
           split; [|apply take_while_all].
           destruct Hs' as [->| ->]; auto.
        -- rewrite readDigits_at by apply budget_lex_at.
           exists (c :: take_while unicode_IsDigit (s :: t)),
                  (drop_while unicode_IsDigit (s :: t)).
           split; [cbn [app]; rewrite take_drop_while; reflexivity|].
           split; [rewrite <- app_assoc; reflexivity|].
           right. exists c, [], (take_while unicode_IsDigit (s :: t)).
           split; [reflexivity|]. split; [exact Hc'|].
           split; [auto|apply take_while_all].
    + exists [], (c :: t). split; [reflexivity|].
      split; [rewrite app_nil_r; reflexivity|]. left. reflexivity.
Qed.

Lemma readNumber_pieces t e :
  exists pre rest,
    t = pre ++ rest /\
    readNumber (lex_at t e) = (string_of_runes pre, lex_at rest e) /\
    number_shape pre.
Proof.
  unfold readNumber.
  destruct (number_sign_pieces t e) as (sg & t1 & E1 & -> & Hsg).
  unfold number_integer. rewrite readDigits_at by apply budget_lex_at.
  destruct (number_fraction_pieces (sg ++ take_while unicode_IsDigit t1)
              (drop_while unicode_IsDigit t1) e) as (fr & t3 & E3 & -> & Hfr).
  destruct (number_exponent_pieces
              ((sg ++ take_while unicode_IsDigit t1) ++ fr) t3 e)
    as (ex & t4 & E4 & -> & Hex).
  exists (sg ++ take_while unicode_IsDigit t1 ++ fr ++ ex), t4.
  split.
  - rewrite <- !app_assoc, <- E4, <- E3, take_drop_while. exact E1.
  - split; [rewrite <- !app_assoc; reflexivity|].
    exists sg, (take_while unicode_IsDigit t1), fr, ex.
    split; [reflexivity|]. split; [exact Hsg|].
    split; [apply take_while_all|]. split; assumption.
Qed.

Lemma keyword_not_number s : Typ (keyword s) <> TokenNumber.
Proof.
  unfold keyword.
  destruct (String.eqb s "true" || String.eqb s "false");
    [discriminate|].
  destruct (String.eqb s "null"); discriminate.
Qed.

Lemma blank_take_while t : blank (take_while is_space t).
Proof.
  unfold blank. induction t as [|c t IH]; [reflexivity|].
  cbn [take_while]. destruct (is_space c) eqn:E; [|reflexivity].
  cbn [forallb]. rewrite ws_rune_is_space, E. exact IH.
Qed.

End NumberPieces.

(** X15.  A Number token is a piece of the input, copied rune by rune:
    when NextToken returns a Number token, the text it was called on is
    whitespace, then the literal, then the text the lexer is left on; the
    literal is not empty and has the shape sign, digits, point and digits,
    exponent letter with sign and digits, where the sign, the point part
    and the exponent part are optional and every run of digits may be
    empty. *)
Theorem number_token_shape `{UnicodeTables} (t : list rune) (e : ioerr) :
  Typ (fst (NextToken (lex_at t e))) = TokenNumber ->
  exists ws pre rest,
    t = ws ++ pre ++ rest /\ blank ws /\ pre <> [] /\ number_shape pre /\
    NextToken (lex_at t e) =
    (mkToken TokenNumber (string_of_runes pre), lex_at rest e).
Proof.
  rewrite NextToken_skip. intros Hty.
  exists (take_while is_space t).
  destruct (drop_while is_space t) as [|c t1] eqn:Et.
  { rewrite NextToken_nil in Hty. destruct e; discriminate Hty. }
  pose proof (drop_while_head _ _ _ _ Et) as Hsp.
  rewrite NextToken_cons in Hty |- * by exact Hsp.
  repeat match type of Hty with
         | context [if ?c =? ?k then _ else _] =>
             destruct (c =? k); [discriminate Hty|]
         end.
  destruct (c =? quote).
  { destruct (readString (lex_at (c :: t1) e)) as [[s|m] l'];
      discriminate Hty. }
  destruct (unicode_IsDigit c || (c =? rn "-")) eqn:Hnum.
  - destruct (readNumber_local_cons c t1 e Hnum) as (a & t' & Ea & Hlen & _).
    destruct (readNumber_pieces (c :: t1) e) as (pre & rest & Ep & En & Hs).
    rewrite En in Ea |- *. injection Ea as _ Ea. apply lex_at_inj in Ea.
    subst t'. exists pre, rest.
    split; [rewrite <- Ep, <- Et; symmetry; apply take_drop_while|].
    split; [apply blank_take_while|].
    split; [|split; [exact Hs|reflexivity]].
    intros ->. cbn [app] in Ep. subst rest. simpl in Hlen. lia.
  - destruct (unicode_IsLetter c).
    + destruct (readIdentifier (lex_at (c :: t1) e)) as [s l'].
      exfalso. exact (keyword_not_number s Hty).
    + discriminate Hty.
Qed.

Lemma number_token_shape_example :
  exists ws pre rest,
    src_text " -12.5e+3, 4" = ws ++ pre ++ rest /\ blank ws /\ pre <> [] /\
    @number_shape latin1_tables pre /\
    @NextToken latin1_tables (lex_at (src_text " -12.5e+3, 4") EOF) =
    (mkToken TokenNumber (string_of_runes pre), lex_at rest EOF).
Proof.
  apply (@number_token_shape latin1_tables (src_text " -12.5e+3, 4") EOF).
  reflexivity.
Defined.

Section OneMember.
Context {U : UnicodeTables}.

(** An object with one member is accepted as soon as its value is. *)
Lemma accepts_one_member key v rest e :
  forallb item_ok key = true ->
  accepts parseValue (v ++ rn "}" :: rest) (rn "}" :: rest) e ->
  accepts ParseObject
    (rn "{" :: string_src key ++ rn ":" :: v ++ rn "}" :: rest) rest e.
Proof.
  intros Hkey (k & Hk). exists (S (S k)). intros n Hn.
  destruct n as [|[|n]]; try lia.
  rewrite ParseObject_S, NewParser_lbrace, nextToken_NewParser.
  cbn [lexer]. rewrite NewParser_string by exact Hkey.
  cbn [tok_is token Typ TokenType_eqb negb].
  rewrite ParseObject_loop_S, !nextToken_NewParser. cbn [lexer].
  rewrite NewParser_colon. cbn [tok_is token Typ TokenType_eqb negb lexer].
  rewrite Hk by lia. rewrite NewParser_rbrace.
  cbn [tok_is token Typ TokenType_eqb negb lexer].
  rewrite nextToken_NewParser. reflexivity.
Qed.

Lemma span_all f ds rest :
  forallb f ds = true -> head_ok (fun c => negb (f c)) rest ->
  take_while f (ds ++ rest) = ds /\ drop_while f (ds ++ rest) = rest.
Proof.
  intros Hds Hrest. induction ds as [|d ds IH]; cbn [app].
  - destruct rest as [|c rest]; [split; reflexivity|].
    cbn in Hrest |- *. apply negb_true_iff in Hrest. rewrite Hrest.
    split; reflexivity.
  - cbn [forallb] in Hds. apply andb_true_iff in Hds.
    destruct Hds as [Hd Hds]. cbn [take_while drop_while]. rewrite Hd.
    destruct (IH Hds) as [-> ->]. split; reflexivity.
Qed.

(** A run of digits before a closing brace is one Number token. *)
Lemma NextToken_digits d ds rest e :
  all_digits (d :: ds) ->
  NextToken (lex_at ((d :: ds) ++ rn "}" :: rest) e) =
  (mkToken TokenNumber (string_of_runes (d :: ds)),
   lex_at (rn "}" :: rest) e).
Proof.
  intros Hds. pose proof Hds as Hd. unfold all_digits in Hd.
  cbn [forallb] in Hd. apply andb_true_iff in Hd. destruct Hd as [Hd _].
  pose proof (IsDigit_range d Hd) as Hr.
  destruct (span_all unicode_IsDigit (d :: ds) (rn "}" :: rest) Hds)
    as [Htake Hdrop]; [reflexivity|].
  assert ((d =? rn "-") = false) as Hm by (rn_norm; apply Z.eqb_neq; lia).
  cbn [app] in *.
  rewrite NextToken_number_start by (rewrite Hd; reflexivity).
  unfold readNumber, number_sign. rewrite char_lex_at_cons.
  rewrite Hm.
  unfold number_integer. rewrite readDigits_at by apply budget_lex_at.
  rewrite Htake, Hdrop. reflexivity.
Qed.

End OneMember.

(** X16.  The digits of a number are Unicode digits, not only 0 to 9: an
    object whose member value is any non-empty run of runes that
    unicode.IsDigit accepts validates. *)
Theorem unicode_digits_accepted `{UnicodeTables}
    (ds : list rune) (e : ioerr) :
  ds <> [] -> all_digits ds ->
  Validate (mkReader (src_text "{`n`:" ++ ds ++ src_text "}") e) = Valid.
Proof.
  intros Hne Hds. destruct ds as [|d ds]; [congruence|].
  apply (Validate_accepts _
           (rn "{" :: string_src [Plain (rn "n")] ++ rn ":" ::
              (d :: ds) ++ rn "}" :: []) []); [|reflexivity].
  apply accepts_one_member; [reflexivity|].
  apply (accepts_scalar _ _ _ _ (NextToken_digits d ds [] e Hds)).
  cbn. auto.
Qed.

Lemma unicode_digits_example :
  @Validate arabic_tables
    (mkReader (src_text "{`n`:" ++ [0x664; 0x662] ++ src_text "}") EOF)
  = Valid.
Proof.
  apply (@unicode_digits_accepted arabic_tables [0x664; 0x662] EOF).
  - discriminate.
  - reflexivity.
Defined.

(** ** The first-and-last-byte checker under failures *)

(** X18.  validJSON never reports an error together with true, and true
    is only ever returned for a file that could be opened, measured and
    read, that is not empty, starts with an opening brace and ends with a
    closing brace: a failing Open, Stat, Seek or Read always gives
    false. *)
Theorem validJSON_true_only_for_braces (fs : FileSystem) (filename : string) :
  fst (validJSON fs filename) = true ->
  snd (validJSON fs filename) = None /\
  exists f, fs filename = inl f /\ no_fault f /\
    first_and_last_brace (contents f) = true.
Proof.
  unfold validJSON, os_Open, file_Size, file_Read, file_Seek.
  destruct (fs filename) as [f|e0] eqn:Hopen; [|discriminate].
  destruct (stat_err f) as [e1|] eqn:Hstat; [discriminate|].
  destruct (Z.of_nat (String.length (contents f)) =? 0) eqn:Hsize;
    [discriminate|].
  destruct (read_err f) as [e2|] eqn:Hread; [discriminate|].
  destruct (String.get 0 (contents f)) as [a|] eqn:Hfirst; [|discriminate].
  destruct (Ascii.eqb a "{") eqn:Ha; cbn [negb]; [|discriminate].
  destruct (seek_err f) as [e3|] eqn:Hseek; [discriminate|].
  destruct (Z.of_nat (String.length (contents f)) - 1 <? 0) eqn:Hneg;
    [discriminate|].
  destruct (String.get
              (Z.to_nat (Z.of_nat (String.length (contents f)) - 1))
              (contents f)) as [b|] eqn:Hlast; [|discriminate].
  destruct (Ascii.eqb b "}") eqn:Hb; cbn [negb]; [|discriminate].
  intros _. split; [reflexivity|]. exists f.
  split; [reflexivity|]. split; [exact (conj Hstat (conj Hseek Hread))|].
  unfold first_and_last_brace.
  replace (String.length (contents f) - 1)%nat
    with (Z.to_nat (Z.of_nat (String.length (contents f)) - 1)) by lia.
  rewrite Hfirst, Hlast. cbn [byte_is]. rewrite Ha, Hb.
  apply Z.eqb_neq in Hsize.
  destruct (String.length (contents f)); [lia|reflexivity].
Qed.

Lemma validJSON_true_only_for_braces_example :
  snd (validJSON (fun _ => inl (healthy "{oops}")) "a.json") = None /\
  exists f, (inl (healthy "{oops}") : OSFile + string) = inl f /\
    no_fault f /\
    first_and_last_brace (contents f) = true.
Proof.
  apply (validJSON_true_only_for_braces
           (fun _ => inl (healthy "{oops}")) "a.json").
  reflexivity.
Defined.

(** X19.  Exit status 1 of the first-and-last-byte checker means that the
    check failed.  Provided flag.Parse does not itself end the process
    with status 1, the checker exits with status 1 exactly when flag.Parse
    returned, a file name was given and validJSON answered false without
    an error.  Once flag.Parse has returned the status is 0 or 1; it is 0
    also when no file name was given and when a file operation failed. *)
Theorem checker_exit_status (parsed : FlagOutcome) (fs : FileSystem) :
  (forall r, parsed = flag_exit r -> status r <> 1) ->
  (status (checker_main parsed fs) = 1 <->
   exists filename,
     parsed = flag_file filename /\ filename <> "" /\
     validJSON fs filename = (false, None)) /\
  (forall filename,
     parsed = flag_file filename ->
     status (checker_main parsed fs) = 0 \/
     status (checker_main parsed fs) = 1).
Proof.
  intros Hflag. destruct parsed as [r|filename]; cbn [checker_main].
  - split; [|discriminate]. split.
    + intros Hr. exfalso. exact (Hflag r eq_refl Hr).
    + intros (filename & Hp & _). discriminate Hp.
  - clear Hflag. unfold main_validJSON.
    destruct (String.eqb filename "") eqn:Hname.
    + apply String.eqb_eq in Hname. cbn [status].
      split; [|intros _ _; left; reflexivity].
      split; [discriminate|].
      intros (f & Hf & Hne & _). injection Hf as <-. congruence.
    + apply String.eqb_neq in Hname.
      destruct (validJSON fs filename) as [b [e|]] eqn:Ev; destruct b;
        cbn [status].
      * split; [|intros _ _; left; reflexivity].
        split; [discriminate|].
        intros (f & Hf & _ & Hv). injection Hf as <-.
        rewrite Ev in Hv. discriminate Hv.
      * split; [|intros _ _; left; reflexivity].
        split; [discriminate|].
        intros (f & Hf & _ & Hv). injection Hf as <-.
        rewrite Ev in Hv. discriminate Hv.
      * split; [|intros _ _; left; reflexivity].
        split; [discriminate|].
        intros (f & Hf & _ & Hv). injection Hf as <-.
        rewrite Ev in Hv. discriminate Hv.
      * split; [|intros _ _; right; reflexivity].
        split; [|reflexivity]. intros _. exists filename.
        split; [reflexivity|]. split; [exact Hname|exact Ev].
Qed.

Lemma checker_exit_status_example :
  status (checker_main (flag_file "a.json") (fun _ => inl (healthy "[1]")))
  = 1 <->
  exists filename,
    flag_file "a.json" = flag_file filename /\ filename <> "" /\
    validJSON (fun _ => inl (healthy "[1]")) filename = (false, None).
Proof.
  apply (checker_exit_status (flag_file "a.json")
           (fun _ => inl (healthy "[1]"))).
  intros r Hr. discriminate Hr.
Defined.

(** X20.  A file that cannot be opened, measured or read is reported on
    the standard output, and the checker then exits with status 0, the
    status of a file that passed the check. *)
Theorem checker_error_exits_zero
    (fs : FileSystem) (filename e : string) :
  filename <> "" -> snd (validJSON fs filename) = Some e ->
  main_validJSON fs filename =
  mkRun ("Error processing file: " ++ e ++ newline)%string "" 0.
Proof.
  intros Hname Herr. unfold main_validJSON.
  apply String.eqb_neq in Hname. rewrite Hname.
  destruct (validJSON fs filename) as [b [e'|]]; cbn [snd] in Herr;
    [|discriminate Herr].
  injection Herr as ->. destruct b; reflexivity.
Qed.

Lemma checker_error_example :
  main_validJSON (fun _ => inr "open a.json: no such file or directory")
    "a.json" =
  mkRun ("Error processing file: open a.json: no such file or directory"
           ++ newline)%string "" 0.
Proof.
  apply (checker_error_exits_zero
           (fun _ => inr "open a.json: no such file or directory")
           "a.json" "open a.json: no such file or directory").
  - discriminate.
  - reflexivity.
Defined.

(** ** [main] of the grammar checker *)

Lemma Some_eq {A : Type} (x y : A) : Some x = Some y -> x = y.
Proof. congruence. Qed.

(** X21.  Whenever main of the grammar checker ends through one of its
    own calls of os.Exit, the exit status is 0 or 1, and it is 0 exactly
    when the input could be opened and ParseObject returned no error;
    then Valid JSON and a newline have gone to the standard output and
    nothing to the standard error.  Otherwise nothing has gone to the
    standard output and the standard error starts with Invalid JSON or
    with Error opening file.  (A run that the Go runtime stops, as on an
    exhausted stack, or that never ends, on an input without end, yields
    no such exit and is not spoken of.) *)
Theorem main_exit_status `{UnicodeTables} (w : Process) (r : Run) :
  main w = Some r ->
  (status r = 0 <->
   exists input, main_input w = inl input /\ Validate input = Valid) /\
  (status r = 0 ->
   stdout r = ("Valid JSON" ++ newline)%string /\ stderr r = "") /\
  (status r <> 0 ->
   status r = 1 /\ stdout r = "" /\
   (String.prefix "Invalid JSON: " (stderr r)
    || String.prefix "Error opening file: " (stderr r) = true)).
Proof.
  unfold main. destruct (main_input w) as [input|e] eqn:Hin.
  - unfold Validate.
    destruct (ParseObject (fuel_for input) (NewParser (NewLexer input)))
      as [|[msg|] p] eqn:E; [discriminate| |];
      intros Hr; apply Some_eq in Hr; subst r; cbn [status stdout stderr].
    + split; [|split].
      * split; [discriminate|].
        intros (input' & Hin' & Hv). injection Hin' as <-.
        rewrite E in Hv. discriminate Hv.
      * discriminate.
      * intros _. split; [reflexivity|]. split; [reflexivity|].
        rewrite prefix_append. reflexivity.
    + split; [|split].
      * split; [|reflexivity]. intros _. exists input.
        split; [reflexivity|]. rewrite E. reflexivity.
      * intros _. split; reflexivity.
      * congruence.
  - intros Hr. apply Some_eq in Hr. subst r. cbn [status stdout stderr].
    split; [|split].
    + split; [discriminate|]. intros (input' & Hin' & _). discriminate Hin'.
    + discriminate.
    + intros _. split; [reflexivity|]. split; [reflexivity|].
      rewrite prefix_append. apply orb_true_r.
Qed.

Lemma main_exit_status_example :
  exists input,
    main_input
      (mkProcess ["lorc"] (stream (src_text "{`a`:1} x"))
         (fun _ => inr "no such file")) = inl input /\
    @Validate latin1_tables input = Valid.
Proof.
  apply (proj1 (proj1
           (@main_exit_status latin1_tables
              (mkProcess ["lorc"] (stream (src_text "{`a`:1} x"))
                 (fun _ => inr "no such file"))
              (mkRun ("Valid JSON" ++ newline) "" 0) eq_refl))).
  reflexivity.
Defined.

(** X22.  With a file argument main reads that file and nothing else: the
    standard input and the arguments after the first play no part in the
    run. *)
Theorem main_reads_the_named_file `{UnicodeTables}
    (w : Process) (prog path : string) (more : list string) :
  os_Args w = prog :: path :: more ->
  forall stdin' more',
    main w = main (mkProcess (prog :: path :: more') stdin' (open_file w)).
Proof.
  intros Hargs stdin' more'. unfold main, main_input.
  rewrite Hargs. reflexivity.
Qed.

Lemma main_reads_the_named_file_example :
  @main latin1_tables
    (mkProcess ["lorc"; "a.json"; "b.json"] (stream (src_text "[]"))
       (fun _ => inl (stream (src_text "{}")))) =
  @main latin1_tables
    (mkProcess ["lorc"; "a.json"] (stream (src_text "{}"))
       (fun _ => inl (stream (src_text "{}")))).
Proof.
  apply (@main_reads_the_named_file latin1_tables
           (mkProcess ["lorc"; "a.json"; "b.json"] (stream (src_text "[]"))
              (fun _ => inl (stream (src_text "{}"))))
           "lorc" "a.json" ["b.json"] eq_refl (stream (src_text "{}")) []).
Defined.

(** ** The lexer reads forward *)

Lemma readString_loop_suffix n : forall t acc e,
  (List.length t <= n)%nat ->
  exists res pre rest,
    t = pre ++ rest /\
    readString_loop n acc (lex_at t e) = (res, lex_at rest e).
Proof.
  induction n as [|n IH]; intros t acc e Hn.
  - destruct t; [|simpl in Hn; lia].
    rewrite readString_loop_nil.
    destruct (readString_end_nil acc e) as (res & E).
    exists res, [], []. split; [reflexivity|exact E].
  - destruct t as [|c t1].
    + rewrite readString_loop_nil.
      destruct (readString_end_nil acc e) as (res & E).
      exists res, [], []. split; [reflexivity|exact E].
    + rewrite readString_loop_S, char_lex_at_cons, err_lex_at_cons.
      cbn [is_nil]. rewrite andb_true_r.
      destruct (c =? quote) eqn:Hq; cbn [negb].
      { exists (Ok (string_of_runes acc)), [c], t1.
        unfold readString_end. rewrite err_lex_at_cons, readChar_cons.
        split; reflexivity. }
      destruct (c =? backslash) eqn:Hb.
      { rewrite readChar_cons. destruct t1 as [|x t2].
        { eexists _, [c], []. split; reflexivity. }
        rewrite char_lex_at_cons, readChar_cons.
        destruct (escape x) as [r0|] eqn:Hx.
        - destruct (IH t2 (acc ++ [r0]) e) as (res & pre & rest & E & R);
            [simpl in Hn; lia|].
          exists res, (c :: x :: pre), rest.
          split; [rewrite E; reflexivity|exact R].
        - eexists _, [c], (x :: t2). split; reflexivity. }
      destruct (c <? 32) eqn:Hc.
      { eexists _, [], (c :: t1). split; reflexivity. }
      rewrite readChar_cons.
      destruct (IH t1 (acc ++ [c]) e) as (res & pre & rest & E & R);
        [simpl in Hn; lia|].
      exists res, (c :: pre), rest. split; [rewrite E; reflexivity|exact R].
Qed.

Section ReadingForward.
Context {U : UnicodeTables}.

Lemma NextToken_suffix t e :
  exists tok pre rest,
    t = pre ++ rest /\ NextToken (lex_at t e) = (tok, lex_at rest e).
Proof.
  rewrite NextToken_skip.
  assert (forall tok pre rest,
            drop_while is_space t = pre ++ rest ->
            NextToken (lex_at (drop_while is_space t) e)
            = (tok, lex_at rest e) ->
            exists tok pre rest,
              t = pre ++ rest /\
              NextToken (lex_at (drop_while is_space t) e)
              = (tok, lex_at rest e)) as Hout.
  { intros tok pre rest E R. exists tok, (take_while is_space t ++ pre), rest.
    split; [|exact R].
    rewrite <- app_assoc, <- E. symmetry. apply take_drop_while. }
  destruct (drop_while is_space t) as [|c t1] eqn:Et.
  { eapply (Hout _ [] []); [reflexivity|apply NextToken_nil]. }
  pose proof (drop_while_head _ _ _ _ Et) as Hsp.
  rewrite NextToken_cons in Hout |- * by exact Hsp.
  repeat match goal with
         | |- context [if ?x =? ?k then _ else _] =>
             destruct (x =? k);
             [eapply (Hout _ [c] t1); reflexivity|]
         end.
  destruct (c =? quote).
  { unfold readString in *. rewrite readChar_cons in *.
    destruct (readString_loop_suffix (budget (lex_at t1 e)) t1 [] e)
      as (res & pre & rest & E & R); [apply budget_lex_at|].
    rewrite R in *. destruct res as [s|m];
      eapply (Hout _ (c :: pre) rest); try reflexivity;
        rewrite E; reflexivity. }
  destruct (unicode_IsDigit c || (c =? rn "-")).
  { destruct (readNumber_pieces (c :: t1) e) as (pre & rest & E & R & _).
    rewrite R in *. eapply (Hout _ pre rest); [exact E|reflexivity]. }
  destruct (unicode_IsLetter c).
  { rewrite readIdentifier_at in *.
    eapply (Hout _ (take_while ident_rune (c :: t1))
             (drop_while ident_rune (c :: t1)));
      [symmetry; apply take_drop_while|reflexivity]. }
  eapply (Hout _ [] (c :: t1)); reflexivity.
Qed.

Lemma NextToken_n_suffix k : forall t e,
  exists pre rest,
    t = pre ++ rest /\ snd (NextToken_n k (lex_at t e)) = lex_at rest e.
Proof.
  induction k as [|k IH]; intros t e.
  - exists [], t. split; reflexivity.
  - destruct (NextToken_suffix t e) as (tok & pre & t1 & E & R).
    destruct (IH t1 e) as (pre' & rest & E' & R').
    exists (pre ++ pre'), rest.
    split; [rewrite <- app_assoc, <- E'; exact E|].
    cbn [NextToken_n]. rewrite R.
    destruct (NextToken_n k (lex_at t1 e)) as [toks l2]. exact R'.
Qed.

End ReadingForward.

(** X23.  On an input that is read without a fault, its runes and then
    io.EOF, the lexer reads forward, one rune ahead and no more: after
    any number of calls of NextToken the runes it has yet to look at, the
    current one included, are a suffix of the input, the current rune is
    the first of them, and io.EOF is recorded only once the input is used
    up. *)
Theorem lexer_reads_forward `{UnicodeTables} (t : list rune) (k : nat) :
  exists pre rest,
    t = pre ++ rest /\
    snd (NextToken_n k (NewLexer (stream t))) = lex_at rest EOF.
Proof.
  unfold stream. rewrite NewLexer_lex_at. apply NextToken_n_suffix.
Qed.

(** ** Errors inside arrays *)

Section ArrayErrors.
Context {U : UnicodeTables}.

(** Any fuel with which [ParseObject] answers gives the verdict. *)
Lemma Validate_from t e k res p :
  ParseObject k (NewParser (lex_at t e)) = Done res p ->
  Validate (mkReader t e) = Some res.
Proof.
  intros Hk. unfold Validate. rewrite NewLexer_lex_at.
  set (n := fuel_for (mkReader t e)).
  destruct (ParseObject_total (mkReader t e)) as (r & q & E).
  rewrite NewLexer_lex_at in E. fold n in E. rewrite E.
  pose proof (ParseObject_fuel_le k (Nat.max k n) _ _ _
                (Nat.le_max_l _ _) Hk) as H1.
  pose proof (ParseObject_fuel_le n (Nat.max k n) _ _ _
                (Nat.le_max_r _ _) E) as H2.
  rewrite H1 in H2. injection H2 as <- _. reflexivity.
Qed.

(** [ParseObject] on a member whose value opens an array, up to the call
    of [parseArray]. *)
Lemma ParseObject_into_array n key t e :
  forallb item_ok key = true ->
  ParseObject (S (S (S n)))
    (NewParser
       (lex_at (rn "{" :: string_src key ++ rn ":" :: rn "[" :: t) e)) =
  match parseArray n (mkParser (lex_at t e) (mkToken TokenLeftBracket "["))
  with
  | OutOfFuel => OutOfFuel
  | Done (Some msg) p => fail ("invalid value: " ++ msg) p
  | Done None p =>
      if tok_is p TokenRightBrace then Done None (nextToken p)
      else if negb (tok_is p TokenComma) then
        fail ("expected ',' or '}', got '" ++ Literal (token p) ++ "'") p
      else ParseObject_loop (S n) (nextToken p)
  end.
Proof.
  intros Hkey. rewrite ParseObject_S, NewParser_lbrace.
  unfold tok_is at 1. cbn [token Typ TokenType_eqb negb].
  rewrite !nextToken_NewParser. cbn [lexer].
  rewrite NewParser_string by assumption.
  unfold tok_is at 1. cbn [token Typ TokenType_eqb].
  rewrite ParseObject_loop_S.
  unfold tok_is at 1. cbn [token Typ TokenType_eqb negb].
  rewrite !nextToken_NewParser. cbn [lexer]. rewrite NewParser_colon.
  unfold tok_is at 1. cbn [token Typ TokenType_eqb negb lexer].
  rewrite NewParser_lbracket, parseValue_S. reflexivity.
Qed.

(** A scalar token is a value, and the parser moves past it. *)
Lemma parseValue_scalar n l tok :
  scalar (Typ tok) = true ->
  parseValue (S n) (mkParser l tok) = Done None (NewParser l).
Proof.
  intros Hs. rewrite parseValue_S. cbn [token].
  destruct (Typ tok); try discriminate Hs; reflexivity.
Qed.

Lemma scalar_tok_is l tok ty :
  scalar (Typ tok) = true -> scalar ty = false ->
  tok_is (mkParser l tok) ty = false.
Proof.
  intros Hs Hty. unfold tok_is. cbn [token].
  destruct (Typ tok); try discriminate Hs; destruct ty;
    try discriminate Hty; reflexivity.
Qed.

(** A token that starts no value stops [parseValue]. *)
Lemma parseValue_no_value n l tok :
  starts_no_value (Typ tok) = true ->
  parseValue (S n) (mkParser l tok) =
  fail ("expected value, got " ++ Literal tok) (mkParser l tok).
Proof.
  intros Hv. rewrite parseValue_S. cbn [token].
  destruct (Typ tok); try discriminate Hv; reflexivity.
Qed.

End ArrayErrors.

(** X24.  An array element must be a value: when the token after the
    opening bracket of a member's array is neither a closing bracket nor
    the start of a value (a comma, a colon, a closing brace, the end of
    the input, a lexical error), validation fails with
    invalid value: expected value, got and the literal of that token. *)
Theorem array_needs_value `{UnicodeTables}
    (key : list str_item) (t : list rune) (e : ioerr) :
  forallb item_ok key = true ->
  starts_no_value (Typ (fst (NextToken (lex_at t e)))) = true ->
  TokenType_eqb (Typ (fst (NextToken (lex_at t e)))) TokenRightBracket
  = false ->
  Validate
    (mkReader (rn "{" :: string_src key ++ rn ":" :: rn "[" :: t) e) =
  Invalid ("invalid value: expected value, got "
             ++ Literal (fst (NextToken (lex_at t e)))).
Proof.
  intros Hkey Hv Hb.
  assert (parseArray 3
            (mkParser (lex_at t e) (mkToken TokenLeftBracket "[")) =
          fail ("expected value, got "
                  ++ Literal (fst (NextToken (lex_at t e))))
            (NewParser (lex_at t e))) as Harr.
  { rewrite parseArray_S, nextToken_NewParser. cbn [lexer].
    rewrite NewParser_fst. unfold tok_is. cbn [token]. rewrite Hb.
    rewrite parseArray_loop_S, parseValue_no_value by exact Hv.
    reflexivity. }
  eapply (Validate_from _ _ 6).
  rewrite ParseObject_into_array by exact Hkey. rewrite Harr. reflexivity.
Qed.

Lemma array_needs_value_examples :
  @Validate latin1_tables (stream (src_text "{`a`:[,1]}")) =
    Invalid "invalid value: expected value, got ," /\
  @Validate latin1_tables (stream (src_text "{`a`:[")) =
    Invalid "invalid value: expected value, got ".
Proof.
  split.
  - apply (@array_needs_value latin1_tables [Plain 97] (src_text ",1]}") EOF);
      reflexivity.
  - apply (@array_needs_value latin1_tables [Plain 97] [] EOF); reflexivity.
Defined.

(** X25.  A comma in an array must be followed by a value: after a first
    element that is a string, a number, true, false or null and a comma,
    a token that cannot start a value, the closing bracket included,
    makes validation fail with invalid value: expected value, got and the
    literal of that token; so an array with a trailing comma is
    rejected. *)
Theorem array_comma_needs_value `{UnicodeTables}
    (key : list str_item) (t t' : list rune) (e : ioerr) (tok : Token) :
  forallb item_ok key = true ->
  NextToken (lex_at t e) = (tok, lex_at (rn "," :: t') e) ->
  scalar (Typ tok) = true ->
  starts_no_value (Typ (fst (NextToken (lex_at t' e)))) = true ->
  Validate
    (mkReader (rn "{" :: string_src key ++ rn ":" :: rn "[" :: t) e) =
  Invalid ("invalid value: expected value, got "
             ++ Literal (fst (NextToken (lex_at t' e)))).
Proof.
  intros Hkey Htok Hs Hv.
  assert (parseArray 4
            (mkParser (lex_at t e) (mkToken TokenLeftBracket "[")) =
          fail ("expected value, got "
                  ++ Literal (fst (NextToken (lex_at t' e))))
            (NewParser (lex_at t' e))) as Harr.
  { rewrite parseArray_S, nextToken_NewParser. cbn [lexer].
    rewrite (NewParser_NextToken _ _ _ _ Htok).
    rewrite scalar_tok_is by (exact Hs || reflexivity).
    rewrite parseArray_loop_S, parseValue_scalar by exact Hs.
    rewrite NewParser_comma. unfold tok_is.
    cbn [token Typ TokenType_eqb negb].
    rewrite nextToken_NewParser. cbn [lexer].
    rewrite NewParser_fst, parseArray_loop_S.
    rewrite parseValue_no_value by exact Hv. reflexivity. }
  eapply (Validate_from _ _ 7).
  rewrite ParseObject_into_array by exact Hkey. rewrite Harr. reflexivity.
Qed.

Lemma array_comma_needs_value_example :
  @Validate latin1_tables (stream (src_text "{`a`:[1,]}")) =
    Invalid "invalid value: expected value, got ]".
Proof.
  apply (@array_comma_needs_value latin1_tables [Plain 97]
           (src_text "1,]}") (src_text "]}") EOF (mkToken TokenNumber "1"));
    reflexivity.
Defined.

(** X26.  Array elements must be separated by commas: after a first
    element that is a string, a number, true, false or null, a token that
    is neither a comma nor the closing bracket makes validation fail with
    invalid value: expected ',' or ']', got and the quoted literal of
    that token. *)
Theorem array_needs_separator `{UnicodeTables}
    (key : list str_item) (t t' : list rune) (e : ioerr) (tok : Token) :
  forallb item_ok key = true ->
  NextToken (lex_at t e) = (tok, lex_at t' e) ->
  scalar (Typ tok) = true ->
  TokenType_eqb (Typ (fst (NextToken (lex_at t' e)))) TokenRightBracket
  = false ->
  TokenType_eqb (Typ (fst (NextToken (lex_at t' e)))) TokenComma = false ->
  Validate
    (mkReader (rn "{" :: string_src key ++ rn ":" :: rn "[" :: t) e) =
  Invalid ("invalid value: expected ',' or ']', got '"
             ++ Literal (fst (NextToken (lex_at t' e))) ++ "'").
Proof.
  intros Hkey Htok Hs Hb Hc.
  assert (parseArray 3
            (mkParser (lex_at t e) (mkToken TokenLeftBracket "[")) =
          fail ("expected ',' or ']', got '"
                  ++ Literal (fst (NextToken (lex_at t' e))) ++ "'")
            (NewParser (lex_at t' e))) as Harr.
  { rewrite parseArray_S, nextToken_NewParser. cbn [lexer].
    rewrite (NewParser_NextToken _ _ _ _ Htok).
    rewrite scalar_tok_is by (exact Hs || reflexivity).
    rewrite parseArray_loop_S, parseValue_scalar by exact Hs.
    rewrite NewParser_fst. unfold tok_is. cbn [token].
    rewrite Hb, Hc. reflexivity. }
  eapply (Validate_from _ _ 6).
  rewrite ParseObject_into_array by exact Hkey. rewrite Harr. reflexivity.
Qed.

Lemma array_needs_separator_examples :
  @Validate latin1_tables (stream (src_text "{`a`:[1 2]}")) =
    Invalid "invalid value: expected ',' or ']', got '2'" /\
  @Validate latin1_tables (stream (src_text "{`a`:[true}")) =
    Invalid "invalid value: expected ',' or ']', got '}'".
Proof.
  split.
  - apply (@array_needs_separator latin1_tables [Plain 97]
             (src_text "1 2]}") (src_text " 2]}") EOF
             (mkToken TokenNumber "1")); reflexivity.
  - apply (@array_needs_separator latin1_tables [Plain 97]
             (src_text "true}") (src_text "}") EOF
             (mkToken TokenBoolean "true")); reflexivity.
Defined.

(** ** Every object of tokens is accepted *)

Section TokenCompleteness.
Context {U : UnicodeTables}.

Lemma reads_app a : forall p b q,
  reads p (a ++ b) q <-> exists m, reads p a m /\ reads m b q.
Proof.
  induction a as [|ty a IH]; intros p b q; cbn [app reads].
  - split; [intros Hb; exists p; split; [reflexivity|exact Hb]|].
    intros (m & -> & Hb). exact Hb.
  - split.
    + intros (Hty & Hr). apply IH in Hr. destruct Hr as (m & Ha & Hb).
      exists m. split; [split; assumption|exact Hb].
    + intros (m & (Hty & Ha) & Hb). split; [exact Hty|].
      apply IH. exists m. split; assumption.
Qed.

Lemma reads_consumed k : forall p, reads p (consumed k p) (advance k p).
Proof.
  induction k as [|k IH]; intros p; cbn [consumed advance reads];
    [reflexivity|]. split; [reflexivity|apply IH].
Qed.

Lemma tok_object_head ts :
  tok_object ts -> exists ts', ts = TokenLeftBrace :: ts'.
Proof. intros []; eexists; reflexivity. Qed.

Lemma tok_array_head ts :
  tok_array ts -> exists ts', ts = TokenLeftBracket :: ts'.
Proof. intros []; eexists; reflexivity. Qed.

Lemma tok_value_head ts :
  tok_value ts ->
  exists ty ts', ts = ty :: ts' /\ starts_no_value ty = false.
Proof.
  intros [| | | |ts' Ho|ts' Ha]; try (eexists _, _; split; reflexivity).
  - destruct (tok_object_head _ Ho) as (r & ->).
    eexists _, _; split; reflexivity.
  - destruct (tok_array_head _ Ha) as (r & ->).
    eexists _, _; split; reflexivity.
Qed.

Lemma tok_elements_head es :
  tok_elements es ->
  exists ty es', es = ty :: es' /\ starts_no_value ty = false.
Proof.
  intros [v Hv|v es' Hv _]; destruct (tok_value_head _ Hv) as (ty & r & -> & Hty).
  - exists ty, r. split; [reflexivity|exact Hty].
  - exists ty, (r ++ TokenComma :: es'). split; [reflexivity|exact Hty].
Qed.

Lemma tok_members_head ms :
  tok_members ms -> exists ms', ms = TokenString :: ms'.
Proof. intros []; eexists; reflexivity. Qed.

Lemma Typ_tok_is p ty : Typ (token p) = ty -> tok_is p ty = true.
Proof. intros <-. unfold tok_is. destruct (Typ (token p)); reflexivity. Qed.

Lemma Typ_tok_is_not p ty ty' :
  Typ (token p) = ty -> ty <> ty' -> tok_is p ty' = false.
Proof.
  intros <- Hne. unfold tok_is.
  destruct (TokenType_eqb (Typ (token p)) ty') eqn:E; [|reflexivity].
  apply TokenType_eqb_eq in E. contradiction.
Qed.

(** The parser follows the grammar: each method accepts every token
    sequence of its production and stops behind it. *)
Lemma tok_accepted :
  (forall ts, tok_value ts ->
     forall p q, reads p ts q -> succeeds parseValue p q) /\
  (forall ts, tok_object ts ->
     forall p q, reads p ts q -> succeeds ParseObject p q) /\
  (forall ms, tok_members ms ->
     forall p q, reads p (ms ++ [TokenRightBrace]) q ->
       succeeds ParseObject_loop p q) /\
  (forall ts, tok_array ts ->
     forall p q, reads p ts q -> succeeds parseArray p q) /\
  (forall es, tok_elements es ->
     forall p q, reads p (es ++ [TokenRightBracket]) q ->
       succeeds parseArray_loop p q).
Proof.
  apply tok_mutual.
  - (* string *)
    intros p q (Hty & ->). exists 1%nat. intros n Hn.
    destruct n as [|n]; [lia|]. rewrite parseValue_S, Hty. reflexivity.
  - intros p q (Hty & ->). exists 1%nat. intros n Hn.
    destruct n as [|n]; [lia|]. rewrite parseValue_S, Hty. reflexivity.
  - intros p q (Hty & ->). exists 1%nat. intros n Hn.
    destruct n as [|n]; [lia|]. rewrite parseValue_S, Hty. reflexivity.
  - intros p q (Hty & ->). exists 1%nat. intros n Hn.
    destruct n as [|n]; [lia|]. rewrite parseValue_S, Hty. reflexivity.
  - (* a value that is an object *)
    intros ts Ho IH p q Hr. destruct (IH p q Hr) as (n0 & Hn0).
    destruct (tok_object_head _ Ho) as (r & ->). destruct Hr as (Hty & _).
    exists (S n0). intros n Hn. destruct n as [|n]; [lia|].
    rewrite parseValue_S, Hty. apply Hn0. lia.
  - (* a value that is an array *)
    intros ts Ha IH p q Hr. destruct (IH p q Hr) as (n0 & Hn0).
    destruct (tok_array_head _ Ha) as (r & ->). destruct Hr as (Hty & _).
    exists (S n0). intros n Hn. destruct n as [|n]; [lia|].
    rewrite parseValue_S, Hty. apply Hn0. lia.
  - (* the empty object *)
    intros p q (Hb & Hc & ->). exists 1%nat. intros n Hn.
    destruct n as [|n]; [lia|].
    rewrite ParseObject_S, (Typ_tok_is _ _ Hb), (Typ_tok_is _ _ Hc).
    reflexivity.
  - (* an object with members *)
    intros ms Hms IH p q (Hb & Hr). destruct (IH _ q Hr) as (n0 & Hn0).
    destruct (tok_members_head _ Hms) as (r & ->). destruct Hr as (Hs & _).
    exists (S n0). intros n Hn. destruct n as [|n]; [lia|].
    rewrite ParseObject_S, (Typ_tok_is _ _ Hb).
    rewrite (Typ_tok_is_not _ _ TokenRightBrace Hs) by discriminate.
    apply Hn0. lia.
  - (* the last member *)
    intros v Hv IH p q (Hs & Hc & Hr).
    apply reads_app in Hr. destruct Hr as (m & Hm & Hb & ->).
    destruct (IH _ _ Hm) as (n0 & Hn0).
    exists (S n0). intros n Hn. destruct n as [|n]; [lia|].
    rewrite ParseObject_loop_S, (Typ_tok_is _ _ Hs), (Typ_tok_is _ _ Hc).
    cbn [negb]. rewrite Hn0 by lia. rewrite (Typ_tok_is _ _ Hb).
    reflexivity.
  - (* a member and more *)
    intros v ms Hv IHv Hms IHms p q Hr.
    change ((TokenString :: TokenColon :: v ++ TokenComma :: ms)
              ++ [TokenRightBrace])
      with (TokenString :: TokenColon ::
              (v ++ TokenComma :: ms) ++ [TokenRightBrace]) in Hr.
    rewrite <- app_assoc in Hr. destruct Hr as (Hs & Hc & Hr).
    apply reads_app in Hr. destruct Hr as (m & Hm & Hcomma & Hr).
    destruct (IHv _ _ Hm) as (n1 & Hn1).
    destruct (IHms _ _ Hr) as (n2 & Hn2).
    exists (S (Nat.max n1 n2)). intros n Hn. destruct n as [|n]; [lia|].
    rewrite ParseObject_loop_S, (Typ_tok_is _ _ Hs), (Typ_tok_is _ _ Hc).
    cbn [negb]. rewrite Hn1 by lia.
    rewrite (Typ_tok_is_not _ _ TokenRightBrace Hcomma) by discriminate.
    rewrite (Typ_tok_is _ _ Hcomma). cbn [negb]. apply Hn2. lia.
  - (* the empty array *)
    intros p q (Hb & Hc & ->). exists 1%nat. intros n Hn.
    destruct n as [|n]; [lia|].
    rewrite parseArray_S, (Typ_tok_is _ _ Hc). reflexivity.
  - (* an array with elements *)
    intros es Hes IH p q (Hb & Hr). destruct (IH _ q Hr) as (n0 & Hn0).
    destruct (tok_elements_head _ Hes) as (ty & r & -> & Hty).
    destruct Hr as (Hs & _).
    exists (S n0). intros n Hn. destruct n as [|n]; [lia|].
    rewrite parseArray_S.
    rewrite (Typ_tok_is_not _ _ TokenRightBracket Hs)
      by (intros ->; discriminate Hty).
    apply Hn0. lia.
  - (* the last element *)
    intros v Hv IH p q Hr.
    apply reads_app in Hr. destruct Hr as (m & Hm & Hb & ->).
    destruct (IH _ _ Hm) as (n0 & Hn0).
    exists (S n0). intros n Hn. destruct n as [|n]; [lia|].
    rewrite parseArray_loop_S, Hn0 by lia. rewrite (Typ_tok_is _ _ Hb).
    reflexivity.
  - (* an element and more *)
    intros v es Hv IHv Hes IHes p q Hr.
    rewrite <- app_assoc in Hr.
    apply reads_app in Hr. destruct Hr as (m & Hm & Hcomma & Hr).
    destruct (IHv _ _ Hm) as (n1 & Hn1).
    destruct (IHes _ _ Hr) as (n2 & Hn2).
    exists (S (Nat.max n1 n2)). intros n Hn. destruct n as [|n]; [lia|].
    rewrite parseArray_loop_S, Hn1 by lia.
    rewrite (Typ_tok_is_not _ _ TokenRightBracket Hcomma) by discriminate.
    rewrite (Typ_tok_is _ _ Hcomma). cbn [negb]. apply Hn2. lia.
Qed.

End TokenCompleteness.

(** X27.  ParseObject accepts every input whose tokens begin with an
    object: when the kinds of the first tokens form a token sequence of
    the object production, validation succeeds, whatever the literals of
    the tokens and whatever follows them. *)
Theorem object_tokens_accepted `{UnicodeTables} (input : Reader) (k : nat) :
  tok_object (map Typ (fst (NextToken_n k (NewLexer input)))) ->
  Validate input = Valid.
Proof.
  rewrite <- consumed_NextToken_n. intros Ho.
  destruct (proj1 (proj2 tok_accepted) _ Ho _ _
              (reads_consumed k (NewParser (NewLexer input))))
    as (n0 & Hn0).
  destruct input as [t e]. rewrite NewLexer_lex_at in Hn0.
  exact (Validate_from t e n0 None _ (Hn0 n0 (Nat.le_refl n0))).
Qed.

Lemma object_tokens_accepted_example :
  @Validate latin1_tables (stream (src_text "{`a`:[-,007]} ]")) = Valid.
Proof.
  apply (@object_tokens_accepted latin1_tables
           (stream (src_text "{`a`:[-,007]} ]")) 9).
  exact (tok_object_members _
           (tok_members_one _
              (tok_value_array _
                 (tok_array_elements _
                    (tok_elements_more _ _ tok_number
                       (tok_elements_one _ tok_number)))))).
Defined.

(** * Invalid escapes and the verdict *)

Section ErrorTokens.
Context {U : UnicodeTables}.

(** No token sequence of the grammar holds an error token. *)
Lemma tok_no_error :
  (forall ts, tok_value ts -> ~ In TokenError ts) /\
  (forall ts, tok_object ts -> ~ In TokenError ts) /\
  (forall ts, tok_members ts -> ~ In TokenError ts) /\
  (forall ts, tok_array ts -> ~ In TokenError ts) /\
  (forall ts, tok_elements ts -> ~ In TokenError ts).
Proof.
  apply tok_mutual; intros; cbn [In]; rewrite ?in_app_iff; cbn [In];
    intuition discriminate.
Qed.

Lemma lexer_NewParser l : lexer (NewParser l) = snd (NextToken l).
Proof.
  unfold NewParser, nextToken. cbn [lexer].
  destruct (NextToken l); reflexivity.
Qed.

Lemma token_NewParser l : token (NewParser l) = fst (NextToken l).
Proof.
  unfold NewParser, nextToken. cbn [lexer].
  destruct (NextToken l); reflexivity.
Qed.

(** The parser after [k] calls of [nextToken] holds token [k + 1]. *)
Lemma advance_NewParser k : forall l,
  advance k (NewParser l) = NewParser (snd (NextToken_n k l)).
Proof.
  induction k as [|k IH]; intros l; [reflexivity|].
  cbn [advance NextToken_n].
  rewrite nextToken_NewParser, lexer_NewParser, IH.
  destruct (NextToken l) as [tok l1]. cbn [snd].
  destruct (NextToken_n k l1) as [toks l2]. reflexivity.
Qed.

(** When token [k + 1] is an error token, the input is accepted exactly
    when the tokens before it begin with a complete object. *)
Lemma error_token_verdict input k :
  Typ (fst (NextToken (snd (NextToken_n k (NewLexer input))))) = TokenError ->
  Validate input = Valid <->
  exists j, (j <= k)%nat /\
    tok_object (map Typ (fst (NextToken_n j (NewLexer input)))).
Proof.
  intros Herr. split.
  - unfold Validate. intros Hv.
    destruct (ParseObject (fuel_for input) (NewParser (NewLexer input)))
      as [|[msg|] q] eqn:E; try discriminate Hv.
    destruct (proj1 (proj2 (proj2 (proj2 (parsed_tokens _)))) _ _ E)
      as (j & _ & Hj).
    destruct (Nat.le_gt_cases j k) as [Hle|Hgt].
    + exists j. split; [exact Hle|].
      rewrite <- consumed_NextToken_n. exact Hj.
    + exfalso. apply (proj1 (proj2 tok_no_error) _ Hj).
      replace j with (k + S (j - S k))%nat by lia.
      rewrite consumed_add. apply in_or_app. right. cbn [consumed].
      left. rewrite advance_NewParser, token_NewParser. exact Herr.
  - intros (j & _ & Ho). rewrite <- consumed_NextToken_n in Ho.
    destruct (proj1 (proj2 tok_accepted) _ Ho _ _
                (reads_consumed j (NewParser (NewLexer input))))
      as (n0 & Hn0).
    destruct input as [t e]. rewrite NewLexer_lex_at in Hn0.
    exact (Validate_from t e n0 None _ (Hn0 n0 (Nat.le_refl n0))).
Qed.

(** A complete object ends with a closing brace. *)
Lemma tok_object_ends ts :
  tok_object ts -> last ts TokenEOF = TokenRightBrace.
Proof.
  intros [|ms _]; [reflexivity|].
  rewrite app_comm_cons. apply last_last.
Qed.

End ErrorTokens.

(** C6 (as amended).  When string scanning reaches a backslash followed by
    a character outside the supported escape set, everything before it in
    the string being ordinary characters and supported escapes, it yields
    a lexical error naming that character, and the whole validation fails
    wherever the string stands in the input, with one exception: an input
    is accepted exactly when the tokens that precede the string already
    begin with a complete object, the string then standing after the
    closing brace of the root object, where it is at most loaded as
    lookahead and never examined.  When the string is the value of the
    first member, whatever the key and the whitespace, the error is
    invalid value: expected value, got followed by the lexical error; when
    it stands where the first key should, the error is
    expected string key, got followed by the lexical error. *)
Theorem invalid_escape_reported `{UnicodeTables}
    (prefix : list str_item) (c : rune) (rest : list rune) (e : ioerr) :
  forallb item_ok prefix = true ->
  existsb (Z.eqb c) escape_letters = false ->
  let text := quote :: flat_map item_src prefix ++ backslash :: c :: rest in
  let msg := ("invalid escape sequence: \" ++ utf8_rune c)%string in
  NextToken (lex_at text e) = (mkToken TokenError msg, lex_at (c :: rest) e) /\
  (forall (doc ws : list rune) (k : nat),
     blank ws ->
     snd (NextToken_n k (lex_at doc e)) = lex_at (ws ++ text) e ->
     (Validate (mkReader doc e) = Valid <->
      exists j, (j <= k)%nat /\
        tok_object (map Typ (fst (NextToken_n j (lex_at doc e))))) /\
     ((forall j, (j <= k)%nat ->
         ~ tok_object (map Typ (fst (NextToken_n j (lex_at doc e))))) ->
      exists m, Validate (mkReader doc e) = Invalid m)) /\
  (forall (ws0 ws1 ws2 ws3 : list rune) (key : list str_item),
     blank ws0 -> blank ws1 -> blank ws2 -> blank ws3 ->
     forallb item_ok key = true ->
     Validate
       (mkReader (ws0 ++ rn "{" :: ws1 ++ string_src key ++ ws2
                    ++ rn ":" :: ws3 ++ text) e) =
     Invalid ("invalid value: expected value, got " ++ msg)) /\
  (forall ws0 ws1 : list rune,
     blank ws0 -> blank ws1 ->
     Validate (mkReader (ws0 ++ rn "{" :: ws1 ++ text) e) =
     Invalid ("expected string key, got " ++ msg)).
Proof.
  intros Hok Hc text msg.
  assert (NextToken (lex_at text e) =
          (mkToken TokenError msg, lex_at (c :: rest) e)) as Htok.
  { unfold text. rewrite NextToken_cons by reflexivity.
    change (quote =? quote) with true. cbv iota beta. rn_norm.
    cbn [Z.eqb Pos.eqb]. unfold readString. rewrite readChar_cons.
    rewrite readString_loop_bad_escape by (auto; apply budget_lex_at).
    reflexivity. }
  pose proof (NewParser_NextToken _ _ _ _ Htok) as Hnew.
  split; [exact Htok|]. split; [|split].
  - intros doc ws k Hws Hstate.
    assert (Validate (mkReader doc e) = Valid <->
            exists j, (j <= k)%nat /\
              tok_object (map Typ (fst (NextToken_n j (lex_at doc e)))))
      as Hiff.
    { rewrite <- (NewLexer_lex_at doc e). apply error_token_verdict.
      rewrite NewLexer_lex_at, Hstate, NextToken_skip.
      rewrite (drop_while_blank ws text Hws), <- NextToken_skip, Htok.
      reflexivity. }
    split; [exact Hiff|]. intros Hnone.
    destruct (Validate_total (mkReader doc e)) as ([m|] & Hv).
    + exists m. exact Hv.
    + exfalso. destruct (proj1 Hiff Hv) as (j & Hj & Ho).
      exact (Hnone j Hj Ho).
  - intros ws0 ws1 ws2 ws3 key H0 H1 H2 H3 Hkey.
    eapply (Validate_from _ _ 3).
    rewrite NewParser_blank by exact H0.
    rewrite ParseObject_S, NewParser_lbrace.
    unfold tok_is at 1. cbn [token Typ TokenType_eqb negb].
    rewrite !nextToken_NewParser. cbn [lexer].
    rewrite NewParser_blank by exact H1.
    rewrite NewParser_string by exact Hkey.
    unfold tok_is at 1. cbn [token Typ TokenType_eqb].
    rewrite ParseObject_loop_S.
    unfold tok_is at 1. cbn [token Typ TokenType_eqb negb].
    rewrite !nextToken_NewParser. cbn [lexer].
    rewrite NewParser_blank by exact H2. rewrite NewParser_colon.
    unfold tok_is at 1. cbn [token Typ TokenType_eqb negb lexer].
    rewrite NewParser_blank by exact H3.
    rewrite Hnew, parseValue_S. reflexivity.
  - intros ws0 ws1 H0 H1. eapply (Validate_from _ _ 2).
    rewrite NewParser_blank by exact H0.
    rewrite ParseObject_S, NewParser_lbrace.
    unfold tok_is at 1. cbn [token Typ TokenType_eqb negb].
    rewrite !nextToken_NewParser. cbn [lexer].
    rewrite NewParser_blank by exact H1. rewrite Hnew.
    unfold tok_is at 1. cbn [token Typ TokenType_eqb].
    rewrite ParseObject_loop_S. reflexivity.
Qed.

Lemma invalid_escape_example :
  @NextToken latin1_tables (NewLexer (stream (src_text "`bad\qescape`"))) =
    (mkToken TokenError "invalid escape sequence: \q",
     lex_at (src_text "qescape`") EOF) /\
  @Validate latin1_tables (stream (src_text "{`a`: `bad\qescape`}")) =
    Invalid "invalid value: expected value, got invalid escape sequence: \q" /\
  (exists m,
     @Validate latin1_tables (stream (src_text "{`a`:1,`b`:`bad\q`}")) =
     Invalid m) /\
  (exists m,
     @Validate latin1_tables (stream (src_text "{`a`:[1, `bad\q`]}")) =
     Invalid m).
Proof.
  split; [|split; [|split]].
  - apply (@invalid_escape_reported latin1_tables
             (map Plain (src_text "bad")) (rn "q") (src_text "escape`") EOF);
      reflexivity.
  - apply (proj1 (proj2 (proj2
             (@invalid_escape_reported latin1_tables
                (map Plain (src_text "bad")) (rn "q") (src_text "escape`}")
                EOF eq_refl eq_refl)))
             [] [] [] [32] [Plain 97]); reflexivity.
  - apply (proj1 (proj2
             (@invalid_escape_reported latin1_tables
                (map Plain (src_text "bad")) (rn "q") (src_text "`}")
                EOF eq_refl eq_refl))
             (src_text "{`a`:1,`b`:`bad\q`}") [] 7%nat eq_refl eq_refl).
    intros j Hj Ho. apply tok_object_ends in Ho.
    do 8 (destruct j as [|j]; [vm_compute in Ho; discriminate Ho|]). lia.
  - apply (proj1 (proj2
             (@invalid_escape_reported latin1_tables
                (map Plain (src_text "bad")) (rn "q") (src_text "`]}")
                EOF eq_refl eq_refl))
             (src_text "{`a`:[1, `bad\q`]}") [32] 6%nat eq_refl eq_refl).
    intros j Hj Ho. apply tok_object_ends in Ho.
    do 7 (destruct j as [|j]; [vm_compute in Ho; discriminate Ho|]). lia.
Defined.

(** Against C6 as stated: scanning the string with the invalid escape
    yields the lexical error, and yet the whole validation succeeds, the
    string standing after the closing brace of the root object; and in a
    string whose invalid escape comes after a raw control character the
    lexical error names the control character, not the escape. *)
Lemma invalid_escape_after_root_accepted :
  (fst (@NextToken latin1_tables
          (NewLexer (stream (src_text " `bad\qescape`")))) =
     mkToken TokenError "invalid escape sequence: \q" /\
   @Validate latin1_tables (stream (src_text "{} `bad\qescape`")) = Valid) /\
  fst (@NextToken latin1_tables
         (NewLexer (stream [quote; 1; backslash; rn "q"; quote]))) =
    mkToken TokenError "invalid control character in string: 1".
Proof. repeat split; vm_compute; reflexivity. Qed.
